(** * AI-Story-To-Movie: the scene/panel continuity and refinement engine

    A shallow embedding of the parts of [01_cinematic_preroll.py] and
    [05_grid_quality_gate.py] that decide the testable properties of the
    engine, together with the proofs that settle them.

    Conventions of the embedding:
    - Python [int] is [Z]; [//] is [Z.div] (both round towards minus infinity).
    - Python [str] is [string]; the string primitives below are the ASCII
      fragment of the Python ones.
    - A JSON object handled as a [dict] is a [gmap string jval].
    - Every call of an external generative service is an event recorded in
      the world, and its answer is given by an oracle. *)

From stdpp Require Import gmap strings list fin_maps pretty sorting.
From Stdlib Require Import ZArith Lia Ascii.

Local Open Scope Z_scope.

(** ** Python primitives *)

Module Py.

(** [s.replace(old, new)] for a non-empty pattern [old]: scanning from the
    left, every occurrence that does not overlap an earlier one is
    replaced. [skip] counts the characters of the current occurrence that
    are still to be dropped. *)
Fixpoint replace_go (old new : string) (skip : nat) (s : string) : string :=
  match s with
  | EmptyString => EmptyString
  | String c s' =>
      match skip with
      | S k => replace_go old new k s'
      | O =>
          if String.prefix old s
          then new +:+ replace_go old new (String.length old - 1) s'
          else String c (replace_go old new O s')
      end
  end.
Definition replace (old new s : string) : string := replace_go old new 0 s.

(** The double quote character *)
Definition dquote : string := String "034" EmptyString.

(** [s.endswith(suffix)] *)
Definition endswith (s suffix : string) : bool :=
  let n := String.length s in
  let k := String.length suffix in
  (k <=? n)%nat && String.eqb (String.substring (n - k) k s) suffix.

(** [s.startswith(prefix)] *)
Definition startswith (s prefix : string) : bool := String.prefix prefix s.

Definition is_upper (c : ascii) : bool :=
  let n := nat_of_ascii c in (65 <=? n)%nat && (n <=? 90)%nat.
Definition is_lower (c : ascii) : bool :=
  let n := nat_of_ascii c in (97 <=? n)%nat && (n <=? 122)%nat.
Definition is_cased (c : ascii) : bool := is_upper c || is_lower c.

Definition lower_char (c : ascii) : ascii :=
  if is_upper c then ascii_of_nat (nat_of_ascii c + 32) else c.
Definition upper_char (c : ascii) : ascii :=
  if is_lower c then ascii_of_nat (nat_of_ascii c - 32) else c.

(** [s.lower()] *)
Fixpoint lower (s : string) : string :=
  match s with
  | EmptyString => EmptyString
  | String c s' => String (lower_char c) (lower s')
  end.

(** [s.title()]: a cased character is upper-cased when the character
    before it is not cased, and lower-cased otherwise. *)
Fixpoint title_go (prev_cased : bool) (s : string) : string :=
  match s with
  | EmptyString => EmptyString
  | String c s' =>
      String (if prev_cased then lower_char c else upper_char c)
             (title_go (is_cased c) s')
  end.
Definition title (s : string) : string := title_go false s.

(** [sub in s] *)
Fixpoint contains (sub s : string) : bool :=
  String.prefix sub s ||
  match s with
  | EmptyString => false
  | String _ s' => contains sub s'
  end.

(** [s[:n]] for [n >= 0] *)
Definition take (n : nat) (s : string) : string := String.substring 0 n s.

Fixpoint zeros (n : nat) : string :=
  match n with O => EmptyString | S n' => String "0" (zeros n') end.

(** [f"{z:0{width}d}"]: the sign, then zeros up to the minimal width, then
    the decimal digits. *)
Definition format_0d (width : nat) (z : Z) : string :=
  let digits := pretty (Z.abs z) in
  let sign := if z <? 0 then "-" else "" in
  sign +:+ zeros (width - String.length sign - String.length digits)
       +:+ digits.

End Py.

(** ** Images

    An image is known by where it comes from: a raster produced by the
    image service, or the crop of another image to a box. [Image.size] and
    [Image.crop] are the only operations the engine uses. *)

Record box := Box { b_left : Z; b_upper : Z; b_right : Z; b_lower : Z }.

Inductive image :=
| Raster (token : nat) (w h : Z)
| Crop (b : box) (src : image).

Definition image_size (i : image) : Z * Z :=
  match i with
  | Raster _ w h => (w, h)
  | Crop b _ => (b_right b - b_left b, b_lower b - b_upper b)
  end.

Definition box_size (b : box) : Z * Z := (b_right b - b_left b, b_lower b - b_upper b).

(** ** Grid geometry, shared by [slice_combined] and [slice_grid] *)

(** The [if panels == 9 ... elif ... else] cascade of both slicers. *)
Definition grid_dims (panels : Z) : Z * Z :=
  if panels =? 9 then (3, 3)
  else if panels =? 6 then (3, 2)
  else if panels =? 4 then (2, 2)
  else (3, (panels + 2) / 3).

(** [range(n)] *)
Definition range (n : Z) : list Z := seqZ 0 n.

(** [(c*pw, off + r*ph, (c+1)*pw, off + (r+1)*ph)] *)
Definition cell (pw ph off r c : Z) : box :=
  Box (c * pw) (off + r * ph) ((c + 1) * pw) (off + (r + 1) * ph).

(** All cells of a [rows] by [cols] grid, row by row: the iteration space of
    [for r in range(rows): for c in range(cols)]. *)
Definition cells (rows cols : Z) : list (Z * Z) :=
  r ← range rows; c ← range cols; [(r, c)].

(** ** JSON documents

    The values found under the keys of a panel: [None], booleans, integers,
    strings and lists of strings ([references]). *)

Inductive jval :=
| JNull
| JBool (b : bool)
| JInt (z : Z)
| JStr (s : string)
| JStrs (l : list string).

Global Instance jval_eq_dec : EqDecision jval.
Proof. solve_decision. Defined.

(** Python truth value *)
Definition truthy (v : jval) : bool :=
  match v with
  | JNull => false
  | JBool b => b
  | JInt z => negb (z =? 0)
  | JStr s => negb (String.eqb s "")
  | JStrs l => negb (bool_decide (l = []))
  end.

(** A panel is the [dict] that [json.loads] builds for it. *)
Abbreviation panel := (gmap string jval).

(** [d.get(k, dflt)] *)
Definition get (d : gmap string jval) (k : string) (dflt : jval) : jval :=
  default dflt (d !! k).

(** [d.setdefault(k, dflt)] *)
Definition setdefault (k : string) (dflt : jval) (d : gmap string jval)
    : gmap string jval :=
  match d !! k with
  | Some _ => d
  | None => <[k := dflt]> d
  end.

(** A scene is a [dict] too; the keys the engine reads are the fields, a
    missing key is [None]. *)
Record scene := Scene {
  scene_id : option Z;
  location : option string;
  pre_action_description : option string;
  panels : option (list panel)
}.

(** [{'scenes': [...]}]; [None] is a dictionary without the key [scenes],
    such as the [{}] of a failed call. *)
Abbreviation scenes_doc := (option (list scene)).

(** An episode is only ever printed into a prompt. *)
Abbreviation episode := (gmap string jval).

(** The screenplay; [None] is a dictionary without the key [episodes]. *)
Record screenplay := Screenplay { episodes : option (list episode) }.

(** A reference identity, as [CHARACTER_SCHEMA] requires it. *)
Record character := Character {
  name : string;
  type : string;
  visual_desc : string;
  video_visual_desc : string;
  style_reference : string
}.

Global Instance scene_eq_dec : EqDecision scene.
Proof. solve_decision. Defined.
Global Instance character_eq_dec : EqDecision character.
Proof. solve_decision. Defined.

(** ** Exceptions and the monad of the scripts *)

Inductive exn :=
| KeyError (key : string)
| IndexError
| TypeError
| AttributeError
| FileNotFoundError (path : string)
| UnidentifiedImageError (path : string)
| ServiceError (message : string).

(** [str(e)] *)
Definition str (e : exn) : string :=
  match e with
  | KeyError k => "'" +:+ k +:+ "'"
  | IndexError => "list index out of range"
  | TypeError => "unsupported operand"
  | AttributeError => "'NoneType' object has no attribute"
  | FileNotFoundError p => "[Errno 2] No such file or directory: '" +:+ p +:+ "'"
  | UnidentifiedImageError p => "cannot identify image file '" +:+ p +:+ "'"
  | ServiceError m => m
  end.

Inductive result (A : Type) :=
| Ok (a : A)
| Raise (e : exn).
Global Arguments Ok {A} a.
Global Arguments Raise {A} e.

(** A computation on a state [S] that returns or raises. *)
Definition M (S A : Type) : Type := S → result A * S.

Global Instance M_ret {S} : MRet (M S) := λ A a s, (Ok a, s).
Global Instance M_bind {S} : MBind (M S) := λ A B f m s,
  match m s with
  | (Ok a, s') => f a s'
  | (Raise e, s') => (Raise e, s')
  end.

Definition raise {S A} (e : exn) : M S A := λ s, (Raise e, s).
Definition modify {S} (f : S → S) : M S unit := λ s, (Ok tt, f s).
Definition gets {S A} (f : S → A) : M S A := λ s, (Ok (f s), s).

(** [try: m  except Exception as e: h e] *)
Definition try_except {S A} (m : M S A) (h : exn → M S A) : M S A := λ s,
  match m s with
  | (Ok a, s') => (Ok a, s')
  | (Raise e, s') => h e s'
  end.

(** [d[k]] *)
Definition getitem {S} (d : gmap string jval) (k : string) : M S jval :=
  match d !! k with
  | Some v => mret v
  | None => raise (KeyError k)
  end.

(** [for x in l: body x] *)
Fixpoint for_each {S A} (l : list A) (body : A → M S unit) : M S unit :=
  match l with
  | [] => mret tt
  | x :: l' => body x ;; for_each l' body
  end.

(** [[f x for x in l]], where [f] may raise *)
Fixpoint for_list {S A B} (l : list A) (f : A → M S B) : M S (list B) :=
  match l with
  | [] => mret []
  | x :: l' => y ← f x; ys ← for_list l' f; mret (y :: ys)
  end.

(** [sorted(l, key=key)]: a stable sort on integer keys. *)
Fixpoint insert_by {A} (key : A → Z) (x : A) (l : list A) : list A :=
  match l with
  | [] => [x]
  | y :: l' => if key x <? key y then x :: y :: l'
               else y :: insert_by key x l'
  end.
Definition sorted {A} (key : A → Z) (l : list A) : list A :=
  foldl (λ acc x, insert_by key x acc) [] l.

(** [with ThreadPoolExecutor() as executor: executor.map(task, batch)]

    The iterator of results is never consumed, so an exception raised by a
    task is lost with it; the [with] block joins all tasks. The tasks touch
    the shared state only through whole operations (an [append], a file
    write, a registry entry), so a run is a sequential run of the tasks in
    their order of completion, which the scheduler picks. *)
Record scheduler := Scheduler {
  completion_order : ∀ {T : Type}, list T → list T
}.

Definition fair (sched : scheduler) : Prop :=
  ∀ (T : Type) (l : list T), Permutation (completion_order sched l) l.

Definition swallow {S} (m : M S unit) : M S unit :=
  try_except m (λ _, mret tt).

Definition executor_map {S T} (sched : scheduler) (task : T → M S unit)
    (batch : list T) : M S unit :=
  for_each (completion_order sched batch) (λ x, swallow (task x)).

(** ** [01_cinematic_preroll.py] *)

Module Preroll.

(** The entries of the configuration dictionary that the engine reads. *)
Record config := Config {
  format_type : string;            (* config['format']['type'] *)
  panels_per_scene : Z;            (* config['format']['panels_per_scene'] *)
  animation_enabled : bool;        (* config['animation']['enabled'] *)
  slicing_enabled : bool;          (* config['slicing']['enabled'] *)
  reference_characters_enabled : bool  (* config['reference_characters']['enabled'] *)
}.

(** [get_default_config] *)
Definition get_default_config : config :=
  {| format_type := "dual_grid_animation";
     panels_per_scene := 9;
     animation_enabled := true;
     slicing_enabled := true;
     reference_characters_enabled := true |}.

Definition is_dual_grid (cfg : config) : bool :=
  String.eqb (format_type cfg) "dual_grid_animation".

(** ** [slice_combined] *)

(** [f"{sid:03d}_{idx:02d}_{role}.png"] *)
Definition panel_file (sid idx : Z) (role : string) : string :=
  Py.format_0d 3 sid +:+ "_" +:+ Py.format_0d 2 idx +:+ "_" +:+ role +:+ ".png".

(** What a slicing run saves under [panels/], in the order of the calls of
    [save]. *)
Definition saves := list (string * image).

(** One half of the dual grid: both loops, the counter [idx] running
    through them. *)
Definition slice_half (img : image) (sid pw ph off rows cols : Z)
    (role : string) : saves :=
  snd (foldl (fun st r =>
         foldl (fun (st : Z * saves) c =>
                  let '(idx, out) := st in
                  (idx + 1,
                   out ++ [(panel_file sid idx role,
                            Crop (cell pw ph off r c) img)]))
               st (range cols))
       (1, []) (range rows)).

(** The inner loop of the single grid, with its [break]. *)
Fixpoint slice_single_row (img : image) (sid pw ph panels r : Z)
    (cs : list Z) (st : Z * saves) : Z * saves :=
  match cs with
  | [] => st
  | c :: cs' =>
      let '(idx, out) := st in
      if idx >? panels then st
      else slice_single_row img sid pw ph panels r cs'
             (idx + 1,
              out ++ [(panel_file sid idx "static",
                       Crop (cell pw ph 0 r c) img)])
  end.

Definition slice_combined (img : image) (sid : Z) (cfg : config) : saves :=
  let '(w, h) := image_size img in
  let panels := panels_per_scene cfg in
  let '(cols, rows) := grid_dims panels in
  if is_dual_grid cfg then
    let half_h := h / 2 in
    let pw := w / cols in
    let ph := half_h / rows in
    slice_half img sid pw ph 0 rows cols "start"
      ++ slice_half img sid pw ph half_h rows cols "end"
  else
    let pw := w / cols in
    let ph := h / rows in
    snd (foldl (fun st r =>
                  slice_single_row img sid pw ph panels r (range cols) st)
               (1, []) (range rows)).


(** *** The world of the script: files, the registry, what was called *)

Inductive content :=
| Png (i : image)
| CharacterJson (c : character)
| ScreenplayJson (s : screenplay)
| ScenesJson (d : scenes_doc).

(** The text handed to casting: the story, or [json.dumps(episodes)]. *)
Inductive source :=
| Story (text : string)
| Dumped (s : screenplay).

(** A call of a generative service, known by the data its prompt is
    built from. *)
Inductive request :=
| CastingPrompt (existing : list string) (text : source)
| ScreenplayPrompt (text : string)
| ScenePrompt (episode_counter : Z) (ep : episode)
| RefinePrompt (episode_counter scene_counter : Z) (draft : scene)
| ReversalPrompt (reversed_panels : list panel)
| IdentifyPrompt (sc : scene)
| ReferenceImage (c : character) (style : option image)
| GridImage (sid : Z) (sc : scene) (real_chars : list string).

Definition is_image_request (r : request) : bool :=
  match r with
  | ReferenceImage _ _ | GridImage _ _ _ => true
  | _ => false
  end.

Inductive event :=
| Called (r : request)
| Slept (seconds : Z)
| Logged (message : string).

Inductive image_reply :=
| ImageRaises (e : exn)
| NoInlineData
| InlineData (i : image).

(** The services answer as they please, knowing all that happened before.
    For a structured call, [None] is a call that fails or whose answer
    does not parse. *)
Record service := Service {
  casting_reply : list event → list string → source → option (list character);
  screenplay_reply : list event → string → option screenplay;
  scenes_reply : list event → Z → episode → option scenes_doc;
  refine_reply : list event → Z → Z → scene → option scenes_doc;
  reversal_reply : list event → list panel → option (list (Z * string));
  identify_reply : list event → scene → option (list string);
  reference_reply : list event → character → option image → image_reply;
  grid_reply : list event → Z → scene → list string → image_reply
}.

Record world := World {
  files : gmap string content;
  CHARACTER_IMAGES : gmap string string;
  trace : list event;
  all_episodes : list (Z * scenes_doc);
  all_scenes : list scene
}.

Definition set_files (f : gmap string content → gmap string content) (w : world) :=
  World (f (files w)) (CHARACTER_IMAGES w) (trace w) (all_episodes w) (all_scenes w).
Definition set_CHARACTER_IMAGES (f : gmap string string → gmap string string) (w : world) :=
  World (files w) (f (CHARACTER_IMAGES w)) (trace w) (all_episodes w) (all_scenes w).
Definition set_trace (f : list event → list event) (w : world) :=
  World (files w) (CHARACTER_IMAGES w) (f (trace w)) (all_episodes w) (all_scenes w).
Definition set_all_episodes (f : list (Z * scenes_doc) → list (Z * scenes_doc)) (w : world) :=
  World (files w) (CHARACTER_IMAGES w) (trace w) (f (all_episodes w)) (all_scenes w).
Definition set_all_scenes (f : list scene → list scene) (w : world) :=
  World (files w) (CHARACTER_IMAGES w) (trace w) (all_episodes w) (f (all_scenes w)).

Definition log_event (e : event) : M world unit :=
  modify (set_trace (λ t, t ++ [e])).

(** [open(path, 'w').write(...)] and [image.save(path)] *)
Definition write (path : string) (c : content) : M world unit :=
  modify (set_files (insert path c)).

(** [Image.open(path)] *)
Definition Image_open (path : string) : M world image :=
  fs ← gets files;
  match fs !! path with
  | Some (Png i) => mret i
  | Some _ => raise (UnidentifiedImageError path)
  | None => raise (FileNotFoundError path)
  end.

Definition OUTPUT_DIR : string := "cinematic_render/".
Definition REF_DIR : string := "ref_thriller/".

(** *** [RateLimiter.acquire]

    The limiter only delays its caller, by an amount read off the wall
    clock; it never fails and touches nothing else. *)
Definition acquire : M world unit := mret tt.

(** *** [retry_on_errors] *)

Definition is_transient (error_str : string) : bool :=
  Py.contains "500" error_str || Py.contains "503" error_str ||
  Py.contains "Internal Server Error" error_str ||
  Py.contains "Service Unavailable" error_str.

(** The [while retries < max_retries] loop; [fuel] bounds its
    iterations. *)
Fixpoint retry_loop {A} (fuel : nat) (max_retries backoff_factor : Z)
    (func : M world A) (retries : Z) : M world (option A) :=
  match fuel with
  | O => mret None
  | S fuel' =>
      if retries <? max_retries then
        try_except (a ← func; mret (Some a))
          (λ e,
             if is_transient (str e) then
               let retries := retries + 1 in
               if retries >=? max_retries then
                 log_event (Logged ("Max retries reached: " +:+ str e));;
                 raise e
               else
                 let wait_time := backoff_factor ^ retries in
                 log_event (Slept wait_time);;
                 retry_loop fuel' max_retries backoff_factor func retries
             else raise e)
      else mret None
  end.

(** Every iteration that goes round adds one to [retries], so
    [max_retries] iterations are all there can be. *)
Definition retry_on_errors {A} (max_retries backoff_factor : Z)
    (func : M world A) : M world (option A) :=
  retry_loop (Z.to_nat max_retries) max_retries backoff_factor func 0.

(** The file stem of a name: slashes become hyphens, apostrophes become
    spaces, double quotes go, spaces become underscores, and the whole is
    lower-cased, in this order. *)
Definition safe_name (name : string) : string :=
  Py.lower
    (Py.replace " " "_"
      (Py.replace Py.dquote ""
        (Py.replace "'" " "
          (Py.replace "/" "-" name)))).

Section WithServices.
Context (svc : service) (sched : scheduler) (cfg : config).

(** *** [generate_json_with_schema]

    [reply] is the answer of the service for this prompt and [empty]
    the [{}] that the [except] branch returns. *)
Definition generate_json_with_schema {A} (r : request)
    (reply : list event → option A) (empty : A) : M world A :=
  t ← gets trace;
  log_event (Called r);;
  mret (default empty (reply t)).

(** [client.models.generate_content(model=IMAGE_MODEL, ...)] *)
Definition generate_image (r : request)
    (reply : list event → image_reply) : M world image_reply :=
  t ← gets trace;
  log_event (Called r);;
  match reply t with
  | ImageRaises e => raise e
  | other => mret other
  end.

(** *** [generate_single_reference] *)

Definition generate_single_reference (char : character) : M world unit :=
  registry ← gets CHARACTER_IMAGES;
  if bool_decide (is_Some (registry !! name char)) then mret tt
  else
    style ←
      (if negb (String.eqb (style_reference char) "")
          && negb (String.eqb (style_reference char) (name char))
       then
         let finfo := REF_DIR +:+ safe_name (style_reference char) +:+ ".png" in
         fs ← gets files;
         if bool_decide (is_Some (fs !! finfo))
         then img ← Image_open finfo; mret (Some img)
         else mret None
       else mret None);
    let safe := safe_name (name char) in
    write (REF_DIR +:+ safe +:+ ".json") (CharacterJson char);;
    let path := REF_DIR +:+ safe +:+ ".png" in
    try_except
      (resp ← generate_image (ReferenceImage char style)
                 (λ t, reference_reply svc t char style);
       match resp with
       | InlineData img =>
           write path (Png img);;
           modify (set_CHARACTER_IMAGES (insert (name char) path))
       | _ => mret tt
       end)
      (λ e, log_event (Logged ("Reference generation error " +:+ name char
                                 +:+ ": " +:+ str e))).

(** *** [auto_cast_characters] *)

(** [REF_DIR.glob("*.png")]: the files directly under [REF_DIR] whose
    name ends in [.png], as pairs of the stem and the path. *)
Definition glob_png (fs : gmap string content) : list (string * string) :=
  omap (λ entry : string * content,
          let path := entry.1 in
          if Py.startswith path REF_DIR then
            let fname := String.substring (String.length REF_DIR)
                           (String.length path - String.length REF_DIR) path in
            if Py.endswith fname ".png" && negb (Py.contains "/" fname)
            then
              let n := String.length fname in
              Some (if (4 <? n)%nat then Py.take (n - 4) fname else fname,
                    path)
            else None
          else None)
       (map_to_list fs).

Definition load_existing (fs : gmap string content)
    (registry : gmap string string) : gmap string string :=
  foldl (λ reg f, <[Py.title (Py.replace "_" " " f.1) := f.2]> reg)
        registry (glob_png fs).

Definition auto_cast_characters (text : source) : M world unit :=
  fs ← gets files;
  modify (set_CHARACTER_IMAGES (load_existing fs));;
  if negb (reference_characters_enabled cfg) then mret tt
  else
    registry ← gets CHARACTER_IMAGES;
    let existing := (map_to_list registry).*1 in
    new_chars ← generate_json_with_schema (CastingPrompt existing text)
                  (λ t, casting_reply svc t existing text) [];
    if bool_decide (new_chars = []) then mret tt
    else executor_map sched generate_single_reference new_chars.

(** *** [analyze_episodes_master] *)

Definition analyze_episodes_master (text : string) : M world screenplay :=
  generate_json_with_schema (ScreenplayPrompt text)
    (λ t, screenplay_reply svc t text) (Screenplay None).

(** *** [analyze_scenes_for_episode] *)

Definition analyze_scenes_for_episode (x : Z * episode) : M world unit :=
  let '(episode_counter, ep) := x in
  data ← generate_json_with_schema (ScenePrompt episode_counter ep)
           (λ t, scenes_reply svc t episode_counter ep) None;
  modify (set_all_episodes (λ l, l ++ [(episode_counter, data)])).

(** *** [refine_scenes_for_episode] *)

Definition refine_scenes_for_episode (episode_counter scene_counter : Z)
    (draft : scene) : M world (option scenes_doc) :=
  retry_on_errors 3 2
    (acquire;;
     generate_json_with_schema
       (RefinePrompt episode_counter scene_counter draft)
       (λ t, refine_reply svc t episode_counter scene_counter draft) None).

(** *** [apply_reversal_pass] *)

(** [p.get('is_reversed', False)] as a condition *)
Definition is_reversed (p : panel) : bool :=
  truthy (get p "is_reversed" (JBool false)).

(** [{item['panel_index']: item['motion_prompt_reversed'] for item in result}]:
    a later item replaces an earlier one with the same index. *)
Definition reversed_map_of (result : list (Z * string)) : gmap Z string :=
  foldl (λ m item, <[item.1 := item.2]> m) ∅ result.

(** [v in reversed_map] for the value [v] of a panel: an integer key is
    found by an equal integer, and [True] and [False] count as 1 and 0;
    a list cannot be hashed. *)
Definition lookup_index (v : jval) (reversed_map : gmap Z string)
    : M world (option string) :=
  match v with
  | JInt z => mret (reversed_map !! z)
  | JBool b => mret (reversed_map !! (if b then 1 else 0))
  | JNull | JStr _ => mret None
  | JStrs _ => raise TypeError
  end.

(** The body of the loop over the panels of the scene. *)
Definition reverse_panel (reversed_map : gmap Z string) (p : panel)
    : M world panel :=
  if is_reversed p then
    index ← getitem p "panel_index";
    found ← lookup_index index reversed_map;
    match found with
    | Some motion_prompt_reversed =>
        motion_prompt ← getitem p "motion_prompt";
        let p := <["motion_prompt_original" := motion_prompt]> p in
        let p := <["motion_prompt" := JStr motion_prompt_reversed]> p in
        original_start ← getitem p "visual_start";
        original_end ← getitem p "visual_end";
        let p := <["visual_start" := original_end]> p in
        let p := <["visual_end" := original_start]> p in
        mret p
    | None => mret p
    end
  else mret p.

Definition set_panels (ps : list panel) (sc : scene) : scene :=
  Scene (scene_id sc) (location sc) (pre_action_description sc) (Some ps).

Definition apply_reversal_pass (sc : scene) : M world scene :=
  let reversed_panels := filter (λ p, is_reversed p = true) (default [] (panels sc)) in
  if bool_decide (reversed_panels = []) then mret sc
  else
    result ← retry_on_errors 3 2
               (acquire;;
                generate_json_with_schema (ReversalPrompt reversed_panels)
                  (λ t, reversal_reply svc t reversed_panels) []);
    match result with
    | Some (item :: items) =>
        let reversed_map := reversed_map_of (item :: items) in
        match panels sc with
        | Some ps =>
            ps' ← for_list ps (reverse_panel reversed_map);
            mret (set_panels ps' sc)
        | None => mret sc
        end
    | _ =>
        log_event (Logged "Reversal LLM call returned empty result");;
        mret sc
    end.

(** *** [refine_single_scene] *)

(** The loop that numbers the panels from 1 and fills in the defaults. *)
Fixpoint renumber (idx : Z) (ps : list panel) : list panel :=
  match ps with
  | [] => []
  | p :: ps' =>
      let idx := idx + 1 in
      setdefault "motion_prompt_reversed" (JStr "")
        (setdefault "is_reversed" (JBool false)
          (<["panel_index" := JInt idx]> p))
      :: renumber idx ps'
  end.

Definition refined_file (episode_counter : Z) : string :=
  OUTPUT_DIR +:+ "animation_episode_scenes_"
    +:+ Py.format_0d 3 episode_counter +:+ "_refined.json".

Definition refine_single_scene (x : Z * Z * scene) : M world unit :=
  let '(episode_counter, scene_counter, draft) := x in
  refined ← refine_scenes_for_episode episode_counter scene_counter draft;
  match refined with
  | None => raise AttributeError
  | Some doc =>
      match default [] doc with
      | [] => raise IndexError
      | refined_scene :: _ =>
          match panels refined_scene with
          | None => raise (KeyError "panels")
          | Some ps =>
              let refined_scene :=
                Scene (Some scene_counter) (location refined_scene)
                      (pre_action_description refined_scene)
                      (Some (renumber 0 ps)) in
              refined_scene ← apply_reversal_pass refined_scene;
              modify (set_all_scenes (λ l, l ++ [refined_scene]));;
              write (refined_file episode_counter)
                    (ScenesJson (Some [refined_scene]))
          end
      end
  end.

(** *** [analyze_scenes_master] *)

Definition episode_file (episode_counter : Z) : string :=
  OUTPUT_DIR +:+ "animation_episode_scenes_"
    +:+ Py.format_0d 3 episode_counter +:+ ".json".

(** The first loop: the episodes are counted from 1. *)
Fixpoint batch_analyze_from (episode_counter : Z) (eps : list episode)
    : list (Z * episode) :=
  match eps with
  | [] => []
  | ep :: eps' =>
      let episode_counter := episode_counter + 1 in
      (episode_counter, ep) :: batch_analyze_from episode_counter eps'
  end.

(** The inner loop over the scenes of one episode: [scene_counter] runs
    on from one episode to the next. *)
Fixpoint batch_scenes (episode_counter scene_counter : Z) (scs : list scene)
    : Z * list (Z * Z * scene) :=
  match scs with
  | [] => (scene_counter, [])
  | sc :: scs' =>
      let scene_counter := scene_counter + 1 in
      let '(n, rest) := batch_scenes episode_counter scene_counter scs' in
      (n, (episode_counter, scene_counter, sc) :: rest)
  end.

(** The loop over the sorted episodes, which writes each draft and
    collects [batch_refinement]. *)
Fixpoint batch_refinement_from (scene_counter : Z)
    (sorted_episodes : list (Z * scenes_doc))
    : M world (list (Z * Z * scene)) :=
  match sorted_episodes with
  | [] => mret []
  | (episode_counter, data) :: rest =>
      write (episode_file episode_counter) (ScenesJson data);;
      let '(scene_counter, batch) :=
        batch_scenes episode_counter scene_counter (default [] data) in
      batch' ← batch_refinement_from scene_counter rest;
      mret (batch ++ batch')
  end.

(** [s['scene_id']] as a sort key *)
Definition scene_key (s : scene) : Z := default 0 (scene_id s).

Definition analyze_scenes_master (text : string) : M world scenes_doc :=
  sp ← analyze_episodes_master text;
  auto_cast_characters (Dumped sp);;
  write (OUTPUT_DIR +:+ "animation_episodes.json") (ScreenplayJson sp);;
  modify (set_all_scenes (λ _, []));;
  modify (set_all_episodes (λ _, []));;
  match episodes sp with
  | None => raise TypeError
  | Some eps =>
      let batch_analyze := batch_analyze_from 0 eps in
      executor_map sched analyze_scenes_for_episode batch_analyze;;
      collected ← gets all_episodes;
      let sorted_episodes := sorted fst collected in
      batch_refinement ← batch_refinement_from 0 sorted_episodes;
      executor_map sched refine_single_scene batch_refinement;;
      refined ← gets all_scenes;
      for_each refined (λ s, if scene_id s is Some _ then mret tt
                             else raise (KeyError "scene_id"));;
      mret (Some (sorted scene_key refined))
  end.

(** *** [identify_scene_characters] *)

Definition identify_scene_characters (sc : scene) : M world (list string) :=
  generate_json_with_schema (IdentifyPrompt sc)
    (λ t, identify_reply svc t sc) [].

(** *** [generate_combined_grid] *)

(** [panel.get('references', [])], a list of names *)
Definition references (p : panel) : list string :=
  match p !! "references" with
  | Some (JStrs l) => l
  | _ => []
  end.

(** The loop that loads the references: a name counts when it is
    registered and both its image and its description can be read. *)
Definition loadable (fs : gmap string content)
    (registry : gmap string string) (name : string) : bool :=
  match registry !! name with
  | Some path =>
      match fs !! path, fs !! Py.replace ".png" ".json" path with
      | Some (Png _), Some (CharacterJson _) => true
      | _, _ => false
      end
  | None => false
  end.
Definition real_chars (fs : gmap string content)
    (registry : gmap string string) (needed_chars : list string)
    : list string :=
  filter (λ name, loadable fs registry name = true) needed_chars.

Definition grid_file (sid : Z) : string :=
  OUTPUT_DIR +:+ "scene_" +:+ Py.format_0d 3 sid +:+ "_grid_combined.png".

(** The keys that building the prompt reads with [[...]]. *)
Definition read_prompt_keys (sc : scene) : M world unit :=
  match location sc with
  | None => raise (KeyError "location")
  | Some _ =>
      match panels sc with
      | None => raise (KeyError "panels")
      | Some ps => for_each ps (λ p, getitem p "panel_index";; mret tt)
      end
  end.

Definition generate_combined_grid (x : scene * Z) : M world unit :=
  let '(sc, sid) := x in
  let chars := remove_dups (default [] (panels sc) ≫= references) in
  needed_chars ← (if bool_decide (chars = [])
                  then identify_scene_characters sc else mret chars);
  fs ← gets files;
  registry ← gets CHARACTER_IMAGES;
  let loaded := real_chars fs registry needed_chars in
  read_prompt_keys sc;;
  let path_combined := grid_file sid in
  generated ←
    (if bool_decide (is_Some (fs !! path_combined)) then mret true
     else
       try_except
         (resp ← retry_on_errors 3 2
                   (acquire;;
                    generate_image (GridImage sid sc loaded)
                      (λ t, grid_reply svc t sid sc loaded));
          match resp with
          | Some (InlineData img) => write path_combined (Png img);; mret true
          | _ => raise AttributeError
          end)
         (λ e, log_event (Logged ("FAIL Generation: " +:+ str e));;
               mret false));
  if generated && slicing_enabled cfg then
    img ← Image_open path_combined;
    for_each (slice_combined img sid cfg)
      (λ s, write (OUTPUT_DIR +:+ "panels/" +:+ s.1) (Png s.2))
  else mret tt.

(** *** [main] *)

Definition metadata_file : string := OUTPUT_DIR +:+ "animation_metadata.json".

(** [not args.scene or str(args.scene) == str(scene['scene_id']) or
    str(args.scene) == 'ALL'] *)
Definition selected (scene_arg : option string) (sid : Z) : bool :=
  match scene_arg with
  | None => true
  | Some a => String.eqb a "" || String.eqb a (pretty sid) || String.eqb a "ALL"
  end.

Definition main (text : string) (scene_arg : option string) : M world unit :=
  auto_cast_characters (Story text);;
  data ←
    (if bool_decide (scene_arg = None ∨ scene_arg = Some "")
     then analyze_scenes_master text
     else
       fs ← gets files;
       match fs !! metadata_file with
       | Some (ScenesJson d) => mret d
       | Some _ => mret None
       | None => raise (FileNotFoundError metadata_file)
       end);
  match data with
  | None => log_event (Logged "Failed to analyze scenes.")
  | Some scenes =>
      write metadata_file (ScenesJson data);;
      keyed ← for_list scenes
                (λ sc, match scene_id sc with
                       | Some sid => mret (sc, sid)
                       | None => raise (KeyError "scene_id")
                       end);
      let scenes_to_process :=
        filter (λ x, selected scene_arg x.2 = true) keyed in
      if bool_decide (scenes_to_process = []) then mret tt
      else executor_map sched generate_combined_grid scenes_to_process
  end.
End WithServices.
End Preroll.

(** ** [05_grid_quality_gate.py] *)

Module QualityGate.

(** The dual branch: the crops of the top half only. *)
Definition slice_top_half (img : image) (pw ph rows cols : Z) : list image :=
  foldl (fun panels r =>
           foldl (fun panels c => panels ++ [Crop (cell pw ph 0 r c) img])
                 panels (range cols))
        [] (range rows).

(** The inner loop of the single branch, with its [break]. *)
Fixpoint slice_row (img : image) (pw ph panels_count r : Z)
    (cs : list Z) (panels : list image) : list image :=
  match cs with
  | [] => panels
  | c :: cs' =>
      if Z.of_nat (List.length panels) >=? panels_count then panels
      else slice_row img pw ph panels_count r cs'
             (panels ++ [Crop (cell pw ph 0 r c) img])
  end.

Definition slice_grid (img : image) (panels_count : Z) (is_dual : bool)
    : list image :=
  let '(w, h) := image_size img in
  let '(cols, rows) := grid_dims panels_count in
  if is_dual then
    let half_h := h / 2 in
    let pw := w / cols in
    let ph := half_h / rows in
    slice_top_half img pw ph rows cols
  else
    let pw := w / cols in
    let ph := h / rows in
    foldl (fun panels r => slice_row img pw ph panels_count r (range cols) panels)
          [] (range rows).


(** *** The reference catalog of the gate *)

Record ref_entry := RefEntry {
  img_path : option string;
  ref_visual_desc : string;
  ref_video_visual_desc : string;
  ref_type : string
}.

(** [find_ref] *)
Definition find_ref (name : string) (catalog : gmap string ref_entry)
    : option ref_entry :=
  match catalog !! name with
  | Some entry => Some entry
  | None =>
      let norm := Py.replace Py.dquote ""
                    (Py.replace "'" ""
                      (Py.replace "-" "_"
                        (Py.replace " " "_" (Py.lower name)))) in
      match catalog !! norm with
      | Some entry => Some entry
      | None =>
          let title := Py.replace " " "_"
                         (Py.title
                           (Py.replace "_" " " (Py.replace "-" " " name))) in
          catalog !! title
      end
  end.

(** *** [load_ref_catalog] *)

(** A reference file that parses to an object: the keys that the catalog
    reads, with [None] for a key that is missing. The values are strings,
    as [CHARACTER_SCHEMA] has them in the files that casting writes. *)
Record ref_json := RefJson {
  json_name : option string;
  json_visual_desc : option string;
  json_video_visual_desc : option string;
  json_type : option string
}.

(** What [json.loads(json_file.read_text())] makes of a file: it raises,
    or it gives something that is not an object (a list, a number,
    [null]), or it gives an object. *)
Inductive ref_file :=
| BadJson
| NotAnObject
| JsonObject (data : ref_json).

Global Instance ref_json_eq_dec : EqDecision ref_json.
Proof. solve_decision. Defined.
Global Instance ref_file_eq_dec : EqDecision ref_file.
Proof. solve_decision. Defined.

(** [name.lower().replace(" ", "_").replace("-", "_")] *)
Definition catalog_norm (name : string) : string :=
  Py.replace "-" "_" (Py.replace " " "_" (Py.lower name)).

(** The entry built for the object [data] of the file with stem [stem];
    [ref_dir] ends with its separator, and [png_exists] is
    [Path.exists]. The key [json] of an entry, which nothing reads, is
    left out. *)
Definition catalog_entry (ref_dir : string) (png_exists : string → bool)
    (stem : string) (data : ref_json) : ref_entry :=
  let img := ref_dir +:+ stem +:+ ".png" in
  RefEntry (if png_exists img then Some img else None)
           (default "" (json_visual_desc data))
           (default "" (json_video_visual_desc data))
           (default "unknown" (json_type data)).

(** The body of the loop over [ref_dir.glob("*.json")]; the catalog is
    the state. Only [json.loads] is inside the [try]. *)
Definition load_ref_file (ref_dir : string) (png_exists : string → bool)
    (x : string * ref_file) : M (gmap string ref_entry) unit :=
  match x.2 with
  | BadJson => mret tt
  | NotAnObject => raise AttributeError
  | JsonObject data =>
      let name := default x.1 (json_name data) in
      let entry := catalog_entry ref_dir png_exists x.1 data in
      modify (insert name entry);;
      let norm := catalog_norm name in
      if bool_decide (norm ≠ name) then modify (insert norm entry)
      else mret tt
  end.

(** [load_ref_catalog]: [listing] is [None] when [ref_dir] does not
    exist, and else the files that [glob] yields, in its order, each
    with its stem. *)
Definition load_ref_catalog (ref_dir : string)
    (listing : option (list (string * ref_file)))
    (png_exists : string → bool) : result (gmap string ref_entry) :=
  match listing with
  | None => Ok ∅
  | Some files =>
      match for_each files (load_ref_file ref_dir png_exists) ∅ with
      | (Ok _, catalog) => Ok catalog
      | (Raise e, _) => Raise e
      end
  end.

(** *** The scoring service *)

(** What is sent to the scoring service for a panel. *)
Record qa_request := QaRequest {
  qa_scene_id : Z;
  qa_panel_id : jval;
  qa_references : list (string * string * image);
  qa_prev_panels : list (jval * jval);
  qa_visual_desc : jval;
  qa_panel_img : image
}.

(** What comes back: the call raises, [json.loads] raises on the text of
    the answer, or the text parses, to an object or to something else. *)
Inductive qa_outcome :=
| CallRaises (e : exn)
| Unparseable (e : exn)
| ParsedObject (d : gmap string jval)
| ParsedOther.

Record gate := Gate {
  submitted : list qa_request;
  gate_log : list string
}.

Definition submit (r : qa_request) : M gate unit :=
  modify (λ g, Gate (submitted g ++ [r]) (gate_log g)).
Definition log_error (m : string) : M gate unit :=
  modify (λ g, Gate (submitted g) (gate_log g ++ [m])).

(** An index used as a number: an integer, or a boolean counted as 1 or
    0; anything else cannot be compared with an integer. *)
Definition as_int {S} (v : jval) : M S Z :=
  match v with
  | JInt z => mret z
  | JBool b => mret (if b then 1 else 0)
  | _ => raise TypeError
  end.

(** [panel_meta.get('references', [])], a list of names *)
Definition references (p : panel) : list string :=
  match p !! "references" with
  | Some (JStrs l) => l
  | _ => []
  end.

Section WithScoring.
Context (qa_reply : list qa_request → qa_request → qa_outcome)
        (images : gmap string image)
        (MAX_REFS_PER_PANEL : nat).

(** The loop over [ref_names[:MAX_REFS_PER_PANEL]]: a reference is
    loaded when it is found, has an image path, and the image opens. *)
Definition load_refs (ref_names : list string)
    (ref_catalog : gmap string ref_entry) : list (string * string * image) :=
  omap (λ rname,
          ref ← find_ref rname ref_catalog;
          path ← img_path ref;
          rimg ← images !! path;
          let desc := if String.eqb (ref_video_visual_desc ref) ""
                      then ref_visual_desc ref
                      else ref_video_visual_desc ref in
          Some (rname, desc, rimg))
       (take MAX_REFS_PER_PANEL ref_names).

(** The description that is compared with the image. *)
Definition visual_desc_of (panel_meta : panel) : jval :=
  let visual_desc := get panel_meta "visual_start" (JStr "") in
  if truthy visual_desc then visual_desc
  else get panel_meta "visual_end" (JStr "").

(** The directive that stands in for a failed call. *)
Definition api_error_directive (e : exn) : gmap string jval :=
  <["fidelity" := JInt 0]>
  (<["character_consistency" := JInt 0]>
  (<["composition_match" := JInt 0]>
  (<["artifacts" := JStrs ["API_ERROR: " +:+ Py.take 200 (str e)]]>
  (<["needs_refinement" := JBool true]>
  (<["refinement_prompt" := JStr "API call failed, manual review required."]>
  (<["reasoning" := JStr ("Error: " +:+ str e)]> ∅)))))).

(** [analyze_panel] *)
Definition analyze_panel (panel_img : image) (panel_meta : panel)
    (scene_meta : scene) (ref_catalog : gmap string ref_entry)
    (scene_id : Z) (panel_id : jval) : M gate (gmap string jval) :=
  let ref_names := references panel_meta in
  let loaded := load_refs ref_names ref_catalog in
  let visual_desc := visual_desc_of panel_meta in
  prev_panels ←
    match panels scene_meta with
    | None => raise TypeError
    | Some ps =>
        for_list ps (λ p,
          index ← getitem p "panel_index";
          own_index ← getitem panel_meta "panel_index";
          i ← as_int index;
          j ← as_int own_index;
          if i <? j then
            visual_end ← getitem p "visual_end";
            mret [(index, visual_end)]
          else mret [])
    end;
  let request := QaRequest scene_id panel_id loaded (concat prev_panels)
                   visual_desc panel_img in
  history ← gets submitted;
  submit request;;
  result ←
    match qa_reply history request with
    | ParsedObject d => mret (Some d)
    | ParsedOther => mret None
    | CallRaises e | Unparseable e =>
        log_error ("Gemini error: " +:+ str e);;
        mret (Some (api_error_directive e))
    end;
  match result with
  | None => raise TypeError
  | Some result =>
      mret (<["references_loaded" := JStrs (loaded.*1.*1)]>
           (<["references_expected" := JStrs ref_names]>
           (<["panel_id" := panel_id]>
           (<["scene_id" := JInt scene_id]> result))))
  end.

(** [process_scene] *)

Definition grid_file (sid : Z) : string :=
  "cinematic_render/scene_" +:+ Py.format_0d 3 sid +:+ "_grid_combined.png".

(** The lines that log a result read four of its keys, and slice its
    artifacts when there are any. *)
Definition log_result (result : gmap string jval) : M gate unit :=
  getitem result "fidelity";;
  getitem result "character_consistency";;
  getitem result "needs_refinement";;
  artifacts ← getitem result "artifacts";
  match artifacts with
  | JInt z => if z =? 0 then mret tt else raise TypeError
  | JBool true => raise TypeError
  | _ => mret tt
  end.

(** The body of the loop over the sorted panels; it returns the result
    that is appended, if any. *)
Definition process_panel (sc : scene) (sid : Z)
    (ref_catalog : gmap string ref_entry) (panel_images : list image)
    (panel_filter : option (list Z)) (panel_meta : panel)
    : M gate (list (gmap string jval)) :=
  pid ← getitem panel_meta "panel_index";
  n ← as_int pid;
  let filtered :=
    match panel_filter with
    | Some (x :: l) => negb (bool_decide (n ∈ x :: l))
    | _ => false
    end in
  if filtered then mret []
  else if (n <? 1) || (n >? Z.of_nat (length panel_images)) then mret []
  else
    match panel_images !! Z.to_nat (n - 1) with
    | None => raise IndexError
    | Some panel_img =>
        result ← analyze_panel panel_img panel_meta sc ref_catalog sid pid;
        log_result result;;
        mret [result]
    end.

Definition process_scene (sc : scene) (ref_catalog : gmap string ref_entry)
    (grid_format : string) (panels_per_scene : Z)
    (panel_filter : option (list Z)) : M gate (list (gmap string jval)) :=
  match scene_id sc with
  | None => raise (KeyError "scene_id")
  | Some sid =>
      match images !! grid_file sid with
      | None => mret []
      | Some img =>
          let is_dual := Py.contains "dual" grid_format in
          let panel_images := slice_grid img panels_per_scene is_dual in
          keys ← for_list (default [] (panels sc))
                   (λ p, v ← getitem p "panel_index"; as_int v);
          let ps := (sorted fst (zip keys (default [] (panels sc)))).*2 in
          results ← for_list ps
                      (process_panel sc sid ref_catalog panel_images panel_filter);
          mret (concat results)
      end
  end.

End WithScoring.
End QualityGate.

(** * The vocabulary of the statements *)

Import Preroll.

(** Numbering the elements of a list from [idx] on, as the counter [idx]
    of the slicing loops does. *)
Fixpoint number_from {A} (idx : Z) (l : list A) : list (Z * A) :=
  match l with
  | [] => []
  | x :: l' => (idx, x) :: number_from (idx + 1) l'
  end.

(** The file saved for the cell numbered [x.1] at row [x.2.1], column [x.2.2]. *)
Definition named_crop (img : image) (sid pw ph off : Z) (role : string)
    (x : Z * (Z * Z)) : string * image :=
  (panel_file sid x.1 role, Crop (cell pw ph off x.2.1 x.2.2) img).

Section GateVocabulary.
Context (images : gmap string image) (MAX_REFS_PER_PANEL : nat).
Import QualityGate.

(** The list of earlier panels that [analyze_panel] builds. *)
Definition prev_panels_of (panel_meta : panel) (scene_meta : scene)
    : M gate (list (list (jval * jval))) :=
  match panels scene_meta with
  | None => raise TypeError
  | Some ps =>
      for_list ps (λ p,
        index ← getitem p "panel_index";
        own_index ← getitem panel_meta "panel_index";
        i ← as_int index;
        j ← as_int own_index;
        if i <? j then
          visual_end ← getitem p "visual_end";
          mret [(index, visual_end)]
        else mret [])
  end.

(** What [analyze_panel] sends for a panel. *)
Definition request_of (panel_img : image) (panel_meta : panel)
    (ref_catalog : gmap string ref_entry) (sid : Z) (pid : jval)
    (prev : list (list (jval * jval))) : qa_request :=
  QaRequest sid pid
    (load_refs images MAX_REFS_PER_PANEL (references panel_meta) ref_catalog)
    (concat prev) (visual_desc_of panel_meta) panel_img.

(** The result of [analyze_panel] for a reply. *)
Definition directive_of (panel_meta : panel)
    (ref_catalog : gmap string ref_entry) (sid : Z) (pid : jval)
    (result : gmap string jval) : gmap string jval :=
  <["references_loaded" :=
      JStrs ((load_refs images MAX_REFS_PER_PANEL (references panel_meta)
                ref_catalog).*1.*1)]>
  (<["references_expected" := JStrs (references panel_meta)]>
  (<["panel_id" := pid]>
  (<["scene_id" := JInt sid]> result))).

End GateVocabulary.

(** A directive as pessimistic as can be: to be refined, all scores zero,
    and one artifact that carries the marker of a failed call. *)
Definition pessimistic (d : gmap string jval) : Prop :=
  d !! "needs_refinement" = Some (JBool true) ∧
  d !! "fidelity" = Some (JInt 0) ∧
  d !! "character_consistency" = Some (JInt 0) ∧
  d !! "composition_match" = Some (JInt 0) ∧
  ∃ marker, d !! "artifacts" = Some (JStrs [marker]) ∧
            Py.contains "API_ERROR" marker = true.

(** The scoring service fails on a reply. *)
Definition qa_fails (o : QualityGate.qa_outcome) : Prop :=
  ∃ e, o = QualityGate.CallRaises e ∨ o = QualityGate.Unparseable e.

(** Two directives for the same panel, one from a run in which the scoring
    of panel [pid] fails: the panel is the same, the directive of another
    panel is untouched, and the directive of panel [pid] is pessimistic. *)
Definition failing_for (pid : jval) (d d' : gmap string jval) : Prop :=
  d' !! "panel_id" = d !! "panel_id" ∧
  (d !! "panel_id" ≠ Some pid → d' = d) ∧
  (d !! "panel_id" = Some pid → pessimistic d').

(** A directive whose scores are in range and whose refinement prompt is
    empty when no refinement is needed. *)
Definition score_in_range (d : gmap string jval) (k : string) : Prop :=
  ∃ z, d !! k = Some (JInt z) ∧ 0 ≤ z ≤ 10.

Definition valid_directive (d : gmap string jval) : Prop :=
  score_in_range d "fidelity" ∧
  score_in_range d "character_consistency" ∧
  score_in_range d "composition_match" ∧
  (d !! "needs_refinement" = Some (JBool false) →
   d !! "refinement_prompt" = Some (JStr "")).

(** The keys of a directive that the scoring service fills in. *)
Definition scored_keys : list string :=
  ["fidelity"; "character_consistency"; "composition_match"; "artifacts";
   "needs_refinement"; "refinement_prompt"; "reasoning"].

(** The world just before attempt number [k] (counted from 0) of a wrapped
    call whose earlier attempts all failed: each failed attempt is followed
    by a sleep of [backoff_factor ^ k] seconds, [k] the number of failures
    so far. *)
Fixpoint world_before {A} (backoff_factor : Z) (func : M world A)
    (w : world) (k : nat) : world :=
  match k with
  | O => w
  | S k' =>
      set_trace (λ t, t ++ [Slept (backoff_factor ^ Z.of_nat (S k'))])
                (func (world_before backoff_factor func w k')).2
  end.

Definition logged_max_retries (e : exn) (w : world) : world :=
  set_trace (λ t, t ++ [Logged ("Max retries reached: " +:+ str e)]) w.

(** What a run of [slice_combined] leaves on disk. *)
Definition save_all (slices : saves) (fs : gmap string content)
    : gmap string content :=
  foldl (λ m s, <[OUTPUT_DIR +:+ "panels/" +:+ s.1 := Png s.2]> m) fs slices.

(** The names that the panels of a scene list as references. *)
Definition listed_references (sc : scene) : list string :=
  remove_dups (default [] (panels sc) ≫= references).

(** The events of a run that call an image service. *)
Definition image_calls (t : list event) : list request :=
  omap (λ e, match e with
             | Called r => if is_image_request r then Some r else None
             | _ => None
             end) t.

(** All the calls of a run. *)
Definition calls (t : list event) : list request :=
  omap (λ e, match e with Called r => Some r | _ => None end) t.

(** The files of two worlds agree outside of the paths in [P]. *)
Definition files_agree_outside (P : string → Prop) (w w' : world) : Prop :=
  ∀ p, ¬ P p → files w' !! p = files w !! p.

(** The two files of the catalog entry of a name. *)
Definition entry_paths (n : string) (p : string) : Prop :=
  p = REF_DIR +:+ safe_name n +:+ ".json" ∨
  p = REF_DIR +:+ safe_name n +:+ ".png".

(** A panel that has the keys the reversal pass reads, with an integer
    for its index. *)
Definition reversible (p : panel) : Prop :=
  (∃ i, p !! "panel_index" = Some (JInt i)) ∧
  is_Some (p !! "visual_start") ∧ is_Some (p !! "visual_end") ∧
  is_Some (p !! "motion_prompt").

(** The panels of a scene that are flagged as reversed. *)
Definition reversed_panels (sc : scene) : list panel :=
  filter (λ p, is_reversed p = true) (default [] (panels sc)).

(** The list that the service returns to the reversal pass of a scene that
    starts in world [w]. *)
Definition reversal_answer (svc : service) (w : world) (sc : scene)
    : list (Z * string) :=
  default [] (reversal_reply svc (trace w) (reversed_panels sc)).

(** What the loop of the reversal pass makes of a panel. *)
Definition swapped (reversed_map : gmap Z string) (p : panel) : panel :=
  if is_reversed p then
    match p !! "panel_index" with
    | Some (JInt i) =>
        match reversed_map !! i, p !! "motion_prompt",
              p !! "visual_start", p !! "visual_end" with
        | Some txt, Some motion_prompt, Some original_start, Some original_end =>
            <["visual_end" := original_start]>
            (<["visual_start" := original_end]>
            (<["motion_prompt" := JStr txt]>
            (<["motion_prompt_original" := motion_prompt]> p)))
        | _, _, _, _ => p
        end
    | _ => p
    end
  else p.

(** A panel with the descriptions and the motion prompt that the schema
    of a scene requires. *)
Definition schema_panel (p : panel) : Prop :=
  is_Some (p !! "visual_start") ∧ is_Some (p !! "visual_end") ∧
  is_Some (p !! "motion_prompt").

(** Every refinement call comes back with a scene of such panels. *)
Definition refinements_succeed (svc : service) : Prop :=
  ∀ t episode_counter scene_counter draft,
    ∃ refined rest ps,
      refine_reply svc t episode_counter scene_counter draft
        = Some (Some (refined :: rest))
      ∧ panels refined = Some ps ∧ Forall schema_panel ps.

(** The scene number of an entry of [batch_refinement]. *)
Definition scene_counter_of (x : Z * Z * scene) : Z := x.1.2.

(** The scene ids of the merged output of the master analysis. *)
Definition merged_ids (r : result scenes_doc) : option (list (option Z)) :=
  match r with
  | Ok (Some scenes) => Some (scene_id <$> scenes)
  | _ => None
  end.

(** The messages that a run logged. *)
Definition logged (t : list event) : list string :=
  omap (λ e, match e with Logged m => Some m | _ => None end) t.

(** ** The vocabulary of the further properties *)

(** *** Slicing, a cell at a time *)

(** One round of the loops of the single grid on a cell: a save, and
    nothing once [idx] has passed the panel count. *)
Definition single_step (img : image) (sid pw ph panels : Z)
    (st : Z * saves) (rc : Z * Z) : Z * saves :=
  if st.1 >? panels then st
  else (st.1 + 1,
        st.2 ++ [(panel_file sid st.1 "static", Crop (cell pw ph 0 rc.1 rc.2) img)]).

Definition gate_step (img : image) (pw ph panels_count : Z)
    (panels : list image) (rc : Z * Z) : list image :=
  if Z.of_nat (length panels) >=? panels_count then panels
  else panels ++ [Crop (cell pw ph 0 rc.1 rc.2) img].

(** *** Strings, a character at a time *)

Fixpoint smap (f : ascii → ascii) (s : string) : string :=
  match s with
  | EmptyString => EmptyString
  | String c s' => String (f c) (smap f s')
  end.

Definition norm_char (c : ascii) : ascii :=
  let c' := Py.lower_char c in
  if Ascii.eqb "-" (if Ascii.eqb " " c' then "_" else c') then "_"%char
  else if Ascii.eqb " " c' then "_"%char else c'.

(** Every character of a string satisfies [P]. *)
Fixpoint sall (P : ascii → bool) (s : string) : bool :=
  match s with
  | EmptyString => true
  | String c s' => P c && sall P s'
  end.

(** A character that the file stem keeps apart: no slash, no quote, no
    underscore. *)
Definition plain_char (c : ascii) : bool :=
  negb (Ascii.eqb c "/" || Ascii.eqb c "'" || Ascii.eqb c "034"
        || Ascii.eqb c "_").

(** *** The catalog and the directives of the gate *)

Section FurtherGateVocabulary.
Context (images : gmap string image).
Import QualityGate.

(** The object files of a listing, with their stems. *)
Definition objects (files : list (string * ref_file)) : list (string * ref_json) :=
  omap (λ x, match x.2 with JsonObject d => Some (x.1, d) | _ => None end) files.

(** [data.get("name", json_file.stem)] *)
Definition ref_name (x : string * ref_json) : string := default x.1 (json_name x.2).

(** What the loop of [load_ref_catalog] does to the catalog for a file. *)
Definition catalog_step (ref_dir : string) (png_exists : string → bool)
    (c : gmap string ref_entry) (x : string * ref_file) : gmap string ref_entry :=
  match x.2 with
  | JsonObject d =>
      <[catalog_norm (ref_name (x.1, d)) := catalog_entry ref_dir png_exists x.1 d]>
      (<[ref_name (x.1, d) := catalog_entry ref_dir png_exists x.1 d]> c)
  | _ => c
  end.

(** The normalisation that [find_ref] applies to the name it looks for. *)
Definition query_norm (name : string) : string :=
  Py.replace Py.dquote "" (Py.replace "'" "" (catalog_norm name)).

(** The Title Case form that [find_ref] tries last. *)
Definition title_norm (name : string) : string :=
  Py.replace " " "_" (Py.title (Py.replace "_" " " (Py.replace "-" " " name))).

(** A panel index as a number, when it is one. *)
Definition index_of (v : jval) : option Z :=
  match v with
  | JInt z => Some z
  | JBool b => Some (if b then 1 else 0)
  | _ => None
  end.

(** The number under which a directive is filed. *)
Definition panel_number (d : gmap string jval) : Z :=
  default 0 (d !! "panel_id" ≫= index_of).

(** The number of an index, 0 when it is none. *)
Definition index_number (v : jval) : Z := default 0 (index_of v).

(** The entry of a panel in the context of the panel with index [j]. *)
Definition earlier_panel (j : Z) (p : panel) : option (jval * jval) :=
  match p !! "panel_index" with
  | Some v =>
      if index_number v <? j then
        match p !! "visual_end" with
        | Some e => Some (v, e)
        | None => None
        end
      else None
  | None => None
  end.
Definition earlier_panels (j : Z) (ps : list panel) : list (jval * jval) :=
  omap (earlier_panel j) ps.

(** A non-empty [--panel] filter lets the number through; no filter, or
    an empty one, lets every number through. *)
Definition passes (panel_filter : option (list Z)) (n : Z) : Prop :=
  match panel_filter with
  | Some (x :: l) => n ∈ x :: l
  | _ => True
  end.

(** A name whose reference is found, has an image path, and whose image
    opens. *)
Definition ref_loads (cat : gmap string ref_entry) (rname : string) : bool :=
  match find_ref rname cat with
  | Some ref =>
      match img_path ref with
      | Some path => bool_decide (is_Some (images !! path))
      | None => false
      end
  | None => false
  end.

End FurtherGateVocabulary.

(** *** Rendering, casting and the main script *)

(** The world in which [generate_combined_grid] builds its prompt: the
    identification prompt has been sent when no panel lists a reference. *)
Definition identified (sc : scene) (w : world) : world :=
  if bool_decide (listed_references sc = []) then
    set_trace (λ t, t ++ [Called (IdentifyPrompt sc)]) w
  else w.

(** The references that go with the image prompt of a scene. *)
Definition loaded_references (svc : service) (sc : scene) (w : world)
    : list string :=
  real_chars (files w) (CHARACTER_IMAGES w)
    (if bool_decide (listed_references sc = [])
     then default [] (identify_reply svc (trace w) sc)
     else listed_references sc).

(** The call of the image service behind its retry wrapper, and what is
    done with the answer. *)
Definition render (svc : service) (sc : scene) (sid : Z) (loaded : list string)
    : M world bool :=
  resp ← retry_on_errors 3 2
            (acquire;;
             generate_image (GridImage sid sc loaded)
               (λ t, grid_reply svc t sid sc loaded));
  match resp with
  | Some (InlineData img) => write (grid_file sid) (Png img);; mret true
  | _ => raise AttributeError
  end.

(** Two worlds with the same files and the same registry. *)
Definition same_disk (w w' : world) : Prop :=
  files w' = files w ∧ CHARACTER_IMAGES w' = CHARACTER_IMAGES w.

Definition descriptor_path (char : character) : string :=
  REF_DIR +:+ safe_name (name char) +:+ ".json".
Definition portrait_path (char : character) : string :=
  REF_DIR +:+ safe_name (name char) +:+ ".png".
Definition style_path (char : character) : string :=
  REF_DIR +:+ safe_name (style_reference char) +:+ ".png".

(** The image that goes with the prompt as the style reference. *)
Definition style_image (w : world) (char : character) : option image :=
  if negb (String.eqb (style_reference char) "")
     && negb (String.eqb (style_reference char) (name char))
  then match files w !! style_path char with
       | Some (Png i) => Some i
       | _ => None
       end
  else None.

(** A path under the directory of the references. *)
Definition under_ref_dir (p : string) : Prop := String.prefix REF_DIR p = true.

(** The prompts of the analysis: screenplay, scenes, refinement, reversal. *)
Definition is_analysis (r : request) : bool :=
  match r with
  | ScreenplayPrompt _ | ScenePrompt _ _ | RefinePrompt _ _ _
  | ReversalPrompt _ => true
  | _ => false
  end.

(** A run that sends no prompt of the analysis. *)
Definition without_analysis (w w' : world) : Prop :=
  ∃ t, trace w' = trace w ++ t
       ∧ Forall (λ e, ∀ r, e = Called r → is_analysis r = false) t.

(** A run that leaves the metadata file as it is. *)
Definition keeps_metadata (w w' : world) : Prop :=
  files w' !! metadata_file = files w !! metadata_file.

(** Every identity of the registry has its file on disk. *)
Definition registry_on_disk (w : world) : Prop :=
  ∀ n p, CHARACTER_IMAGES w !! n = Some p → is_Some (files w !! p).

(** A run that removes no file, and after which the registry is on disk
    if it was before. *)
Definition grows_on_disk (w w' : world) : Prop :=
  (∀ p, is_Some (files w !! p) → is_Some (files w' !! p))
  ∧ (registry_on_disk w → registry_on_disk w').

(** ** Worked examples

    The data of the scenarios that the statements are tried on. *)

Module Example.

(** Tasks complete in the order of submission, or in the reverse order. *)
Definition fifo : scheduler := Scheduler (λ T l, l).
Definition lifo : scheduler := Scheduler (λ T l, reverse l).

(** A fresh process on an empty disk. *)
Definition fresh : world := World ∅ ∅ [] [] [].

Definition eckels : character :=
  Character "Eckels" "Character" "a hunter in his forties" "a hunter" "Eckels".
Definition time_machine : character :=
  Character "Time Machine" "Object" "a machine of brass" "a machine" "Eckels".

(** The two panels of the scenario of the reverse reveal. *)
Definition plain_panel : panel :=
  <["panel_index" := JInt 1]>
  (<["visual_start" := JStr "jungle"]>
  (<["visual_end" := JStr "path"]>
  (<["motion_prompt" := JStr "camera pans"]>
  (<["is_reversed" := JBool false]> ∅)))).
Definition fog_panel : panel :=
  <["panel_index" := JInt 2]>
  (<["visual_start" := JStr "fog"]>
  (<["visual_end" := JStr "man revealed"]>
  (<["motion_prompt" := JStr "fog clears"]>
  (<["is_reversed" := JBool true]> ∅)))).
Definition fog_scene : scene :=
  Scene (Some 1) (Some "jungle") None (Some [plain_panel; fog_panel]).

(** A scene that lists a reference, and one that lists none. *)
Definition cast_panel : panel :=
  <["references" := JStrs ["Eckels"]]> plain_panel.
Definition cast_scene : scene :=
  Scene (Some 1) (Some "jungle") None (Some [cast_panel]).
Definition bare_scene : scene :=
  Scene (Some 1) (Some "jungle") None (Some [plain_panel]).

(** A service that answers every call; the refinement of the scene
    numbered [failing] fails. *)
Definition studio (failing : Z) (eps : option (list episode)) : service :=
  Service
    (λ _ _ _, Some [eckels])
    (λ _ _, Some (Screenplay eps))
    (λ _ episode_counter _,
       Some (Some (if episode_counter =? 1 then [bare_scene; bare_scene]
                   else [bare_scene])))
    (λ _ _ scene_counter _,
       if scene_counter =? failing then None else Some (Some [fog_scene]))
    (λ _ _, Some [(2, "fog forms over 3s")])
    (λ _ _, Some [])
    (λ _ _ _, InlineData (Raster 1 768 1024))
    (λ _ _ _ _, InlineData (Raster 2 1200 1200)).

(** A service whose image calls are always refused as unavailable. *)
Definition unavailable : exn := ServiceError "503 Service Unavailable".
Definition overloaded (eps : option (list episode)) : service :=
  Service
    (casting_reply (studio 0 eps)) (screenplay_reply (studio 0 eps))
    (scenes_reply (studio 0 eps)) (refine_reply (studio 0 eps))
    (reversal_reply (studio 0 eps)) (identify_reply (studio 0 eps))
    (λ _ _ _, ImageRaises unavailable)
    (λ _ _ _ _, ImageRaises unavailable).

Definition single_grid : config := Config "single_grid_animation" 9 true true true.
Definition dual_grid : config := Config "dual_grid_animation" 9 true true true.

(** A disk on which Eckels is cast and the grid of scene 1 is rendered. *)
Definition rendered : world :=
  World (<[grid_file 1 := Png (Raster 2 1200 1200)]>
         (<[REF_DIR +:+ "eckels.png" := Png (Raster 1 768 1024)]>
         (<[REF_DIR +:+ "eckels.json" := CharacterJson eckels]> ∅)))
        ∅ [] [] [].

(** The same disk, in a process that has Eckels in its registry. *)
Definition registered : world :=
  World (files rendered) {[ "Eckels" := REF_DIR +:+ "eckels.png" ]} [] [] [].

(** Registering Eckels, and then eckels with a space after it. *)
Definition twice_cast (svc : service) : result unit * world :=
  (generate_single_reference svc eckels;;
   generate_single_reference svc
     (Character "eckels " "Character" "a hunter" "a hunter" "eckels "))
    fresh.

(** The gate: five panels, a grid of 1200 by 1200. *)
Definition gate_panel (i : Z) : panel :=
  <["panel_index" := JInt i]>
  (<["visual_start" := JStr "start"]>
  (<["visual_end" := JStr "end"]> ∅)).
Definition gate_scene : scene :=
  Scene (Some 1) (Some "jungle") None
        (Some (gate_panel <$> [1; 2; 3; 4; 5])).
Definition gate_images : gmap string image :=
  {[QualityGate.grid_file 1 := Raster 2 1200 1200]}.
Definition dual_gate_images : gmap string image :=
  {[QualityGate.grid_file 1 := Raster 2 1200 1000]}.

Definition good_answer : gmap string jval :=
  <["fidelity" := JInt 8]>
  (<["character_consistency" := JInt 7]>
  (<["composition_match" := JInt 9]>
  (<["artifacts" := JStrs []]>
  (<["needs_refinement" := JBool false]>
  (<["refinement_prompt" := JStr ""]>
  (<["reasoning" := JStr "matches"]> ∅)))))).

(** An answer with a score above ten and a prompt that should be empty. *)
Definition wild_answer : gmap string jval :=
  <["fidelity" := JInt 11]>
  (<["refinement_prompt" := JStr "sharpen the face"]> good_answer).

Definition scoring (answer : gmap string jval)
    : list QualityGate.qa_request → QualityGate.qa_request
      → QualityGate.qa_outcome :=
  λ _ _, QualityGate.ParsedObject answer.

(** The answer for panel 3 does not parse. *)
Definition scoring_but_3
    : list QualityGate.qa_request → QualityGate.qa_request
      → QualityGate.qa_outcome :=
  λ _ req,
    if bool_decide (QualityGate.qa_panel_id req = JInt 3)
    then QualityGate.Unparseable (ServiceError "Expecting value")
    else QualityGate.ParsedObject good_answer.

Definition idle : QualityGate.gate := QualityGate.Gate [] [].

End Example.

(** The data of the scenarios of the further properties. *)

Module Further.
Import Example.

(** Five panels to a scene: a grid of three columns and two rows. *)
Definition five_single : config := Config "single_grid_animation" 5 true true true.
Definition five_dual : config := Config "dual_grid_animation" 5 true true true.

(** A directory of references with one file that parses, one that does
    not, and the catalog entry of the first. *)
Definition time_machine_json : QualityGate.ref_json :=
  QualityGate.RefJson (Some "Time Machine") (Some "a machine of brass")
    (Some "a machine") (Some "Object").
Definition shelf : list (string * QualityGate.ref_file) :=
  [("time_machine", QualityGate.JsonObject time_machine_json);
   ("broken", QualityGate.BadJson)].
Definition on_shelf (path : string) : bool :=
  String.eqb path "ref_thriller/time_machine.png".

(** The gate with Eckels in its catalog, and a panel that expects Eckels
    and somebody who is not there. *)
Definition gate_catalog : gmap string QualityGate.ref_entry :=
  {[ "Eckels" := QualityGate.RefEntry (Some "ref_thriller/eckels.png")
                   "a hunter in his forties" "a hunter" "Character" ]}.
Definition cast_gate_images : gmap string image :=
  <["ref_thriller/eckels.png" := Raster 1 768 1024]> gate_images.
Definition cast_gate_panel : panel :=
  <["references" := JStrs ["Eckels"; "Ghost"]]> (gate_panel 1).
Definition cast_gate_scene : scene :=
  Scene (Some 1) (Some "jungle") None (Some [cast_gate_panel]).

(** A scene that has lost its location. *)
Definition nowhere_scene : scene :=
  Scene (Some 1) None None (Some [plain_panel]).

(** A service whose every refinement comes back with the scene of the
    fog. *)
Definition steady (eps : option (list episode)) : service :=
  Service
    (casting_reply (studio 0 eps)) (screenplay_reply (studio 0 eps))
    (scenes_reply (studio 0 eps))
    (λ _ _ _ _, Some (Some [fog_scene]))
    (reversal_reply (studio 0 eps)) (identify_reply (studio 0 eps))
    (reference_reply (studio 0 eps)) (grid_reply (studio 0 eps)).

End Further.


(** * Proofs *)

(** ** Grid geometry *)

Lemma number_from_app {A} (l1 l2 : list A) idx :
  number_from idx (l1 ++ l2) =
  number_from idx l1 ++ number_from (idx + Z.of_nat (length l1)) l2.
Proof.
  revert idx; induction l1 as [|x l1 IH]; intros idx; simpl.
  - by rewrite Z.add_0_r.
  - rewrite IH. do 3 f_equal. lia.
Qed.

Lemma length_number_from {A} (l : list A) idx :
  length (number_from idx l) = length l.
Proof. revert idx; induction l; intros; simpl; auto. Qed.

Lemma number_from_lookup {A} (l : list A) idx k i x :
  number_from idx l !! k = Some (i, x) ↔ i = idx + Z.of_nat k ∧ l !! k = Some x.
Proof.
  revert idx k; induction l as [|y l IH]; intros idx k; simpl.
  - rewrite !lookup_nil. split; [done|intros [_ ?]; done].
  - destruct k as [|k]; simpl.
    + split; [intros [= <- <-]; split; [lia|done] | intros [-> [= ->]]; f_equal; f_equal; lia].
    + rewrite IH. split; intros [-> ?]; split; auto; lia.
Qed.

Lemma cells_elem rows cols r c :
  (r, c) ∈ cells rows cols ↔ (0 ≤ r < rows) ∧ (0 ≤ c < cols).
Proof.
  unfold cells, range. rewrite list_elem_of_bind.
  split.
  - intros (r' & Hin & Hr). apply list_elem_of_bind in Hin as (c' & Hc' & Hc).
    apply list_elem_of_singleton in Hc'. simplify_eq.
    apply elem_of_seqZ in Hr. apply elem_of_seqZ in Hc. lia.
  - intros [Hr Hc]. exists r. split; [|apply elem_of_seqZ; lia].
    apply list_elem_of_bind. exists c. split; [by apply list_elem_of_singleton|apply elem_of_seqZ; lia].
Qed.

Lemma length_cells rows cols :
  length (cells rows cols) = (Z.to_nat rows * Z.to_nat cols)%nat.
Proof.
  unfold cells, range.
  assert (Hin : ∀ r : Z, length (c ← seqZ 0 cols; [(r, c)]) = Z.to_nat cols).
  { intros r. generalize (seqZ 0 cols) (length_seqZ 0 cols).
    intros l <-. induction l; simpl; auto. }
  rewrite <- (length_seqZ 0 rows).
  induction (seqZ 0 rows) as [|r rs IH]; [done|].
  rewrite bind_cons, length_app, Hin, IH. done.
Qed.

Lemma slice_half_row img sid pw ph off role r cs idx out :
  foldl (fun (st : Z * saves) c =>
           let '(idx, out) := st in
           (idx + 1,
            out ++ [(panel_file sid idx role, Crop (cell pw ph off r c) img)]))
        (idx, out) cs
  = (idx + Z.of_nat (length cs),
     out ++ (named_crop img sid pw ph off role
               <$> number_from idx (cs ≫= λ c, [(r, c)]))).
Proof.
  revert idx out; induction cs as [|c cs IH]; intros idx out.
  - simpl. by rewrite Z.add_0_r, app_nil_r.
  - cbn [foldl]. rewrite IH, bind_cons. cbn [app number_from fmap list_fmap].
    apply pair_equal_spec; split; [simpl length; lia | by rewrite <- app_assoc].
Qed.

Lemma length_bind_pair (r : Z) (cs : list Z) :
  length (cs ≫= λ c, [(r, c)]) = length cs.
Proof. induction cs as [|c cs IH]; [done|]. rewrite bind_cons. simpl. by rewrite IH. Qed.

Lemma slice_half_rows img sid pw ph off role cols rs idx out :
  snd (foldl (fun st r =>
         foldl (fun (st : Z * saves) c =>
                  let '(idx, out) := st in
                  (idx + 1,
                   out ++ [(panel_file sid idx role,
                            Crop (cell pw ph off r c) img)]))
               st (range cols))
       (idx, out) rs)
  = out ++ (named_crop img sid pw ph off role
              <$> number_from idx (rs ≫= λ r, range cols ≫= λ c, [(r, c)])).
Proof.
  revert idx out; induction rs as [|r rs IH]; intros idx out.
  - simpl. by rewrite app_nil_r.
  - cbn [foldl]. rewrite slice_half_row, IH, bind_cons, number_from_app.
    rewrite fmap_app, app_assoc, length_bind_pair. done.
Qed.

Lemma slice_half_closed img sid pw ph off rows cols role :
  slice_half img sid pw ph off rows cols role
  = named_crop img sid pw ph off role <$> number_from 1 (cells rows cols).
Proof. unfold slice_half. by rewrite slice_half_rows. Qed.

Lemma slice_top_half_rows img pw ph cols rs (out : list image) :
  foldl (fun panels r =>
           foldl (fun panels c => panels ++ [Crop (cell pw ph 0 r c) img])
                 panels (range cols))
        out rs
  = out ++ ((λ rc : Z * Z, Crop (cell pw ph 0 rc.1 rc.2) img)
              <$> (rs ≫= λ r, range cols ≫= λ c, [(r, c)])).
Proof.
  set (g := λ rc : Z * Z, Crop (cell pw ph 0 rc.1 rc.2) img).
  assert (Hrow : ∀ r cs (out : list image),
            foldl (λ panels c, panels ++ [Crop (cell pw ph 0 r c) img]) out cs
            = out ++ (g <$> (cs ≫= λ c, [(r, c)]))).
  { intros r cs; induction cs as [|c cs IH]; intros out'.
    - simpl. by rewrite app_nil_r.
    - cbn [foldl]. rewrite IH, bind_cons, <- app_assoc. done. }
  revert out; induction rs as [|r rs IH]; intros out.
  - simpl. by rewrite app_nil_r.
  - cbn [foldl]. rewrite Hrow, IH, bind_cons, fmap_app, app_assoc. done.
Qed.

Lemma slice_top_half_closed img pw ph rows cols :
  QualityGate.slice_top_half img pw ph rows cols
  = (λ rc : Z * Z, Crop (cell pw ph 0 rc.1 rc.2) img) <$> cells rows cols.
Proof. unfold QualityGate.slice_top_half. by rewrite slice_top_half_rows. Qed.

Lemma is_dual_grid_true cfg :
  format_type cfg = "dual_grid_animation" → is_dual_grid cfg = true.
Proof. unfold is_dual_grid. intros ->. done. Qed.

Lemma is_dual_grid_false cfg :
  format_type cfg ≠ "dual_grid_animation" → is_dual_grid cfg = false.
Proof. unfold is_dual_grid. intros H. by apply String.eqb_neq. Qed.

Lemma grid_dims_rows_pos n cols rows :
  0 < n → grid_dims n = (cols, rows) → 0 < rows ∧ 0 < cols.
Proof.
  unfold grid_dims. intros Hn.
  repeat case_match; intros [= <- <-]; try lia.
  split; [|lia]. apply Z.div_str_pos. lia.
Qed.

Lemma format_0d_3_width sid :
  0 ≤ sid ≤ 999 → String.length (Py.format_0d 3 sid) = 3%nat.
Proof.
  intros H.
  assert (Hall : forallb (λ z, Nat.eqb (String.length (Py.format_0d 3 z)) 3)
                   (seqZ 0 1000) = true) by (vm_compute; reflexivity).
  rewrite forallb_forall in Hall.
  apply Nat.eqb_eq, Hall. apply list_elem_of_In, elem_of_seqZ. lia.
Qed.


(** ** The monad of the scripts *)

Lemma bind_run {S A B} (m : M S A) (f : A → M S B) s :
  (m ≫= f) s = match m s with
               | (Ok a, s') => f a s'
               | (Raise e, s') => (Raise e, s')
               end.
Proof. reflexivity. Qed.

Lemma bind_ok {S A B} (m : M S A) (f : A → M S B) s a s' :
  m s = (Ok a, s') → (m ≫= f) s = f a s'.
Proof. intros H. by rewrite bind_run, H. Qed.

Lemma bind_raise {S A B} (m : M S A) (f : A → M S B) s e s' :
  m s = (Raise e, s') → (m ≫= f) s = (Raise e, s').
Proof. intros H. by rewrite bind_run, H. Qed.

Lemma bind_ok_inv {S A B} (m : M S A) (f : A → M S B) s b s2 :
  (m ≫= f) s = (Ok b, s2) → ∃ a s1, m s = (Ok a, s1) ∧ f a s1 = (Ok b, s2).
Proof.
  rewrite bind_run. destruct (m s) as [[a|e] s1]; [eauto|discriminate].
Qed.

(** A computation that leaves the state as it is. *)
Definition reads_only {S A} (m : M S A) : Prop := ∀ s, (m s).2 = s.

Lemma reads_only_ret {S A} (a : A) : reads_only (mret a : M S A).
Proof. done. Qed.
Lemma reads_only_raise {S A} e : reads_only (raise e : M S A).
Proof. done. Qed.
Lemma reads_only_gets {S A} (f : S → A) : reads_only (gets f).
Proof. done. Qed.
Lemma reads_only_bind {S A B} (m : M S A) (f : A → M S B) :
  reads_only m → (∀ a, reads_only (f a)) → reads_only (m ≫= f).
Proof.
  intros Hm Hf s. rewrite bind_run. specialize (Hm s).
  destruct (m s) as [[a|e] s1]; simpl in *; subst; [apply Hf|done].
Qed.
Lemma reads_only_getitem {S} d k : reads_only (getitem d k : M S jval).
Proof. unfold getitem. destruct (d !! k); done. Qed.
Lemma reads_only_as_int {S} v : reads_only (QualityGate.as_int v : M S Z).
Proof. destruct v as [|[]| | |]; done. Qed.
Lemma reads_only_for_list {S A B} (l : list A) (f : A → M S B) :
  (∀ x, reads_only (f x)) → reads_only (for_list l f).
Proof.
  intros Hf. induction l as [|x l IH]; [done|]. simpl.
  apply reads_only_bind; [done|]. intros y.
  apply reads_only_bind; [done|]. intros ys. done.
Qed.
Lemma reads_only_for_each {S A} (l : list A) (f : A → M S unit) :
  (∀ x, reads_only (f x)) → reads_only (for_each l f).
Proof.
  intros Hf. induction l as [|x l IH]; [done|]. simpl.
  apply reads_only_bind; [done|]. intros y. done.
Qed.

Create HintDb reads_only.
Global Hint Resolve reads_only_ret reads_only_raise reads_only_gets
  reads_only_getitem reads_only_as_int : reads_only.

Lemma reads_only_run {S A} (m : M S A) s r s' :
  reads_only m → m s = (r, s') → s' = s.
Proof. intros H Hr. specialize (H s). by rewrite Hr in H. Qed.

(** A loop keeps what each of its rounds keeps. *)
Lemma for_list_keeps {S A B} (R : S → S → Prop) (l : list A) (f : A → M S B) :
  (∀ s, R s s) → (∀ s1 s2 s3, R s1 s2 → R s2 s3 → R s1 s3) →
  (∀ x s r s', x ∈ l → f x s = (r, s') → R s s') →
  ∀ s r s', for_list l f s = (r, s') → R s s'.
Proof.
  intros Hrefl Htrans. induction l as [|x l IH]; intros Hf s r s' Hrun.
  - injection Hrun as <- <-. done.
  - simpl in Hrun. rewrite bind_run in Hrun.
    destruct (f x s) as [[y|e] s1] eqn:Hx.
    + assert (R s s1) by (eapply Hf; [left|done]).
      rewrite bind_run in Hrun.
      destruct (for_list l f s1) as [[ys|e] s2] eqn:Hl.
      * injection Hrun as <- <-. eapply Htrans; [done|].
        eapply IH; [|done]. intros; eapply Hf; [by right|done].
      * injection Hrun as <- <-. eapply Htrans; [done|].
        eapply IH; [|done]. intros; eapply Hf; [by right|done].
    + injection Hrun as <- <-. eapply Hf; [left|done].
Qed.

(** *** What a computation keeps

    [keeps R m]: whatever [m] returns or raises, the state it ends in is
    related by [R] to the state it starts from. For a preorder [R] the
    property goes through every construct of the scripts. *)
Definition keeps {S A} (R : S → S → Prop) (m : M S A) : Prop :=
  ∀ s r s', m s = (r, s') → R s s'.

Section Keeps.
Context {S : Type} (R : S → S → Prop).
Context `{!Reflexive R, !Transitive R}.

Lemma keeps_ret {A} (a : A) : keeps R (mret a : M S A).
Proof. intros s r s' [= <- <-]. done. Qed.
Lemma keeps_raise {A} e : keeps R (raise e : M S A).
Proof. intros s r s' [= <- <-]. done. Qed.
Lemma keeps_gets {A} (f : S → A) : keeps R (gets f).
Proof. intros s r s' [= <- <-]. done. Qed.
Lemma keeps_modify (f : S → S) : (∀ s, R s (f s)) → keeps R (modify f).
Proof. intros Hf s r s' [= <- <-]. done. Qed.
Lemma keeps_getitem d k : keeps R (getitem d k : M S jval).
Proof. unfold getitem. destruct (d !! k); [apply keeps_ret|apply keeps_raise]. Qed.
Lemma keeps_bind {A B} (m : M S A) (f : A → M S B) :
  keeps R m → (∀ a, keeps R (f a)) → keeps R (m ≫= f).
Proof.
  intros Hm Hf s r s'. rewrite bind_run.
  destruct (m s) as [[a|e] s1] eqn:Hs.
  - intros Hr. etrans; [by eapply Hm|by eapply Hf].
  - intros [= <- <-]. by eapply Hm.
Qed.
Lemma keeps_try_except {A} (m : M S A) (h : exn → M S A) :
  keeps R m → (∀ e, keeps R (h e)) → keeps R (try_except m h).
Proof.
  intros Hm Hh s r s'. unfold try_except.
  destruct (m s) as [[a|e] s1] eqn:Hs.
  - intros [= <- <-]. by eapply Hm.
  - intros Hr. etrans; [by eapply Hm|by eapply Hh].
Qed.
Lemma keeps_for_each {A} (l : list A) (f : A → M S unit) :
  (∀ x, x ∈ l → keeps R (f x)) → keeps R (for_each l f).
Proof.
  induction l as [|x l IH]; intros Hf; [apply keeps_ret|]. simpl.
  apply keeps_bind; [apply Hf; left|].
  intros _. apply IH. intros y Hy. apply Hf. by right.
Qed.
Lemma keeps_for_list {A B} (l : list A) (f : A → M S B) :
  (∀ x, x ∈ l → keeps R (f x)) → keeps R (for_list l f).
Proof.
  induction l as [|x l IH]; intros Hf; [apply keeps_ret|]. simpl.
  apply keeps_bind; [apply Hf; left|]. intros y.
  apply keeps_bind; [|intros; apply keeps_ret].
  apply IH. intros z Hz. apply Hf. by right.
Qed.
Lemma keeps_swallow (m : M S unit) : keeps R m → keeps R (swallow m).
Proof. intros. apply keeps_try_except; [done|intros; apply keeps_ret]. Qed.
Lemma keeps_executor_map {T} sched (task : T → M S unit) (batch : list T) :
  (∀ x, keeps R (task x)) → keeps R (executor_map sched task batch).
Proof.
  intros Ht. apply keeps_for_each. intros x _. by apply keeps_swallow.
Qed.
Lemma keeps_if {A} (b : bool) (m1 m2 : M S A) :
  keeps R m1 → keeps R m2 → keeps R (if b then m1 else m2).
Proof. by destruct b. Qed.
End Keeps.

(** A computation whose result does not depend on the state, and that
    leaves it as it is. *)
Definition stateless {S A} (m : M S A) : Prop := ∃ r, ∀ s, m s = (r, s).

Lemma stateless_ret {S A} (a : A) : stateless (mret a : M S A).
Proof. by exists (Ok a). Qed.
Lemma stateless_raise {S A} e : stateless (raise e : M S A).
Proof. by exists (Raise e). Qed.
Lemma stateless_bind {S A B} (m : M S A) (f : A → M S B) :
  stateless m → (∀ a, stateless (f a)) → stateless (m ≫= f).
Proof.
  intros [[a|e] Hm] Hf.
  - destruct (Hf a) as [r Hr]. exists r. intros s. by rewrite bind_run, Hm.
  - exists (Raise e). intros s. by rewrite bind_run, Hm.
Qed.
Lemma stateless_getitem {S} d k : stateless (getitem d k : M S jval).
Proof. unfold getitem. destruct (d !! k); [apply stateless_ret|apply stateless_raise]. Qed.
Lemma stateless_as_int {S} v : stateless (QualityGate.as_int v : M S Z).
Proof. destruct v as [|[]| | |]; (apply stateless_ret || apply stateless_raise). Qed.
Lemma stateless_for_list {S A B} (l : list A) (f : A → M S B) :
  (∀ x, stateless (f x)) → stateless (for_list l f).
Proof.
  intros Hf. induction l as [|x l IH]; [apply stateless_ret|]. simpl.
  apply stateless_bind; [done|]. intros y.
  apply stateless_bind; [done|]. intros ys. apply stateless_ret.
Qed.
Lemma stateless_reads_only {S A} (m : M S A) : stateless m → reads_only m.
Proof. intros [r Hr] s. by rewrite Hr. Qed.

Lemma stateless_keeps {S A} (R : S → S → Prop) `{!Reflexive R}
    (m : M S A) : stateless m → keeps R m.
Proof. intros [r Hr] s r' s'. rewrite Hr. by intros [= <- <-]. Qed.

Create HintDb stateless.
Global Hint Resolve stateless_ret stateless_raise stateless_getitem
  stateless_as_int : stateless.

(** Two loops over the same list that go round in step. *)
Lemma for_list_sim {S A B} (R : S → S → Prop) (Q : B → B → Prop)
    (l : list A) (f f' : A → M S B) :
  (∀ x s s' y s1, x ∈ l → R s s' → f x s = (Ok y, s1) →
     ∃ y' s1', f' x s' = (Ok y', s1') ∧ Q y y' ∧ R s1 s1') →
  ∀ s s' ys s1, R s s' → for_list l f s = (Ok ys, s1) →
    ∃ ys' s1', for_list l f' s' = (Ok ys', s1') ∧ Forall2 Q ys ys' ∧ R s1 s1'.
Proof.
  induction l as [|x l IH]; intros Hf s s' ys s1 HR Hrun.
  - injection Hrun as <- <-. exists [], s'. by repeat split.
  - simpl in Hrun. apply bind_ok_inv in Hrun as (y & s2 & Hx & Hrun).
    apply bind_ok_inv in Hrun as (ys0 & s3 & Hl & Hrun).
    injection Hrun as <- <-.
    destruct (Hf x s s' y s2 ltac:(left) HR Hx) as (y' & s2' & Hx' & HQ & HR2).
    destruct (IH (λ x0 a b c d Hin, Hf x0 a b c d (list_elem_of_further _ _ _ Hin))
                s2 s2' ys0 s3 HR2 Hl) as (ys' & s3' & Hl' & HQs & HR3).
    exists (y' :: ys'), s3'. split; [|split; [by constructor|done]].
    simpl. rewrite (bind_ok _ _ _ _ _ Hx'), (bind_ok _ _ _ _ _ Hl'). done.
Qed.

Lemma Forall2_concat_lists {A} (Q : A → A → Prop) (ls ks : list (list A)) :
  Forall2 (Forall2 Q) ls ks → Forall2 Q (concat ls) (concat ks).
Proof. induction 1; simpl; [constructor|by apply Forall2_app]. Qed.

(** ** Sorting *)

Lemma insert_by_perm {A} (key : A → Z) x l : insert_by key x l ≡ₚ x :: l.
Proof.
  induction l as [|y l IH]; simpl; [done|].
  case_match; [done|]. rewrite IH. apply Permutation_swap.
Qed.

Lemma sorted_from_perm {A} (key : A → Z) l acc :
  foldl (λ acc x, insert_by key x acc) acc l ≡ₚ acc ++ l.
Proof.
  revert acc; induction l as [|x l IH]; intros acc; simpl.
  - by rewrite app_nil_r.
  - rewrite IH, insert_by_perm. simpl. apply Permutation_middle.
Qed.

Lemma sorted_perm {A} (key : A → Z) l : sorted key l ≡ₚ l.
Proof. unfold sorted. by rewrite sorted_from_perm. Qed.

Definition ascending {A} (key : A → Z) : list A → Prop :=
  StronglySorted (λ a b, key a ≤ key b).

Lemma insert_by_ascending {A} (key : A → Z) x l :
  ascending key l → ascending key (insert_by key x l).
Proof.
  unfold ascending. induction 1 as [|y l Hl IH Hy]; simpl.
  - repeat constructor.
  - destruct (Z.ltb_spec (key x) (key y)).
    + constructor; [by constructor|].
      constructor; [lia|]. eapply Forall_impl; [exact Hy|]. simpl. lia.
    + constructor; [done|].
      rewrite insert_by_perm. constructor; [lia|done].
Qed.

Lemma sorted_ascending {A} (key : A → Z) l : ascending key (sorted key l).
Proof.
  unfold sorted.
  assert (H : ∀ acc, ascending key acc →
            ascending key (foldl (λ acc x, insert_by key x acc) acc l)).
  { induction l as [|x l IH]; intros acc Hacc; simpl; [done|].
    apply IH. by apply insert_by_ascending. }
  apply H. constructor.
Qed.

(** ** The quality gate *)

Section Gate.
Context (qa_reply : list QualityGate.qa_request → QualityGate.qa_request
                    → QualityGate.qa_outcome)
        (images : gmap string image)
        (MAX_REFS_PER_PANEL : nat).

Import QualityGate.

Local Abbreviation analyze_panel := (analyze_panel qa_reply images MAX_REFS_PER_PANEL).
Local Abbreviation process_panel := (process_panel qa_reply images MAX_REFS_PER_PANEL).
Local Abbreviation process_scene := (process_scene qa_reply images MAX_REFS_PER_PANEL).
Local Abbreviation request_of := (request_of images MAX_REFS_PER_PANEL).
Local Abbreviation directive_of := (directive_of images MAX_REFS_PER_PANEL).

Lemma reads_only_prev_panels pm sm : reads_only (prev_panels_of pm sm).
Proof.
  unfold prev_panels_of. destruct (panels sm); [|done].
  apply reads_only_for_list. intros p.
  repeat (apply reads_only_bind; [auto with reads_only|intros ?]).
  case_match; [|done].
  apply reads_only_bind; [auto with reads_only|done].
Qed.

(** [analyze_panel], case by case. *)
Lemma analyze_panel_run img pm sm cat sid pid g :
  match prev_panels_of pm sm g with
  | (Raise e, _) => analyze_panel img pm sm cat sid pid g = (Raise e, g)
  | (Ok prev, _) =>
      let request := request_of img pm cat sid pid prev in
      let g1 := Gate (submitted g ++ [request]) (gate_log g) in
      analyze_panel img pm sm cat sid pid g =
      match qa_reply (submitted g) request with
      | ParsedObject d => (Ok (directive_of pm cat sid pid d), g1)
      | ParsedOther => (Raise TypeError, g1)
      | CallRaises e | Unparseable e =>
          (Ok (directive_of pm cat sid pid (api_error_directive e)),
           Gate (submitted g1) (gate_log g1 ++ ["Gemini error: " +:+ str e]))
      end
  end.
Proof.
  pose proof (reads_only_prev_panels pm sm g) as Hro.
  unfold QualityGate.analyze_panel. fold (prev_panels_of pm sm).
  rewrite bind_run.
  destruct (prev_panels_of pm sm g) as [[prev|e] g0]; simpl in Hro; subst g0;
    [|done].
  cbv zeta. unfold request_of, directive_of.
  destruct (qa_reply _ _) eqn:Hq;
    repeat (rewrite bind_run; simpl); rewrite ?Hq; reflexivity.
Qed.

Lemma reads_only_log_result d : reads_only (log_result d).
Proof.
  unfold log_result.
  repeat (apply reads_only_bind; [auto with reads_only|intros ?]).
  repeat case_match; done.
Qed.

(** One round of the loop of [process_scene] sends nothing, or sends the
    request of its panel with an image of the slice. *)
Lemma process_panel_sends sc sid cat panel_images filt pm g r g' :
  process_panel sc sid cat panel_images filt pm g = (r, g') →
  submitted g' = submitted g ∨
  ∃ img pid prev, img ∈ panel_images ∧
    submitted g' = submitted g ++ [request_of img pm cat sid pid prev].
Proof.
  unfold QualityGate.process_panel. rewrite bind_run.
  pose proof (reads_only_getitem (S:=gate) pm "panel_index" g) as H1.
  destruct (getitem pm "panel_index" g) as [[pid|e] g0]; simpl in H1; subst g0;
    [|intros [= <- <-]; by left].
  rewrite bind_run.
  pose proof (reads_only_as_int (S:=gate) pid g) as H2.
  destruct (as_int pid g) as [[n|e] g0]; simpl in H2; subst g0;
    [|intros [= <- <-]; by left].
  cbv zeta.
  match goal with
  | |- context [if ?b then mret [] else _] => destruct b
  end; [intros [= <- <-]; by left|].
  match goal with
  | |- context [if ?b then mret [] else _] => destruct b
  end; [intros [= <- <-]; by left|].
  destruct (panel_images !! Z.to_nat (n - 1)) as [img|] eqn:Himg;
    [|intros [= <- <-]; by left].
  rewrite bind_run.
  pose proof (analyze_panel_run img pm sc cat sid pid g) as Hrun.
  pose proof (reads_only_prev_panels pm sc g) as Hro.
  destruct (prev_panels_of pm sc g) as [[prev|e] g0]; simpl in Hro; subst g0.
  - cbv zeta in Hrun. rewrite Hrun. clear Hrun.
    assert (Hin : img ∈ panel_images) by (by eapply list_elem_of_lookup_2).
    assert (Hlog : ∀ d g1 r g',
               (log_result d ≫= λ _, mret [d]) g1 = (r, g') → g' = g1).
    { intros d g1 r0 g0 Hd. eapply reads_only_run; [|exact Hd].
      apply reads_only_bind; [apply reads_only_log_result|done]. }
    destruct (qa_reply _ _).
    + intros Hd. apply Hlog in Hd as ->. right. by exists img, pid, prev.
    + intros Hd. apply Hlog in Hd as ->. right. by exists img, pid, prev.
    + intros Hd. apply Hlog in Hd as ->. right. by exists img, pid, prev.
    + intros [= <- <-]. right. by exists img, pid, prev.
  - rewrite Hrun. intros [= <- <-]. by left.
Qed.

(** What [process_scene] sends: for panels of the scene, with images of
    the slice of the grid. *)
Lemma process_scene_sends sc cat grid_format n filt g r g' sid img :
  scene_id sc = Some sid → images !! grid_file sid = Some img →
  process_scene sc cat grid_format n filt g = (r, g') →
  ∃ new, submitted g' = submitted g ++ new ∧
    Forall (λ req,
              qa_panel_img req ∈ slice_grid img n (Py.contains "dual" grid_format)
              ∧ ∃ pm, pm ∈ default [] (panels sc)
                      ∧ qa_visual_desc req = visual_desc_of pm) new.
Proof.
  intros Hsid Himg. unfold QualityGate.process_scene. rewrite Hsid, Himg.
  cbv zeta. rewrite bind_run.
  set (keys_of := for_list _ _).
  assert (Hro : reads_only keys_of).
  { apply reads_only_for_list. intros p.
    apply reads_only_bind; auto with reads_only. }
  specialize (Hro g).
  destruct (keys_of g) as [[keys|e] g0]; simpl in Hro; subst g0;
    [|intros [= <- <-]; exists []; by rewrite app_nil_r].
  rewrite bind_run.
  set (ps := (sorted fst (zip keys (default [] (panels sc)))).*2).
  set (P := λ req : qa_request,
              qa_panel_img req ∈ slice_grid img n (Py.contains "dual" grid_format)
              ∧ ∃ pm, pm ∈ default [] (panels sc)
                      ∧ qa_visual_desc req = visual_desc_of pm).
  assert (Hps : ∀ pm, pm ∈ ps → pm ∈ default [] (panels sc)).
  { intros pm Hpm. subst ps. apply list_elem_of_fmap in Hpm as ([k pm'] & -> & Hin).
    rewrite sorted_perm in Hin. by apply elem_of_zip_r in Hin. }
  pose (R := λ g1 g2 : gate,
               ∃ new, submitted g2 = submitted g1 ++ new ∧ Forall P new).
  assert (Hloop : ∀ s r s',
            for_list ps (process_panel sc sid cat
                           (slice_grid img n (Py.contains "dual" grid_format)) filt) s
            = (r, s') → R s s').
  { apply for_list_keeps.
    - intros s. exists []. by rewrite app_nil_r.
    - intros s1 s2 s3 (n1 & H1 & F1) (n2 & H2 & F2). exists (n1 ++ n2).
      split; [by rewrite H2, H1, app_assoc|by apply Forall_app].
    - intros pm s r0 s' Hpm Hrun.
      apply process_panel_sends in Hrun as [Hsame|(i & pid & prev & Hi & Hsub)].
      + exists []. by rewrite app_nil_r.
      + exists [request_of i pm cat sid pid prev]. split; [done|].
        constructor; [|done]. split; [done|]. exists pm. split; [auto|done]. }
  destruct (for_list ps _ g) as [[results|e] g1] eqn:Hrun.
  - intros [= <- <-]. by eapply Hloop.
  - intros [= <- <-]. by eapply Hloop.
Qed.
End Gate.


Section GateFailure.
Context (qa qa' : list QualityGate.qa_request → QualityGate.qa_request
                  → QualityGate.qa_outcome)
        (images : gmap string image)
        (MAX_REFS_PER_PANEL : nat)
        (pid : jval).
Hypothesis qa_same : ∀ hist req,
  QualityGate.qa_panel_id req ≠ pid → qa' hist req = qa hist req.
Hypothesis qa_fail : ∀ hist req,
  QualityGate.qa_panel_id req = pid → qa_fails (qa' hist req).

Import QualityGate.

Lemma stateless_prev_panels pm sm : stateless (prev_panels_of pm sm).
Proof.
  unfold prev_panels_of. destruct (panels sm); [|apply stateless_raise].
  apply stateless_for_list. intros p.
  repeat (apply stateless_bind; [auto with stateless|intros ?]).
  case_match; [|apply stateless_ret].
  apply stateless_bind; [auto with stateless|intros; apply stateless_ret].
Qed.

Lemma pessimistic_api_error pm cat sid pidv e :
  pessimistic (directive_of images MAX_REFS_PER_PANEL pm cat sid pidv
                 (api_error_directive e)).
Proof.
  unfold pessimistic, directive_of, api_error_directive.
  repeat split; try by simplify_map_eq.
  eexists. split; [by simplify_map_eq|]. reflexivity.
Qed.

Lemma log_result_api_error pm cat sid pidv e g :
  log_result (directive_of images MAX_REFS_PER_PANEL pm cat sid pidv
                (api_error_directive e)) g = (Ok tt, g).
Proof.
  unfold log_result, directive_of, api_error_directive, getitem.
  by simplify_map_eq.
Qed.

Lemma directive_panel_id pm cat sid pidv d :
  directive_of images MAX_REFS_PER_PANEL pm cat sid pidv d !! "panel_id"
  = Some pidv.
Proof. unfold directive_of. by simplify_map_eq. Qed.

(** One round of the loop of [process_scene], with and without the
    failure. *)
Lemma process_panel_sim sc sid cat panel_images filt pm g g' ds g1 :
  submitted g = submitted g' →
  process_panel qa images MAX_REFS_PER_PANEL sc sid cat panel_images filt pm g
    = (Ok ds, g1) →
  ∃ ds' g1',
    process_panel qa' images MAX_REFS_PER_PANEL sc sid cat panel_images filt pm g'
      = (Ok ds', g1')
    ∧ Forall2 (failing_for pid) ds ds' ∧ submitted g1 = submitted g1'.
Proof.
  intros Hsub. unfold process_panel, getitem.
  destruct (pm !! "panel_index") as [pidv|]; [|discriminate].
  rewrite !bind_run. simpl.
  destruct (stateless_as_int (S:=gate) pidv) as [rn Hn].
  rewrite !(bind_run (as_int pidv)), !Hn.
  destruct rn as [n|]; [|discriminate].
  cbv zeta.
  match goal with
  | |- context [if ?b then mret [] else _] => destruct b
  end; [intros [= <- <-]; exists [], g'; by repeat split|].
  match goal with
  | |- context [if ?b then mret [] else _] => destruct b
  end; [intros [= <- <-]; exists [], g'; by repeat split|].
  destruct (panel_images !! Z.to_nat (n - 1)) as [img|]; [|discriminate].
  rewrite !bind_run.
  pose proof (analyze_panel_run qa images MAX_REFS_PER_PANEL img pm sc cat sid pidv g) as Hrun.
  pose proof (analyze_panel_run qa' images MAX_REFS_PER_PANEL img pm sc cat sid pidv g') as Hrun'.
  destruct (stateless_prev_panels pm sc) as [rp Hp]. rewrite Hp in Hrun, Hrun'.
  destruct rp as [prev|e]; [|rewrite Hrun; discriminate].
  cbv zeta in Hrun, Hrun'. rewrite Hrun, Hrun'. clear Hrun Hrun'.
  rewrite <- Hsub.
  set (req := request_of images MAX_REFS_PER_PANEL img pm cat sid pidv prev).
  destruct (decide (pidv = pid)) as [Heq|Hne].
  - (* the panel whose scoring fails *)
    destruct (qa_fail (submitted g) req Heq) as [e' He'].
    assert (Hlog : ∀ (d : gmap string jval) (g2 : gate) r gr,
               (log_result d ≫= λ _, mret [d]) g2 = (Ok r, gr) →
               r = [d] ∧ gr = g2).
    { intros d g2 r gr Hd. apply bind_ok_inv in Hd as ([] & g3 & Hl & Hd).
      injection Hd as <- <-. split; [done|].
      eapply reads_only_run; [apply reads_only_log_result|exact Hl]. }
    intros Hd.
    assert (Hok : ∃ d, ds = [d] ∧ d !! "panel_id" = Some pidv
                       ∧ submitted g1 = submitted g ++ [req]).
    { revert Hd. destruct (qa (submitted g) req); intros Hd;
        try discriminate; apply Hlog in Hd as [-> ->];
        eexists; (split; [reflexivity|]);
        (split; [apply directive_panel_id|done]). }
    destruct Hok as (d & -> & Hd_id & Hg1). clear Hd Hlog.
    destruct He' as [He'|He']; rewrite He';
      rewrite bind_run, log_result_api_error;
      (eexists [_], _; split; [reflexivity|]; split;
       [constructor; [|constructor]; unfold failing_for;
        rewrite directive_panel_id, Hd_id; split; [done|];
        split; [congruence|intros _; apply pessimistic_api_error]
       |by rewrite Hg1]).
  - (* any other panel *)
    rewrite (qa_same (submitted g) req Hne).
    assert (Hlog : ∀ (d : gmap string jval) (g2 g2' : gate) r gr,
               submitted g2 = submitted g2' →
               (log_result d ≫= λ _, mret [d]) g2 = (Ok r, gr) →
               ∃ gr', (log_result d ≫= λ _, mret [d]) g2' = (Ok r, gr')
                      ∧ r = [d] ∧ submitted gr = submitted gr').
    { intros d g2 g2' r gr Hs Hd.
      assert (stateless (log_result d ≫= λ _, mret [d] : M gate _)) as [rr Hrr].
      { apply stateless_bind; [|intros; apply stateless_ret].
        unfold log_result.
        repeat (apply stateless_bind; [auto with stateless|intros ?]).
        repeat case_match; (apply stateless_ret || apply stateless_raise). }
      rewrite Hrr in Hd. injection Hd as -> <-. exists g2'.
      rewrite Hrr. split; [done|]. split; [|done].
      specialize (Hrr g2). apply bind_ok_inv in Hrr as ([] & ? & _ & Hrr).
      by injection Hrr as <- _. }
    destruct (qa (submitted g) req) as [e0|e0|d0|]; intros Hd; try discriminate.
    all: match goal with
         | |- ∃ ds' g1', (_ ≫= _) ?G2' = _ ∧ _ =>
             apply (Hlog _ _ G2') in Hd as (gr' & Hd' & -> & Hs');
             [|simpl; by rewrite Hsub]
         end;
      eexists; exists gr'; (split; [exact Hd'|]); (split; [|exact Hs']);
      constructor; [|constructor]; unfold failing_for;
      rewrite directive_panel_id; split; [done|]; split; [done|congruence].
Qed.

(** A whole scene, with and without the failure. *)
Lemma process_scene_sim sc cat grid_format n filt g g' rs g1 :
  submitted g = submitted g' →
  process_scene qa images MAX_REFS_PER_PANEL sc cat grid_format n filt g
    = (Ok rs, g1) →
  ∃ rs' g1',
    process_scene qa' images MAX_REFS_PER_PANEL sc cat grid_format n filt g'
      = (Ok rs', g1')
    ∧ Forall2 (failing_for pid) rs rs' ∧ submitted g1 = submitted g1'.
Proof.
  intros Hsub. unfold process_scene.
  destruct (scene_id sc) as [sid|]; [|discriminate].
  destruct (images !! grid_file sid) as [img|];
    [|intros [= <- <-]; exists [], g'; by repeat split].
  cbv zeta. set (keys_of := for_list _ _).
  assert (stateless keys_of) as [rk Hk].
  { apply stateless_for_list. intros p.
    apply stateless_bind; auto with stateless. }
  rewrite !(bind_run keys_of), !Hk. destruct rk as [keys|]; [|discriminate].
  intros Hrun. apply bind_ok_inv in Hrun as (results & g2 & Hloop & Hret).
  injection Hret as <- <-.
  eapply (for_list_sim (λ a b, submitted a = submitted b)
            (Forall2 (failing_for pid))) in Hloop
    as (results' & g2' & Hloop' & HQ & Hs2); [| |exact Hsub].
  - exists (concat results'), g2'. rewrite (bind_ok _ _ _ _ _ Hloop').
    split; [done|]. split; [by apply Forall2_concat_lists|done].
  - intros pm s s' y s1 _ Hs Hy. by eapply process_panel_sim.
Qed.
End GateFailure.


(** C5, as the code has it. A directive carries the scores and the
    refinement fields exactly as the scoring service returned them, with no
    capping, or, for a call that failed, zero scores and a request for
    refinement; so it is valid whenever the answer of the service is. *)
Theorem directive_as_returned
    (qa : list QualityGate.qa_request → QualityGate.qa_request
          → QualityGate.qa_outcome)
    (images : gmap string image) (MAX_REFS_PER_PANEL : nat)
    (panel_img : image) (panel_meta : panel) (sc : scene)
    (ref_catalog : gmap string QualityGate.ref_entry) (sid : Z) (pid : jval)
    (g g' : QualityGate.gate) (d : gmap string jval) :
  QualityGate.analyze_panel qa images MAX_REFS_PER_PANEL
    panel_img panel_meta sc ref_catalog sid pid g = (Ok d, g') →
  ∃ prev,
    match qa (QualityGate.submitted g)
             (request_of images MAX_REFS_PER_PANEL panel_img panel_meta
                ref_catalog sid pid prev) with
    | QualityGate.ParsedObject r =>
        (∀ k, k ∈ scored_keys → d !! k = r !! k) ∧
        (valid_directive r → valid_directive d)
    | QualityGate.CallRaises e | QualityGate.Unparseable e =>
        pessimistic d ∧ valid_directive d
    | QualityGate.ParsedOther => False
    end.
Proof.
  intros Hrun.
  pose proof (analyze_panel_run qa images MAX_REFS_PER_PANEL panel_img
                panel_meta sc ref_catalog sid pid g) as Hcase.
  destruct (prev_panels_of panel_meta sc g) as [[prev|e] g0];
    [|rewrite Hcase in Hrun; discriminate].
  exists prev. cbv zeta in Hcase. rewrite Hcase in Hrun. clear Hcase.
  assert (Hpess : ∀ d0, pessimistic d0 → valid_directive d0).
  { intros d0 (Hn & Hf & Hc & Hm & _). unfold valid_directive, score_in_range.
    repeat split; try (eexists; split; [eassumption|lia]).
    rewrite Hn. discriminate. }
  destruct (qa _ _) as [e|e|r|]; [| | |discriminate]; injection Hrun as <- <-.
  - split; [apply pessimistic_api_error|apply Hpess, pessimistic_api_error].
  - split; [apply pessimistic_api_error|apply Hpess, pessimistic_api_error].
  - assert (Hk : ∀ k, k ∈ scored_keys →
              directive_of images MAX_REFS_PER_PANEL panel_meta ref_catalog
                sid pid r !! k = r !! k).
    { intros k Hk. unfold directive_of, scored_keys in *.
      repeat (apply elem_of_cons in Hk as [->|Hk]; [by simplify_map_eq|]).
      by apply elem_of_nil in Hk. }
    split; [exact Hk|].
    unfold valid_directive, score_in_range.
    rewrite !Hk by (unfold scored_keys; set_solver). done.
Qed.

(** ** The retry wrapper *)

Lemma retry_loop_step {A} fuel max_retries backoff_factor (func : M world A)
    retries w :
  retries < max_retries →
  retry_loop (S fuel) max_retries backoff_factor func retries w =
  match func w with
  | (Ok a, w') => (Ok (Some a), w')
  | (Raise e, w') =>
      if is_transient (str e) then
        if retries + 1 >=? max_retries then (Raise e, logged_max_retries e w')
        else retry_loop fuel max_retries backoff_factor func (retries + 1)
               (set_trace (λ t, t ++ [Slept (backoff_factor ^ (retries + 1))]) w')
      else (Raise e, w')
  end.
Proof.
  intros Hlt. cbn [retry_loop].
  destruct (Z.ltb_spec retries max_retries); [|lia].
  unfold try_except. rewrite bind_run.
  destruct (func w) as [[a|e] w']; [done|].
  destruct (is_transient (str e)); [|done].
  destruct (retries + 1 >=? max_retries); reflexivity.
Qed.

Lemma retry_loop_attempts {A} max_retries backoff_factor (func : M world A)
    w fuel (n : nat) :
  Z.of_nat n < max_retries → (n ≤ fuel)%nat →
  (∀ k, (k < n)%nat →
     ∃ e, (func (world_before backoff_factor func w k)).1 = Raise e
          ∧ is_transient (str e) = true) →
  retry_loop fuel max_retries backoff_factor func 0 w =
  retry_loop (fuel - n) max_retries backoff_factor func (Z.of_nat n)
    (world_before backoff_factor func w n).
Proof.
  induction n as [|n IH]; intros Hlt Hfuel Hfail.
  - simpl. by rewrite Nat.sub_0_r.
  - rewrite IH by (try lia; intros; apply Hfail; lia).
    destruct (Hfail n ltac:(lia)) as (e & He & Htr).
    replace (fuel - n)%nat with (S (fuel - S n)) by lia.
    rewrite retry_loop_step by lia.
    destruct (func (world_before backoff_factor func w n)) as [r w'] eqn:Hf.
    simpl in He. subst r. rewrite Htr.
    destruct (Z.geb_spec (Z.of_nat n + 1) max_retries); [lia|].
    cbn [world_before]. rewrite Hf. simpl.
    replace (Z.of_nat n + 1) with (Z.of_nat (S n)) by lia. done.
Qed.

(** C6, as the code has it. A wrapped call is attempted at most
    [max_retries] times. After the failure number [k] of a transient class
    the wrapper sleeps [backoff_factor ^ k] seconds and tries again; a
    failure of another class is raised at once; and when attempt number
    [max_retries] fails too, the wrapper raises again the very error of
    that attempt. *)
Theorem retry_on_errors_attempts {A}
    (max_retries backoff_factor : Z) (func : M world A) (w : world) (n : nat) :
  Z.of_nat n < max_retries →
  (∀ k, (k < n)%nat →
     ∃ e, (func (world_before backoff_factor func w k)).1 = Raise e
          ∧ is_transient (str e) = true) →
  let wn := world_before backoff_factor func w n in
  (∀ k, trace (world_before backoff_factor func w (S k))
        = trace (func (world_before backoff_factor func w k)).2
            ++ [Slept (backoff_factor ^ Z.of_nat (S k))])
  ∧ (∀ a w', func wn = (Ok a, w') →
       retry_on_errors max_retries backoff_factor func w = (Ok (Some a), w'))
  ∧ (∀ e w', func wn = (Raise e, w') → is_transient (str e) = false →
       retry_on_errors max_retries backoff_factor func w = (Raise e, w'))
  ∧ (∀ e w', func wn = (Raise e, w') → is_transient (str e) = true →
       Z.of_nat n + 1 = max_retries →
       retry_on_errors max_retries backoff_factor func w
       = (Raise e, logged_max_retries e w')).
Proof.
  intros Hlt Hfail wn.
  assert (Hgo : retry_on_errors max_retries backoff_factor func w =
                retry_loop (S (Z.to_nat max_retries - S n)) max_retries
                  backoff_factor func (Z.of_nat n) wn).
  { unfold retry_on_errors.
    rewrite (retry_loop_attempts _ _ _ _ _ n) by (try lia; done).
    f_equal. lia. }
  rewrite Hgo, retry_loop_step by lia.
  split; [done|]. split; [|split].
  - intros a w' ->. done.
  - intros e w' -> ->. done.
  - intros e w' -> -> Hlast.
    destruct (Z.geb_spec (Z.of_nat n + 1) max_retries); [done|lia].
Qed.

(** ** File stems *)

Lemma lower_char_upper c : Py.is_upper c = true → Py.is_lower (Py.lower_char c) = true.
Proof. destruct c as [[] [] [] [] [] [] [] []]; vm_compute; done. Qed.

Lemma lower_char_uncased a c :
  Py.is_cased a = false → (Py.lower_char c = a ↔ c = a).
Proof.
  unfold Py.is_cased. intros Ha. apply orb_false_iff in Ha as [Hu Hl].
  unfold Py.lower_char. destruct (Py.is_upper c) eqn:Hc; [|done].
  pose proof (lower_char_upper c Hc) as Hlow. unfold Py.lower_char in Hlow.
  rewrite Hc in Hlow. split; intros <-; congruence.
Qed.

Lemma lower_app s1 s2 : Py.lower (s1 +:+ s2) = Py.lower s1 +:+ Py.lower s2.
Proof. induction s1 as [|c s1 IH]; simpl; [done|]. by rewrite IH. Qed.

(** Lower-casing goes through the replacement of a character without case
    by a text in lower case. *)
Lemma lower_replace_char a new s :
  Py.is_cased a = false → Py.lower new = new →
  Py.lower (Py.replace (String a EmptyString) new s)
  = Py.replace (String a EmptyString) new (Py.lower s).
Proof.
  intros Ha Hnew. unfold Py.replace.
  assert (Hpre : ∀ t, String.prefix EmptyString t = true) by (by intros []).
  induction s as [|c s IH]; [done|].
  cbn [Py.replace_go Py.lower String.prefix String.length Nat.sub].
  destruct (ascii_dec a c) as [<-|Hne].
  - destruct (ascii_dec a (Py.lower_char a)) as [_|Hne'].
    + rewrite !Hpre, lower_app, Hnew, IH. done.
    + exfalso. apply Hne'. symmetry. by apply lower_char_uncased.
  - destruct (ascii_dec a (Py.lower_char c)) as [Heq|_].
    + exfalso. apply Hne. symmetry in Heq.
      apply (proj1 (lower_char_uncased a c Ha)) in Heq. congruence.
    + cbn [Py.lower]. by rewrite IH.
Qed.

Lemma safe_name_lower n : safe_name n = safe_name (Py.lower n).
Proof.
  unfold safe_name.
  assert (Hidem : ∀ s, Py.lower (Py.lower s) = Py.lower s).
  { induction s as [|c s IH]; simpl; [done|]. rewrite IH. f_equal.
    unfold Py.lower_char at 1. destruct (Py.is_upper (Py.lower_char c)) eqn:Hu; [|done].
    exfalso. revert Hu. clear.
    destruct c as [[] [] [] [] [] [] [] []]; vm_compute; done. }
  unfold Py.dquote. rewrite !lower_replace_char by done.
  by rewrite Hidem.
Qed.

(** Running the plain steps of a script. *)
Ltac mstep :=
  cbn [mret M_ret gets modify raise log_event write negb fst snd];
  repeat (rewrite bind_run;
          cbn [mret M_ret gets modify raise log_event write negb fst snd]).

(** ** Casting *)

Lemma generate_single_reference_registered svc char w :
  is_Some (CHARACTER_IMAGES w !! name char) →
  generate_single_reference svc char w = (Ok tt, w).
Proof.
  intros H. unfold generate_single_reference. rewrite bind_run. simpl.
  rewrite bool_decide_eq_true_2 by done. done.
Qed.


(** ** Grid rendering *)

Lemma for_each_write (slices : saves) w :
  for_each slices (λ s, write (OUTPUT_DIR +:+ "panels/" +:+ s.1) (Png s.2)) w
  = (Ok tt, set_files (save_all slices) w).
Proof.
  revert w; induction slices as [|s l IH]; intros w.
  - by destruct w.
  - simpl. rewrite bind_run. unfold write at 1. simpl. rewrite IH.
    by destruct w.
Qed.

Lemma stateless_read_prompt_keys sc : stateless (read_prompt_keys sc).
Proof.
  unfold read_prompt_keys.
  destruct (location sc); [|apply stateless_raise].
  destruct (panels sc) as [ps|]; [|apply stateless_raise].
  induction ps as [|p ps IH]; [apply stateless_ret|]. simpl.
  apply stateless_bind; [|done].
  apply stateless_bind; [apply stateless_getitem|intros; apply stateless_ret].
Qed.

(** [generate_combined_grid] for a scene whose grid is on disk. *)
Lemma generate_combined_grid_existing svc cfg sc sid w c :
  files w !! grid_file sid = Some c →
  let w1 := if bool_decide (listed_references sc = []) then
              set_trace (λ t, t ++ [Called (IdentifyPrompt sc)]) w
            else w in
  generate_combined_grid svc cfg (sc, sid) w =
  match read_prompt_keys sc w1 with
  | (Raise e, _) => (Raise e, w1)
  | (Ok _, _) =>
      if slicing_enabled cfg then
        match c with
        | Png img => (Ok tt, set_files (save_all (slice_combined img sid cfg)) w1)
        | _ => (Raise (UnidentifiedImageError (grid_file sid)), w1)
        end
      else (Ok tt, w1)
  end.
Proof.
  intros Hfile w1. unfold generate_combined_grid.
  fold (listed_references sc). rewrite bind_run.
  assert (Hneeded : ∃ needed,
            (if bool_decide (listed_references sc = [])
             then identify_scene_characters svc sc
             else mret (listed_references sc)) w = (Ok needed, w1)
            ∧ files w1 = files w).
  { subst w1. case_bool_decide; eexists; (split; [reflexivity|by destruct w]). }
  destruct Hneeded as (needed & -> & Hfiles).
  rewrite bind_run. simpl. rewrite bind_run. simpl. rewrite bind_run.
  destruct (stateless_read_prompt_keys sc) as [rk Hk]. rewrite !Hk.
  destruct rk as [[]|e]; [|done].
  rewrite Hfiles, bool_decide_eq_true_2 by (rewrite Hfile; eauto).
  rewrite bind_run. simpl.
  destruct (slicing_enabled cfg); [|done].
  rewrite bind_run. unfold Image_open. rewrite bind_run. simpl.
  rewrite Hfiles, Hfile. destruct c; try done.
  apply for_each_write.
Qed.

Lemma save_all_cons s l fs :
  save_all (s :: l) fs
  = save_all l (<[OUTPUT_DIR +:+ "panels/" +:+ s.1 := Png s.2]> fs).
Proof. done. Qed.

Lemma save_all_same (l : saves) fs1 fs2 p :
  fs1 !! p = fs2 !! p ∨ p ∈ (λ s : string * image, OUTPUT_DIR +:+ "panels/" +:+ s.1) <$> l →
  save_all l fs1 !! p = save_all l fs2 !! p.
Proof.
  revert fs1 fs2; induction l as [|s l IH]; intros fs1 fs2 H.
  - destruct H as [H|H]; [done|]. by apply elem_of_nil in H.
  - rewrite !save_all_cons. apply IH.
    destruct (decide (p = OUTPUT_DIR +:+ "panels/" +:+ s.1)) as [->|Hne].
    + left. by rewrite !lookup_insert_eq.
    + rewrite !lookup_insert_ne by done.
      destruct H as [H|H]; [by left|right].
      rewrite fmap_cons in H. apply elem_of_cons in H as [H|H]; done.
Qed.

Lemma save_all_other (l : saves) fs p :
  p ∉ (λ s : string * image, OUTPUT_DIR +:+ "panels/" +:+ s.1) <$> l →
  save_all l fs !! p = fs !! p.
Proof.
  revert fs; induction l as [|s l IH]; intros fs H; [done|].
  rewrite save_all_cons, IH.
  - apply lookup_insert_ne. intros <-. apply H. rewrite fmap_cons. left.
  - intros Hin. apply H. rewrite fmap_cons. by right.
Qed.

Lemma save_all_idempotent (l : saves) fs :
  save_all l (save_all l fs) = save_all l fs.
Proof.
  apply map_eq. intros p.
  destruct (decide (p ∈ (λ s : string * image,
                           OUTPUT_DIR +:+ "panels/" +:+ s.1) <$> l)) as [Hin|Hout].
  - apply save_all_same. by right.
  - by apply save_all_other.
Qed.

Lemma save_all_grid_file (l : saves) fs sid :
  save_all l fs !! grid_file sid = fs !! grid_file sid.
Proof.
  apply save_all_other. intros Hin.
  apply list_elem_of_fmap in Hin as (s & Heq & _).
  unfold grid_file, OUTPUT_DIR in Heq. simpl in Heq. discriminate.
Qed.

Lemma for_each_noop {S A} (l : list A) (f : A → M S unit) s :
  (∀ x, x ∈ l → f x s = (Ok tt, s)) → for_each l f s = (Ok tt, s).
Proof.
  induction l as [|x l IH]; intros Hf; [done|]. simpl.
  rewrite (bind_ok _ _ _ _ _ (Hf x ltac:(left))).
  apply IH. intros y Hy. apply Hf. by right.
Qed.

(** Casting again when every name that comes back is registered: the
    casting prompt is the only call, and no file is written. *)
Lemma auto_cast_characters_registered svc sched cfg text w :
  fair sched →
  reference_characters_enabled cfg = true →
  let w1 := set_CHARACTER_IMAGES (load_existing (files w)) w in
  let existing := (map_to_list (CHARACTER_IMAGES w1)).*1 in
  (∀ c, c ∈ default [] (casting_reply svc (trace w) existing text) →
        is_Some (CHARACTER_IMAGES w1 !! name c)) →
  auto_cast_characters svc sched cfg text w
  = (Ok tt, set_trace (λ t, t ++ [Called (CastingPrompt existing text)]) w1).
Proof.
  intros Hfair Hcfg w1 existing Hreg.
  unfold auto_cast_characters, generate_json_with_schema.
  mstep. rewrite Hcfg. mstep.
  fold w1. fold existing.
  case_bool_decide as Hnil; [by destruct w|].
  unfold executor_map.
  replace (trace w1) with (trace w) by (by destruct w).
  set (w2 := set_trace _ w1).
  apply for_each_noop. intros c Hc.
  unfold swallow, try_except.
  rewrite generate_single_reference_registered; [done|].
  replace (CHARACTER_IMAGES w2) with (CHARACTER_IMAGES w1) by (by destruct w).
  apply Hreg. by rewrite (Hfair _ _) in Hc.
Qed.

(** C7, as the code has it. Rendering a scene whose composite grid is on
    disk calls no image service and leaves the composite as it is, calls no
    service at all when a panel of the scene lists a reference, and writes
    the same files when it is run once more; an identity that is registered
    is left alone by [generate_single_reference]; and casting again, when
    every identity that comes back is registered, calls the casting prompt
    and nothing else and writes no file. *)
Theorem rerun_is_cheap (svc : service) (sched : scheduler) (cfg : config)
    (sc : scene) (sid : Z) (char : character) (text : source)
    (w : world) (c : content) :
  (files w !! grid_file sid = Some c →
   ∀ r w', generate_combined_grid svc cfg (sc, sid) w = (r, w') →
     image_calls (trace w') = image_calls (trace w)
     ∧ files w' !! grid_file sid = Some c
     ∧ (listed_references sc ≠ [] → calls (trace w') = calls (trace w))
     ∧ (∀ r2 w2, generate_combined_grid svc cfg (sc, sid) w' = (r2, w2) →
          files w2 = files w'))
  ∧ (is_Some (CHARACTER_IMAGES w !! name char) →
     generate_single_reference svc char w = (Ok tt, w))
  ∧ (fair sched → reference_characters_enabled cfg = true →
     let registry := load_existing (files w) (CHARACTER_IMAGES w) in
     let existing := (map_to_list registry).*1 in
     (∀ c, c ∈ default [] (casting_reply svc (trace w) existing text) →
           is_Some (registry !! name c)) →
     ∃ w', auto_cast_characters svc sched cfg text w = (Ok tt, w')
           ∧ files w' = files w
           ∧ calls (trace w') = calls (trace w) ++ [CastingPrompt existing text]).
Proof.
  split; [|split].
  - intros Hfile r w' Hrun.
    destruct (stateless_read_prompt_keys sc) as [rk Hk].
    pose (F := λ fs : gmap string content,
                 match rk, slicing_enabled cfg, c with
                 | Ok _, true, Png img => save_all (slice_combined img sid cfg) fs
                 | _, _, _ => fs
                 end).
    assert (Hgen : ∀ w0 r0 w0', files w0 !! grid_file sid = Some c →
              generate_combined_grid svc cfg (sc, sid) w0 = (r0, w0') →
              (trace w0' = trace w0 ∨
               bool_decide (listed_references sc = []) = true
               ∧ trace w0' = trace w0 ++ [Called (IdentifyPrompt sc)])
              ∧ files w0' = F (files w0)).
    { intros w0 r0 w0' Hf0 Hr0.
      rewrite (generate_combined_grid_existing svc cfg sc sid w0 c Hf0) in Hr0.
      cbv zeta in Hr0.
      set (w1 := if bool_decide (listed_references sc = []) then _ else w0) in Hr0.
      assert (Hw1 : (trace w1 = trace w0 ∨
                     bool_decide (listed_references sc = []) = true
                     ∧ trace w1 = trace w0 ++ [Called (IdentifyPrompt sc)])
                    ∧ files w1 = files w0).
      { subst w1. case_bool_decide; (split; [|by destruct w0]);
          [right; split; [done|by destruct w0]|by left]. }
      destruct Hw1 as [Htr Hfs]. clearbody w1. rewrite Hk in Hr0.
      subst F. cbv beta.
      destruct rk as [[]|e]; [|by injection Hr0 as <- <-].
      destruct (slicing_enabled cfg); [|by injection Hr0 as <- <-].
      destruct c as [img| | |]; injection Hr0 as <- <-; try done.
      split; [by destruct w1|]. destruct w1; simpl in *. by rewrite Hfs. }
    assert (HF : ∀ fs, F (F fs) = F fs).
    { intros fs. subst F. cbv beta.
      destruct rk as [[]|]; [|done]. destruct (slicing_enabled cfg); [|done].
      destruct c; try done. apply save_all_idempotent. }
    assert (HFg : ∀ fs, F fs !! grid_file sid = fs !! grid_file sid).
    { intros fs. subst F. cbv beta.
      destruct rk as [[]|]; [|done]. destruct (slicing_enabled cfg); [|done].
      destruct c; try done. apply save_all_grid_file. }
    destruct (Hgen w r w' Hfile Hrun) as [Htr Hfs].
    assert (Hfile' : files w' !! grid_file sid = Some c)
      by (by rewrite Hfs, HFg).
    split; [|split; [exact Hfile'|split]].
    + destruct Htr as [->|[_ ->]]; [done|].
      unfold image_calls. rewrite omap_app. simpl. by rewrite app_nil_r.
    + intros Hne. destruct Htr as [->|[Hb _]]; [done|].
      apply bool_decide_eq_true in Hb. done.
    + intros r2 w2 Hrun2.
      destruct (Hgen w' r2 w2 Hfile' Hrun2) as [_ Hfs2].
      by rewrite Hfs2, Hfs, HF.
  - apply generate_single_reference_registered.
  - intros Hfair Hcfg registry existing Hreg.
    eexists. split; [by apply auto_cast_characters_registered|].
    split; [by destruct w|].
    simpl. unfold calls. rewrite omap_app. by destruct w.
Qed.

(** ** The catalog on disk *)

(** Applying a lemma of [keeps], the preorder found by instance search. *)
Tactic Notation "k_apply" open_constr(lem) := apply lem; try apply _.

Global Instance files_agree_outside_refl P : Reflexive (files_agree_outside P).
Proof. by intros w p _. Qed.
Global Instance files_agree_outside_trans P : Transitive (files_agree_outside P).
Proof. intros w1 w2 w3 H12 H23 p Hp. by rewrite H23, H12. Qed.

Lemma keeps_files_log_event P e : keeps (files_agree_outside P) (log_event e).
Proof. k_apply keeps_modify. by intros w p _. Qed.

Lemma keeps_files_write (P : string → Prop) path c :
  P path → keeps (files_agree_outside P) (write path c).
Proof.
  intros HP. k_apply keeps_modify. intros w p Hp. simpl.
  apply lookup_insert_ne. by intros ->.
Qed.


Lemma keeps_files_generate_image P r reply :
  keeps (files_agree_outside P) (generate_image r reply).
Proof.
  unfold generate_image.
  k_apply keeps_bind; [k_apply keeps_gets|intros t].
  k_apply keeps_bind; [apply keeps_files_log_event|intros _].
  destruct (reply t); (k_apply keeps_raise || k_apply keeps_ret).
Qed.

Lemma keeps_files_Image_open P path :
  keeps (files_agree_outside P) (Image_open path).
Proof.
  unfold Image_open.
  k_apply keeps_bind; [k_apply keeps_gets|intros fs].
  destruct (fs !! path) as [[]|]; (k_apply keeps_raise || k_apply keeps_ret).
Qed.

(** [generate_single_reference] writes the two files of the entry of its
    name, and no other. *)
Lemma generate_single_reference_files svc char :
  keeps (files_agree_outside (entry_paths (name char)))
        (generate_single_reference svc char).
Proof.
  unfold generate_single_reference.
  k_apply keeps_bind; [k_apply keeps_gets|intros registry].
  k_apply keeps_if; [k_apply keeps_ret|].
  k_apply keeps_bind; [|intros style].
  { k_apply keeps_if; [|k_apply keeps_ret].
    k_apply keeps_bind; [k_apply keeps_gets|intros fs].
    k_apply keeps_if; [|k_apply keeps_ret].
    k_apply keeps_bind; [apply keeps_files_Image_open|intros img].
    k_apply keeps_ret. }
  k_apply keeps_bind; [apply keeps_files_write; by left|intros _].
  k_apply keeps_try_except; [|intros e; apply keeps_files_log_event].
  k_apply keeps_bind; [apply keeps_files_generate_image|intros resp].
  destruct resp; try k_apply keeps_ret.
  k_apply keeps_bind; [apply keeps_files_write; by right|intros _].
  k_apply keeps_modify. by intros w p _.
Qed.

(** C8, as the code has it. Two names that differ in the case of their
    letters only have the same file stem, so that registering both writes
    the two files of one entry and no other file. *)
Theorem case_variants_share_entry (c1 c2 : character) :
  Py.lower (name c1) = Py.lower (name c2) →
  safe_name (name c1) = safe_name (name c2)
  ∧ ∀ svc (c : character) w r w',
      c = c1 ∨ c = c2 →
      generate_single_reference svc c w = (r, w') →
      ∀ p, files w' !! p ≠ files w !! p → entry_paths (name c1) p.
Proof.
  intros Hlow.
  assert (Hsafe : safe_name (name c1) = safe_name (name c2)).
  { by rewrite (safe_name_lower (name c1)), (safe_name_lower (name c2)), Hlow. }
  split; [exact Hsafe|].
  intros svc c w r w' Hc Hrun p Hp.
  pose proof (generate_single_reference_files svc c w r w' Hrun p) as Hkeep.
  destruct (decide (entry_paths (name c) p)) as [Hin|Hout].
  - destruct Hc as [->| ->]; [done|].
    unfold entry_paths in *. by rewrite Hsafe.
  - by apply Hkeep in Hout.
Qed.

(** ** The reversal pass *)

Lemma reversed_map_of_snoc l item :
  reversed_map_of (l ++ [item]) = <[item.1 := item.2]> (reversed_map_of l).
Proof. unfold reversed_map_of. by rewrite foldl_snoc. Qed.

(** The map built from the returned list holds, for an index, the text of
    the last item of the list with that index. *)
Lemma reversed_map_of_lookup l i :
  (is_Some (reversed_map_of l !! i) ↔ i ∈ l.*1)
  ∧ ∀ txt, reversed_map_of l !! i = Some txt → (i, txt) ∈ l.
Proof.
  induction l as [|[j t] l IH] using rev_ind.
  - split; [|done]. unfold reversed_map_of. simpl. rewrite lookup_empty.
    split; [by intros [? ?]|by intros ?%elem_of_nil].
  - rewrite reversed_map_of_snoc, fmap_app. simpl.
    destruct (decide (j = i)) as [->|Hne].
    + rewrite lookup_insert_eq. split.
      * split; [intros _; apply elem_of_app; right; by left|eauto].
      * intros txt [= <-]. apply elem_of_app. right. by left.
    + rewrite lookup_insert_ne by done. destruct IH as [IH1 IH2]. split.
      * rewrite IH1, elem_of_app, list_elem_of_singleton.
        split; [by left|intros [?|?]; [done|congruence]].
      * intros txt Htxt. apply elem_of_app. left. by apply IH2.
Qed.

Lemma retry_on_errors_ok {A} max_retries backoff_factor (func : M world A) w a w' :
  0 < max_retries → func w = (Ok a, w') →
  retry_on_errors max_retries backoff_factor func w = (Ok (Some a), w').
Proof.
  intros Hpos Hf. unfold retry_on_errors.
  replace (Z.to_nat max_retries) with (S (Z.to_nat max_retries - 1)) by lia.
  rewrite retry_loop_step by lia. by rewrite Hf.
Qed.

Lemma reverse_panel_swapped reversed_map p w :
  (is_reversed p = true → reversible p) →
  reverse_panel reversed_map p w = (Ok (swapped reversed_map p), w).
Proof.
  intros Hrev. unfold reverse_panel, swapped.
  destruct (is_reversed p); [|done].
  destruct (Hrev eq_refl) as ((i & Hi) & [vs Hvs] & [ve Hve] & [mp Hmp]).
  unfold getitem. rewrite Hi. mstep. cbn [lookup_index]. mstep.
  destruct (reversed_map !! i) as [txt|]; [|done].
  rewrite Hmp, Hvs, Hve. mstep.
  rewrite !(lookup_insert_ne _ _ "visual_start") by discriminate.
  rewrite Hvs. mstep.
  rewrite !(lookup_insert_ne _ _ "visual_end") by discriminate.
  rewrite Hve. done.
Qed.

Lemma for_list_total {S A B} (l : list A) (f : A → M S B) (g : A → B) s :
  (∀ x, x ∈ l → f x s = (Ok (g x), s)) → for_list l f s = (Ok (g <$> l), s).
Proof.
  induction l as [|x l IH]; intros Hf; [done|]. simpl.
  rewrite (bind_ok _ _ _ _ _ (Hf x ltac:(left))).
  rewrite (bind_ok _ _ _ _ _ (IH (λ y Hy, Hf y (list_elem_of_further _ _ _ Hy)))).
  done.
Qed.

Lemma set_panels_same sc ps : panels sc = Some ps → set_panels ps sc = sc.
Proof. destruct sc; simpl; intros ->; done. Qed.

(** [apply_reversal_pass] on panels that have the keys of the schema. *)
Lemma apply_reversal_pass_run svc sc ps w :
  panels sc = Some ps →
  Forall (λ p, is_reversed p = true → reversible p) ps →
  ∃ w', apply_reversal_pass svc sc w
        = (Ok (set_panels (swapped (reversed_map_of (reversal_answer svc w sc))
                             <$> ps) sc), w').
Proof.
  intros Hps Hall. unfold apply_reversal_pass.
  fold (reversed_panels sc).
  assert (Hid : ∀ m, (∀ p, p ∈ ps → is_reversed p = true → swapped m p = p) →
            set_panels (swapped m <$> ps) sc = sc).
  { intros m Hm. rewrite <- (set_panels_same sc ps Hps) at 2. f_equal.
    rewrite <- (list_fmap_id ps) at 2. apply list_fmap_ext.
    intros k p Hk. unfold swapped at 1.
    destruct (is_reversed p) eqn:Hr; [|done].
    rewrite <- (Hm p) at 2; [unfold swapped; by rewrite Hr| |done].
    by eapply list_elem_of_lookup_2. }
  case_bool_decide as Hnone.
  - (* no panel is flagged *)
    exists w. rewrite Hid; [done|]. intros p Hp Hr. exfalso.
    assert (p ∈ reversed_panels sc) as Hin.
    { unfold reversed_panels. rewrite Hps. simpl. by apply list_elem_of_filter. }
    rewrite Hnone in Hin. by apply elem_of_nil in Hin.
  - rewrite bind_run.
    erewrite retry_on_errors_ok; [|lia|unfold acquire, generate_json_with_schema; mstep; reflexivity].
    fold (reversal_answer svc w sc).
    set (w1 := set_trace _ w).
    destruct (reversal_answer svc w sc) as [|item items] eqn:Hans.
    + (* nothing came back *)
      rewrite Hid; [eexists; mstep; reflexivity|]. intros p _ Hr.
      unfold swapped. rewrite Hr. unfold reversed_map_of. simpl.
      destruct (p !! "panel_index") as [[]|]; try done.
    + rewrite Hps. rewrite bind_run.
      rewrite (for_list_total ps _ (swapped (reversed_map_of (item :: items)))).
      * eexists. reflexivity.
      * intros p Hp. apply reverse_panel_swapped.
        rewrite Forall_forall in Hall. by apply Hall.
Qed.


(** ** The numbering of the scenes *)

Lemma swallow_returns {S} (m : M S unit) s : (swallow m s).1 = Ok tt.
Proof. unfold swallow, try_except. by destruct (m s) as [[[]|e] s']. Qed.

Lemma for_each_swallow_returns {S T} (task : T → M S unit) (l : list T) s :
  (for_each l (λ x, swallow (task x)) s).1 = Ok tt.
Proof.
  revert s; induction l as [|x l IH]; intros s; [done|]. simpl.
  rewrite bind_run. pose proof (swallow_returns (task x) s) as Hx.
  destruct (swallow (task x) s) as [r s']. simpl in Hx. subst r. apply IH.
Qed.

(** A pool returns when all its tasks are over, whatever became of them. *)
Lemma executor_map_returns {S T} sched (task : T → M S unit) batch s :
  (executor_map sched task batch s).1 = Ok tt.
Proof. apply for_each_swallow_returns. Qed.

Lemma auto_cast_characters_returns svc sched cfg text w :
  (auto_cast_characters svc sched cfg text w).1 = Ok tt.
Proof.
  unfold auto_cast_characters, generate_json_with_schema. mstep.
  destruct (reference_characters_enabled cfg); mstep; [|done].
  case_bool_decide; [done|]. apply executor_map_returns.
Qed.

(** The relation of two worlds with the same list of refined scenes. *)
Definition same_scenes (w w' : world) : Prop := all_scenes w' = all_scenes w.

Global Instance same_scenes_refl : Reflexive same_scenes.
Proof. by intros w. Qed.
Global Instance same_scenes_trans : Transitive same_scenes.
Proof. intros w1 w2 w3 H12 H23. unfold same_scenes in *. congruence. Qed.

Lemma keeps_scenes_analyze svc x :
  keeps same_scenes (analyze_scenes_for_episode svc x).
Proof.
  destruct x as [ec ep]. unfold analyze_scenes_for_episode, generate_json_with_schema.
  k_apply keeps_bind; [|intros data; k_apply keeps_modify; by intros []].
  k_apply keeps_bind; [k_apply keeps_gets|intros t].
  k_apply keeps_bind; [k_apply keeps_modify; by intros []|intros _].
  k_apply keeps_ret.
Qed.

Lemma batch_scenes_counters episode_counter k scs :
  scene_counter_of <$> (batch_scenes episode_counter k scs).2
  = seqZ (k + 1) (Z.of_nat (length scs))
  ∧ (batch_scenes episode_counter k scs).1 = k + Z.of_nat (length scs).
Proof.
  revert k; induction scs as [|sc scs IH]; intros k.
  - split; [done|simpl; lia].
  - cbn [batch_scenes]. destruct (IH (k + 1)) as [IH1 IH2].
    destruct (batch_scenes episode_counter (k + 1) scs) as [n rest].
    cbn [fst snd] in *. split; [|rewrite IH2, length_cons; lia].
    rewrite fmap_cons, IH1, length_cons, (seqZ_cons (k + 1)) by lia.
    unfold scene_counter_of at 1. cbn [fst snd]. f_equal. f_equal; lia.
Qed.

(** The loop that collects [batch_refinement] counts the scenes one by one,
    through all the episodes. *)
Lemma batch_refinement_from_run k l w :
  ∃ batch w',
    batch_refinement_from k l w = (Ok batch, w')
    ∧ all_scenes w' = all_scenes w
    ∧ scene_counter_of <$> batch = seqZ (k + 1) (Z.of_nat (length batch)).
Proof.
  revert k w; induction l as [|[ec data] l IH]; intros k w.
  - exists [], w. by repeat split.
  - cbn [batch_refinement_from]. mstep.
    destruct (batch_scenes_counters ec k (default [] data)) as [Hc Hn].
    destruct (batch_scenes ec k (default [] data)) as [n batch]. simpl in Hc, Hn.
    destruct (IH n (set_files (insert (episode_file ec) (ScenesJson data)) w))
      as (batch' & w' & Hrun & Hscenes & Hc').
    rewrite bind_run, Hrun. mstep.
    exists (batch ++ batch'), w'. split; [done|]. split; [by destruct w|].
    rewrite fmap_app, length_app, Nat2Z.inj_add, seqZ_app by lia.
    rewrite Hc, Hc'.
    assert (length batch = length (default [] data)) as ->.
    { apply (f_equal length) in Hc. by rewrite length_fmap, length_seqZ, Nat2Z.id in Hc. }
    f_equal. f_equal. lia.
Qed.

Lemma renumber_reversible k ps :
  Forall schema_panel ps → Forall reversible (renumber k ps).
Proof.
  intros Hall. revert k. induction Hall as [|p ps (Hs & He & Hm) _ IH]; intros k.
  - constructor.
  - cbn [renumber]. constructor; [|apply IH].
    assert (Hkeep : ∀ key dflt (q : panel) key',
              is_Some (q !! key') → setdefault key dflt q !! key' = q !! key'
                                    ∨ key = key').
    { intros key dflt q key' _. unfold setdefault.
      destruct (q !! key) eqn:Hq; [by left|].
      destruct (decide (key = key')) as [->|Hne]; [by right|].
      left. by rewrite lookup_insert_ne. }
    assert (Hsome : ∀ key dflt (q : panel) key',
              is_Some (q !! key') → is_Some (setdefault key dflt q !! key')).
    { intros key dflt q key' Hq. unfold setdefault.
      destruct (q !! key) eqn:Hk; [done|].
      destruct (decide (key = key')) as [->|Hne].
      - rewrite lookup_insert_eq. eauto.
      - by rewrite lookup_insert_ne. }
    split; [|repeat split; do 2 apply Hsome; by rewrite lookup_insert_ne].
    exists (k + 1). unfold setdefault.
    repeat (case_match; simplify_map_eq; try done).
Qed.

(** A refinement task whose call succeeds appends one scene, with the
    number it was given. *)
Lemma refine_single_scene_appends svc x w :
  refinements_succeed svc →
  ∃ s w',
    refine_single_scene svc x w = (Ok tt, w')
    ∧ all_scenes w' = all_scenes w ++ [s]
    ∧ scene_id s = Some (scene_counter_of x).
Proof.
  intros Hsvc. destruct x as [[ec scn] draft].
  unfold refine_single_scene, refine_scenes_for_episode.
  destruct (Hsvc (trace w) ec scn draft) as (refined & rest & ps & Hreply & Hps & Hschema).
  rewrite bind_run.
  erewrite retry_on_errors_ok;
    [|lia|unfold acquire, generate_json_with_schema; mstep; reflexivity].
  rewrite Hreply.
  change (default [] (default None (Some (Some (refined :: rest)))))
    with (refined :: rest).
  cbv iota. rewrite Hps.
  set (w1 := set_trace _ w).
  set (sc := Scene (Some scn) (location refined)
                   (pre_action_description refined) (Some (renumber 0 ps))).
  destruct (apply_reversal_pass_run svc sc (renumber 0 ps) w1 eq_refl)
    as [w2 Hrun].
  { eapply Forall_impl; [by apply renumber_reversible|]. by intros p Hp _. }
  assert (Hw2 : all_scenes w2 = all_scenes w).
  { assert (keeps same_scenes (apply_reversal_pass svc sc)) as Hk.
    { unfold apply_reversal_pass.
      apply keeps_if; [k_apply keeps_ret|].
      k_apply keeps_bind.
      - unfold retry_on_errors. generalize 0.
        induction (Z.to_nat 3) as [|fuel IHf]; intros r0; [k_apply keeps_ret|].
        cbn [retry_loop]. apply keeps_if; [|k_apply keeps_ret].
        k_apply keeps_try_except.
        + k_apply keeps_bind; [|intros; k_apply keeps_ret].
          unfold acquire, generate_json_with_schema.
          k_apply keeps_bind; [k_apply keeps_ret|intros _].
          k_apply keeps_bind; [k_apply keeps_gets|intros t].
          k_apply keeps_bind; [k_apply keeps_modify; by intros []|intros _].
          k_apply keeps_ret.
        + intros e. apply keeps_if; [|k_apply keeps_raise].
          apply keeps_if.
          * k_apply keeps_bind; [k_apply keeps_modify; by intros []|intros _].
            k_apply keeps_raise.
          * k_apply keeps_bind; [k_apply keeps_modify; by intros []|intros _].
            apply IHf.
      - intros [[|item items]|].
        + k_apply keeps_bind; [k_apply keeps_modify; by intros []|intros _].
          k_apply keeps_ret.
        + destruct (panels sc); [|k_apply keeps_ret].
          k_apply keeps_bind; [|intros; k_apply keeps_ret].
          k_apply keeps_for_list. intros p _.
          apply stateless_keeps; [apply _|].
          unfold reverse_panel. destruct (is_reversed p); [|apply stateless_ret].
          apply stateless_bind; [apply stateless_getitem|intros v].
          apply stateless_bind.
          { destruct v; (apply stateless_ret || apply stateless_raise). }
          intros [txt|]; [|apply stateless_ret].
          repeat (apply stateless_bind; [apply stateless_getitem|intros ?]).
          apply stateless_ret.
        + k_apply keeps_bind; [k_apply keeps_modify; by intros []|intros _].
          k_apply keeps_ret. }
    rewrite (Hk w1 _ w2 Hrun). by destruct w. }
  rewrite bind_run, Hrun. mstep.
  eexists (set_panels _ sc), _. split; [reflexivity|].
  split; [|reflexivity]. destruct w2; simpl in *. by rewrite Hw2.
Qed.

Lemma executor_map_appends {T} sched (task : T → M world unit)
    (id : T → Z) batch w :
  (∀ x w, ∃ s w', task x w = (Ok tt, w')
                  ∧ all_scenes w' = all_scenes w ++ [s]
                  ∧ scene_id s = Some (id x)) →
  ∃ w', executor_map sched task batch w = (Ok tt, w')
        ∧ scene_id <$> all_scenes w'
          = (scene_id <$> all_scenes w)
              ++ ((λ x, Some (id x)) <$> completion_order sched batch).
Proof.
  intros Htask. unfold executor_map.
  revert w; induction (completion_order sched batch) as [|x l IH]; intros w.
  - exists w. split; [done|]. by rewrite app_nil_r.
  - destruct (Htask x w) as (s & w1 & Hx & Hs & Hid).
    destruct (IH w1) as (w' & Hl & Hids).
    exists w'. cbn [for_each]. rewrite bind_run. unfold swallow at 1, try_except.
    rewrite Hx. split; [done|].
    rewrite Hids, Hs, fmap_app, fmap_cons, <- app_assoc. simpl. by rewrite Hid.
Qed.

Lemma seqZ_ascending m (n : nat) : StronglySorted Z.le (seqZ m (Z.of_nat n)).
Proof.
  revert m; induction n as [|n IH]; intros m; [constructor|].
  rewrite seqZ_cons by lia.
  replace (Z.pred (Z.of_nat (S n))) with (Z.of_nat n) by lia.
  constructor; [apply IH|].
  apply Forall_forall. intros x Hx. apply elem_of_seqZ in Hx. lia.
Qed.

(** A list of numbered scenes that holds each of the numbers from [1] to
    [n] once comes out of the sort as the numbers from [1] to [n]. *)
Lemma sorted_scene_ids (refined : list scene) (n : nat) :
  scene_id <$> refined ≡ₚ Some <$> seqZ 1 (Z.of_nat n) →
  scene_id <$> sorted scene_key refined = Some <$> seqZ 1 (Z.of_nat n).
Proof.
  intros Hperm.
  assert (Hsome : Forall (λ s, scene_id s = Some (scene_key s)) refined).
  { apply Forall_forall. intros s Hs.
    assert (scene_id s ∈ Some <$> seqZ 1 (Z.of_nat n)) as Hin.
    { rewrite <- Hperm. by apply list_elem_of_fmap_2. }
    apply list_elem_of_fmap in Hin as (z & Hz & _).
    unfold scene_key. by rewrite Hz. }
  assert (Hids : ∀ l, Forall (λ s, scene_id s = Some (scene_key s)) l →
                      scene_id <$> l = Some <$> (scene_key <$> l)).
  { induction 1 as [|s l Hs _ IH]; [done|]. by rewrite !fmap_cons, Hs, IH. }
  rewrite Hids by (by rewrite sorted_perm).
  f_equal. apply (StronglySorted_unique Z.le).
  - eapply (StronglySorted_fmap _ (λ a b, scene_key a ≤ scene_key b));
      [by intros x y|apply sorted_ascending].
  - apply seqZ_ascending.
  - trans (default 0 <$> (scene_id <$> sorted scene_key refined)).
    { by rewrite <- list_fmap_compose. }
    rewrite sorted_perm, Hperm, <- list_fmap_compose.
    erewrite (list_fmap_ext _ id); [by rewrite list_fmap_id|done].
Qed.

Lemma for_each_numbered (refined : list scene) (w : world) :
  Forall (λ s, is_Some (scene_id s)) refined →
  for_each refined (λ s : scene, if scene_id s is Some _ then mret tt
                                 else raise (KeyError "scene_id") : M world unit) w
  = (Ok tt, w).
Proof.
  induction 1 as [|s l [z Hz] _ IH]; [done|].
  cbn [for_each]. by rewrite bind_run, Hz.
Qed.


(** * Further properties *)

(** ** Slicing, a cell at a time *)

Lemma bind_singleton_fmap {A B} (f : A → B) (l : list A) :
  (l ≫= λ x, [f x]) = f <$> l.
Proof. induction l as [|x l IH]; [done|]. by rewrite bind_cons, fmap_cons, IH. Qed.

Lemma cells_lookup rows cols (k : nat) :
  0 < cols → Z.of_nat k < rows * cols →
  cells rows cols !! k = Some (Z.of_nat k / cols, Z.of_nat k mod cols).
Proof.
  intros Hcols Hk. unfold cells, range.
  assert (Hrow : ∀ (r : Z) (j : nat), Z.of_nat j < cols →
            (seqZ 0 cols ≫= λ c, [(r, c)]) !! j = Some (r, Z.of_nat j)).
  { intros r j Hj. rewrite (bind_singleton_fmap (λ c : Z, (r, c))), list_lookup_fmap.
    by rewrite lookup_seqZ_lt. }
  assert (Hlen : ∀ r : Z, length (seqZ 0 cols ≫= λ c, [(r, c)]) = Z.to_nat cols).
  { intros r. by rewrite length_bind_pair, length_seqZ. }
  assert (Hgen : ∀ (m : nat) (a : Z) (k : nat),
            Z.of_nat k < Z.of_nat m * cols →
            (seqZ a (Z.of_nat m) ≫= λ r, seqZ 0 cols ≫= λ c, [(r, c)]) !! k
            = Some (a + Z.of_nat k / cols, Z.of_nat k mod cols)).
  { clear k Hk. induction m as [|m IH]; intros a k Hk; [lia|].
    rewrite (seqZ_cons a) by lia. rewrite bind_cons.
    replace (Z.pred (Z.of_nat (S m))) with (Z.of_nat m) by lia.
    destruct (decide (Z.of_nat k < cols)) as [Hlt|Hge].
    - rewrite lookup_app_l by (rewrite Hlen; lia).
      rewrite Hrow by done. rewrite Z.div_small, Z.mod_small by lia.
      f_equal. f_equal. lia.
    - rewrite lookup_app_r by (rewrite Hlen; lia). rewrite Hlen.
      rewrite IH by nia.
      replace (Z.of_nat (k - Z.to_nat cols)) with (Z.of_nat k - cols) by lia.
      replace (Z.of_nat k) with ((Z.of_nat k - cols) + 1 * cols) at 3 4 by lia.
      rewrite Z.div_add, Z.mod_add by lia. f_equal. f_equal. lia. }
  assert (0 < rows) by nia.
  specialize (Hgen (Z.to_nat rows) 0 k).
  rewrite Z2Nat.id in Hgen by lia. rewrite Hgen by done. done.
Qed.

Lemma single_step_done img sid pw ph panels idx out l :
  panels < idx → foldl (single_step img sid pw ph panels) (idx, out) l = (idx, out).
Proof.
  intros Hgt. induction l as [|rc l IH]; [done|]. cbn [foldl].
  unfold single_step at 2. cbn [fst snd].
  destruct (Z.gtb_spec idx panels); [done|lia].
Qed.

Lemma slice_single_row_fold img sid pw ph panels r cs st :
  slice_single_row img sid pw ph panels r cs st
  = foldl (single_step img sid pw ph panels) st (cs ≫= λ c, [(r, c)]).
Proof.
  revert st; induction cs as [|c cs IH]; intros [idx out]; [done|].
  rewrite bind_cons. cbn [slice_single_row app foldl].
  unfold single_step at 2. cbn [fst snd].
  destruct (Z.gtb_spec idx panels) as [Hgt|Hle].
  - by rewrite single_step_done by lia.
  - by rewrite IH.
Qed.

Lemma slice_single_rows_fold img sid pw ph panels cols rs st :
  foldl (λ st r, slice_single_row img sid pw ph panels r (range cols) st) st rs
  = foldl (single_step img sid pw ph panels) st
          (rs ≫= λ r, range cols ≫= λ c, [(r, c)]).
Proof.
  revert st; induction rs as [|r rs IH]; intros st; [done|].
  cbn [foldl]. by rewrite bind_cons, foldl_app, IH, slice_single_row_fold.
Qed.

Lemma single_step_closed img sid pw ph panels l idx out :
  idx ≤ panels + 1 →
  (foldl (single_step img sid pw ph panels) (idx, out) l).2
  = out ++ (named_crop img sid pw ph 0 "static"
              <$> take (Z.to_nat (panels + 1 - idx)) (number_from idx l)).
Proof.
  revert idx out; induction l as [|rc l IH]; intros idx out Hidx.
  - simpl. by rewrite take_nil, app_nil_r.
  - cbn [foldl]. unfold single_step at 2. cbn [fst snd].
    destruct (Z.gtb_spec idx panels) as [Hgt|Hle].
    + rewrite single_step_done by lia.
      replace (Z.to_nat (panels + 1 - idx)) with 0%nat by lia.
      simpl. by rewrite app_nil_r.
    + rewrite IH by lia. cbn [number_from].
      replace (Z.to_nat (panels + 1 - idx))
        with (S (Z.to_nat (panels + 1 - (idx + 1)))) by lia.
      cbn [take fmap list_fmap]. by rewrite <- app_assoc.
Qed.

Lemma slice_combined_single_closed img w h sid cfg cols rows :
  image_size img = (w, h) → is_dual_grid cfg = false →
  grid_dims (panels_per_scene cfg) = (cols, rows) →
  0 ≤ panels_per_scene cfg →
  slice_combined img sid cfg
  = named_crop img sid (w / cols) (h / rows) 0 "static"
      <$> take (Z.to_nat (panels_per_scene cfg)) (number_from 1 (cells rows cols)).
Proof.
  intros Hsize Hdual Hdims Hn. unfold slice_combined.
  rewrite Hsize, Hdims, Hdual, slice_single_rows_fold.
  rewrite single_step_closed by lia. simpl. do 2 f_equal. lia.
Qed.

Lemma gate_step_done img pw ph n out l :
  n ≤ Z.of_nat (length out) → foldl (gate_step img pw ph n) out l = out.
Proof.
  intros Hge. induction l as [|rc l IH]; [done|]. cbn [foldl].
  unfold gate_step at 2. destruct (Z.geb_spec (Z.of_nat (length out)) n); [done|lia].
Qed.

Lemma slice_row_fold img pw ph n r cs out :
  QualityGate.slice_row img pw ph n r cs out
  = foldl (gate_step img pw ph n) out (cs ≫= λ c, [(r, c)]).
Proof.
  revert out; induction cs as [|c cs IH]; intros out; [done|].
  rewrite bind_cons. cbn [QualityGate.slice_row app foldl].
  unfold gate_step at 2. cbn [fst snd].
  destruct (Z.geb_spec (Z.of_nat (length out)) n) as [Hge|Hlt].
  - by rewrite gate_step_done by lia.
  - by rewrite IH.
Qed.

Lemma slice_rows_fold img pw ph n cols rs out :
  foldl (λ panels r, QualityGate.slice_row img pw ph n r (range cols) panels) out rs
  = foldl (gate_step img pw ph n) out (rs ≫= λ r, range cols ≫= λ c, [(r, c)]).
Proof.
  revert out; induction rs as [|r rs IH]; intros out; [done|].
  cbn [foldl]. by rewrite bind_cons, foldl_app, IH, slice_row_fold.
Qed.

Lemma gate_step_closed img pw ph n l out :
  foldl (gate_step img pw ph n) out l
  = out ++ ((λ rc : Z * Z, Crop (cell pw ph 0 rc.1 rc.2) img)
              <$> take (Z.to_nat (n - Z.of_nat (length out))) l).
Proof.
  revert out; induction l as [|rc l IH]; intros out.
  - simpl. by rewrite take_nil, app_nil_r.
  - cbn [foldl]. unfold gate_step at 2.
    destruct (Z.geb_spec (Z.of_nat (length out)) n) as [Hge|Hlt].
    + rewrite gate_step_done by lia.
      replace (Z.to_nat (n - Z.of_nat (length out))) with 0%nat by lia.
      simpl. by rewrite app_nil_r.
    + rewrite IH, length_app. simpl.
      replace (Z.to_nat (n - Z.of_nat (length out)))
        with (S (Z.to_nat (n - Z.of_nat (length out + 1)))) by lia.
      cbn [take fmap list_fmap]. by rewrite <- app_assoc.
Qed.

Lemma slice_grid_single_closed img w h n cols rows :
  image_size img = (w, h) → grid_dims n = (cols, rows) →
  QualityGate.slice_grid img n false
  = (λ rc : Z * Z, Crop (cell (w / cols) (h / rows) 0 rc.1 rc.2) img)
      <$> take (Z.to_nat n) (cells rows cols).
Proof.
  intros Hsize Hdims. unfold QualityGate.slice_grid.
  rewrite Hsize, Hdims, slice_rows_fold, gate_step_closed. simpl.
  do 2 f_equal. lia.
Qed.

(** The grid has room for every panel, and less than a row to spare
    when the count is not one of the three it knows. *)
Lemma grid_dims_room n cols rows :
  0 < n → grid_dims n = (cols, rows) → n ≤ cols * rows < n + 3.
Proof.
  unfold grid_dims. intros Hn.
  repeat case_match; intros [= <- <-]; try lia.
  pose proof (Z.div_mod (n + 2) 3 ltac:(lia)).
  pose proof (Z.mod_pos_bound (n + 2) 3 ltac:(lia)). lia.
Qed.

Lemma number_from_cells_lookup rows cols idx :
  0 < cols → 1 ≤ idx ≤ rows * cols →
  number_from 1 (cells rows cols) !! Z.to_nat (idx - 1)
  = Some (idx, ((idx - 1) / cols, (idx - 1) mod cols)).
Proof.
  intros Hcols Hidx. apply number_from_lookup. split; [lia|].
  rewrite cells_lookup by lia. by rewrite Z2Nat.id by lia.
Qed.




(** X4. The gate cuts a single grid into exactly [panels_count] images,
    and every image it cuts, from either kind of grid, is a cell of equal
    size that lies inside the composite. *)
Theorem gate_crops_lie_in_the_image
    (img : image) (w h n cols rows : Z) (is_dual : bool) :
  image_size img = (w, h) → 0 ≤ w → 0 ≤ h → 0 < n →
  grid_dims n = (cols, rows) →
  let pw := w / cols in
  let ph := (if is_dual then h / 2 else h) / rows in
  (is_dual = false →
   length (QualityGate.slice_grid img n is_dual) = Z.to_nat n)
  ∧ (is_dual = true →
     length (QualityGate.slice_grid img n is_dual) = Z.to_nat (cols * rows))
  ∧ ∀ crop, crop ∈ QualityGate.slice_grid img n is_dual →
      ∃ b, crop = Crop b img ∧ box_size b = (pw, ph)
           ∧ 0 ≤ b_left b ∧ b_right b ≤ w
           ∧ 0 ≤ b_upper b ∧ b_lower b ≤ (if is_dual then h / 2 else h).
Proof.
  intros Hsize Hw Hh Hn Hdims pw ph.
  destruct (grid_dims_rows_pos _ _ _ Hn Hdims) as [Hrows Hcols].
  pose proof (grid_dims_room _ _ _ Hn Hdims) as Hroom.
  assert (Hcell : ∀ hh r c, 0 ≤ hh → 0 ≤ r < rows → 0 ≤ c < cols →
            let b := cell (w / cols) (hh / rows) 0 r c in
            box_size b = (w / cols, hh / rows)
            ∧ 0 ≤ b_left b ∧ b_right b ≤ w ∧ 0 ≤ b_upper b ∧ b_lower b ≤ hh).
  { intros hh r c Hhh Hr Hc. simpl.
    assert (0 ≤ w / cols) by (apply Z.div_pos; lia).
    assert (0 ≤ hh / rows) by (apply Z.div_pos; lia).
    assert (cols * (w / cols) ≤ w) by (apply Z.mul_div_le; lia).
    assert (rows * (hh / rows) ≤ hh) by (apply Z.mul_div_le; lia).
    assert ((c + 1) * (w / cols) ≤ cols * (w / cols))
      by (apply Z.mul_le_mono_nonneg_r; lia).
    assert ((r + 1) * (hh / rows) ≤ rows * (hh / rows))
      by (apply Z.mul_le_mono_nonneg_r; lia).
    assert (0 ≤ c * (w / cols)) by (apply Z.mul_nonneg_nonneg; lia).
    assert (0 ≤ r * (hh / rows)) by (apply Z.mul_nonneg_nonneg; lia).
    unfold box_size; simpl. split; [f_equal; lia|]. lia. }
  split; [|split].
  - intros ->. rewrite (slice_grid_single_closed img w h n cols rows) by done.
    rewrite length_fmap, length_take, length_cells. nia.
  - intros ->. unfold QualityGate.slice_grid. rewrite Hsize, Hdims.
    rewrite slice_top_half_closed, length_fmap, length_cells. nia.
  - intros crop Hcrop. subst pw ph. destruct is_dual.
    + unfold QualityGate.slice_grid in Hcrop. rewrite Hsize, Hdims in Hcrop.
      rewrite slice_top_half_closed in Hcrop.
      apply list_elem_of_fmap in Hcrop as ([r c] & -> & Hrc).
      apply cells_elem in Hrc as [Hr Hc]. eexists. split; [reflexivity|].
      apply Hcell; simpl; [apply Z.div_pos; lia|lia|lia].
    + rewrite (slice_grid_single_closed img w h n cols rows) in Hcrop by done.
      apply list_elem_of_fmap in Hcrop as ([r c] & -> & Hrc).
      apply elem_of_take in Hrc as (i & Hrc & _).
      apply list_elem_of_lookup_2, cells_elem in Hrc as [Hr Hc].
      eexists. split; [reflexivity|]. apply Hcell; simpl; lia.
Qed.

(** ** Strings, character by character *)

Lemma smap_smap f g s : smap f (smap g s) = smap (λ c, f (g c)) s.
Proof. induction s as [|c s IH]; simpl; [done|]. by rewrite IH. Qed.

Lemma smap_ext f g s : (∀ c, f c = g c) → smap f s = smap g s.
Proof. intros H. induction s as [|c s IH]; simpl; [done|]. by rewrite H, IH. Qed.

Lemma lower_smap s : Py.lower s = smap Py.lower_char s.
Proof. induction s as [|c s IH]; simpl; [done|]. by rewrite IH. Qed.

(** Replacing a character by a character *)
Lemma replace_char_smap a b s :
  Py.replace (String a EmptyString) (String b EmptyString) s
  = smap (λ c, if Ascii.eqb a c then b else c) s.
Proof.
  unfold Py.replace. induction s as [|c s IH]; [done|].
  cbn [Py.replace_go String.prefix String.length Nat.sub smap].
  destruct (ascii_dec a c) as [->|Hne].
  - rewrite Ascii.eqb_refl.
    assert (String.prefix EmptyString s = true) as -> by (by destruct s).
    simpl. by rewrite IH.
  - destruct (Ascii.eqb_spec a c); [done|]. by rewrite IH.
Qed.

Lemma catalog_norm_smap s : QualityGate.catalog_norm s = smap norm_char s.
Proof.
  unfold QualityGate.catalog_norm.
  rewrite lower_smap, !replace_char_smap, !smap_smap. done.
Qed.

Lemma catalog_norm_idemp s :
  QualityGate.catalog_norm (QualityGate.catalog_norm s) = QualityGate.catalog_norm s.
Proof.
  rewrite !catalog_norm_smap, smap_smap. apply smap_ext.
  intros [[] [] [] [] [] [] [] []]; vm_compute; reflexivity.
Qed.

(** ** The catalog of the gate *)

Section Catalog.
Import QualityGate.

Lemma load_ref_file_run ref_dir png_exists x c :
  load_ref_file ref_dir png_exists x c
  = if bool_decide (x.2 = NotAnObject) then (Raise AttributeError, c)
    else (Ok tt, catalog_step ref_dir png_exists c x).
Proof.
  unfold load_ref_file, catalog_step, ref_name. destruct x as [stem [| |d]]; simpl; try done.
  rewrite bind_run. simpl. case_bool_decide as Hne; simpl; [done|].
  rewrite Hne at 1. by rewrite insert_insert_eq.
Qed.

Lemma for_each_load_run ref_dir png_exists files c :
  (Forall (λ x, x.2 ≠ NotAnObject) files →
   for_each files (load_ref_file ref_dir png_exists) c
   = (Ok tt, foldl (catalog_step ref_dir png_exists) c files))
  ∧ (Exists (λ x, x.2 = NotAnObject) files →
     (for_each files (load_ref_file ref_dir png_exists) c).1 = Raise AttributeError).
Proof.
  revert c; induction files as [|x l IH]; intros c.
  - split; [done|]. by intros ?%Exists_nil.
  - cbn [for_each foldl]. rewrite bind_run, load_ref_file_run.
    case_bool_decide as Hx.
    + split; [intros [? _]%Forall_cons; done|done].
    + split.
      * intros [_ Hl]%Forall_cons. by apply IH.
      * intros [?|Hl]%Exists_cons; [done|]. by apply IH.
Qed.

Lemma load_ref_catalog_ok ref_dir files png_exists catalog :
  load_ref_catalog ref_dir (Some files) png_exists = Ok catalog →
  catalog = foldl (catalog_step ref_dir png_exists) ∅ files.
Proof.
  unfold load_ref_catalog.
  destruct (Forall_Exists_dec (λ x : string * ref_file, x.2 ≠ NotAnObject)
              (λ x, x.2 = NotAnObject) (λ x, match decide (x.2 = NotAnObject) with
                                             | left H => right H
                                             | right H => left H
                                             end) files) as [Hall|Hex].
  - rewrite (proj1 (for_each_load_run ref_dir png_exists files ∅) Hall).
    by intros [= <-].
  - pose proof (proj2 (for_each_load_run ref_dir png_exists files ∅) Hex) as Hr.
    destruct (for_each _ _ _) as [[[]|e] c']; simpl in Hr; done.
Qed.

Lemma find_ref_candidates q catalog key :
  q = key ∨ query_norm q = key ∨ title_norm q = key →
  is_Some (catalog !! key) → is_Some (find_ref q catalog).
Proof.
  intros Hq [e He]. unfold find_ref.
  destruct (catalog !! q) eqn:H1; [eauto|].
  fold (catalog_norm q). fold (query_norm q).
  destruct (catalog !! query_norm q) eqn:H2; [eauto|].
  fold (title_norm q).
  destruct Hq as [->|[<-|<-]]; [congruence|congruence|eauto].
Qed.

Lemma catalog_step_keeps ref_dir png_exists x c k :
  is_Some (c !! k) → is_Some (catalog_step ref_dir png_exists c x !! k).
Proof.
  intros Hk. unfold catalog_step. destruct (x.2); try done.
  rewrite !lookup_insert_is_Some'. tauto.
Qed.

Lemma catalog_fold_keeps ref_dir png_exists l c k :
  is_Some (c !! k) → is_Some (foldl (catalog_step ref_dir png_exists) c l !! k).
Proof.
  revert c; induction l as [|x l IH]; intros c Hk; [done|].
  cbn [foldl]. by apply IH, catalog_step_keeps.
Qed.

Lemma catalog_fold_has ref_dir png_exists l c stem data key :
  (stem, JsonObject data) ∈ l →
  key = ref_name (stem, data) ∨ key = catalog_norm (ref_name (stem, data)) →
  is_Some (foldl (catalog_step ref_dir png_exists) c l !! key).
Proof.
  revert c; induction l as [|x l IH]; intros c Hin Hkey;
    [by apply elem_of_nil in Hin|].
  cbn [foldl]. apply elem_of_cons in Hin as [<-|Hin]; [|by apply IH].
  apply catalog_fold_keeps. unfold catalog_step. simpl.
  rewrite !lookup_insert_is_Some'. destruct Hkey as [->| ->]; tauto.
Qed.

(** X5. A reference of the directory is found under its name and under
    every spelling that [find_ref] normalises to its name or to its
    normalised name. *)
Theorem reference_is_found_under_its_spellings
    (ref_dir : string) (files : list (string * ref_file))
    (png_exists : string → bool) (catalog : gmap string ref_entry)
    (stem : string) (data : ref_json) (q key : string) :
  load_ref_catalog ref_dir (Some files) png_exists = Ok catalog →
  (stem, JsonObject data) ∈ files →
  key = default stem (json_name data)
  ∨ key = catalog_norm (default stem (json_name data)) →
  q = key ∨ query_norm q = key ∨ title_norm q = key →
  is_Some (find_ref q catalog).
Proof.
  intros Hload Hin Hkey Hq. apply load_ref_catalog_ok in Hload as ->.
  eapply find_ref_candidates; [exact Hq|].
  by eapply catalog_fold_has.
Qed.

Lemma objects_app l1 l2 : objects (l1 ++ l2) = objects l1 ++ objects l2.
Proof. apply omap_app. Qed.

Lemma objects_elem stem data files :
  (stem, data) ∈ objects files ↔ (stem, JsonObject data) ∈ files.
Proof.
  unfold objects. rewrite list_elem_of_omap. split.
  - intros ([s f] & Hin & Hx). simpl in Hx. destruct f; simplify_eq. done.
  - intros Hin. by exists (stem, JsonObject data).
Qed.

Lemma catalog_fold_exact ref_dir png_exists files x :
  NoDup (catalog_norm ∘ ref_name <$> objects files) →
  x ∈ objects files →
  let catalog := foldl (catalog_step ref_dir png_exists) ∅ files in
  catalog !! ref_name x = Some (catalog_entry ref_dir png_exists x.1 x.2)
  ∧ catalog !! catalog_norm (ref_name x)
    = Some (catalog_entry ref_dir png_exists x.1 x.2).
Proof.
  induction files as [|y l IH] using rev_ind; intros Hnd Hin;
    [by apply elem_of_nil in Hin|].
  rewrite objects_app, fmap_app in Hnd. rewrite objects_app in Hin.
  apply NoDup_app in Hnd as (Hnd & Hdisj & _).
  cbv zeta. rewrite foldl_snoc. unfold catalog_step at 1 3.
  destruct y as [stem [| |d]]; simpl in *;
    try (rewrite app_nil_r in Hin; by apply IH).
  apply elem_of_app in Hin as [Hin|Hin].
  - assert (Hne : catalog_norm (ref_name x) ≠ catalog_norm (ref_name (stem, d))).
    { intros Heq. apply (Hdisj (catalog_norm (ref_name x))).
      - apply list_elem_of_fmap. by exists x.
      - rewrite Heq. simpl. left. }
    destruct (IH Hnd Hin) as [IH1 IH2].
    assert (ref_name (stem, d) ≠ ref_name x) by congruence.
    assert (catalog_norm (ref_name (stem, d)) ≠ ref_name x).
    { intros Heq. apply Hne. by rewrite <- Heq, catalog_norm_idemp. }
    assert (ref_name (stem, d) ≠ catalog_norm (ref_name x)).
    { intros Heq. apply Hne. by rewrite Heq, catalog_norm_idemp. }
    assert (catalog_norm (ref_name (stem, d)) ≠ catalog_norm (ref_name x))
      by congruence.
    by rewrite !lookup_insert_ne by done.
  - apply list_elem_of_singleton in Hin as ->. simpl.
    rewrite lookup_insert_eq. split; [|done].
    destruct (decide (catalog_norm (ref_name (stem, d)) = ref_name (stem, d)))
      as [Heq|Hne].
    + rewrite Heq. by rewrite lookup_insert_eq.
    + rewrite lookup_insert_ne by done. by rewrite lookup_insert_eq.
Qed.


Lemma catalog_fold_sound ref_dir png_exists files c k e :
  foldl (catalog_step ref_dir png_exists) c files !! k = Some e →
  c !! k = Some e
  ∨ ∃ stem data, (stem, JsonObject data) ∈ files
      ∧ e = catalog_entry ref_dir png_exists stem data.
Proof.
  revert c; induction files as [|x l IH]; intros c; [by left|].
  cbn [foldl]. intros Hk. apply IH in Hk as [Hk|(stem & data & Hin & ->)].
  - unfold catalog_step in Hk. destruct x as [stem [| |d]]; simpl in Hk;
      [by left|by left|].
    apply lookup_insert_Some in Hk as [[_ <-]|[_ Hk]];
      [right; exists stem, d; split; [left|done]|].
    apply lookup_insert_Some in Hk as [[_ <-]|[_ Hk]];
      [right; exists stem, d; split; [left|done]|by left].
  - right. exists stem, data. split; [by right|done].
Qed.

(** X7. Whatever [find_ref] returns from a loaded catalog is the entry
    of an object file of the directory; its image path, when it has one,
    is the path of the image beside that file, and that image exists. *)
Theorem find_ref_returns_a_reference
    (ref_dir : string) (files : list (string * ref_file))
    (png_exists : string → bool) (catalog : gmap string ref_entry)
    (q : string) (entry : ref_entry) :
  load_ref_catalog ref_dir (Some files) png_exists = Ok catalog →
  find_ref q catalog = Some entry →
  ∃ stem data,
    (stem, JsonObject data) ∈ files
    ∧ entry = catalog_entry ref_dir png_exists stem data
    ∧ ∀ p, img_path entry = Some p →
        p = ref_dir +:+ stem +:+ ".png" ∧ png_exists p = true.
Proof.
  intros Hload Hfind. apply load_ref_catalog_ok in Hload as ->.
  assert (∃ k, foldl (catalog_step ref_dir png_exists) ∅ files !! k = Some entry)
    as [k Hk].
  { unfold find_ref in Hfind. repeat case_match; simplify_eq; eauto. }
  apply catalog_fold_sound in Hk as [Hk|(stem & data & Hin & ->)];
    [by rewrite lookup_empty in Hk|].
  exists stem, data. split; [done|]. split; [done|].
  intros p. unfold catalog_entry. simpl.
  destruct (png_exists _) eqn:Hex; [|done]. by intros [= <-].
Qed.

(** X8. A file that cannot be read or parsed is skipped; a file that
    parses to something that is not an object aborts the load with an
    [AttributeError]; and a directory that does not exist gives the empty
    catalog. *)
Theorem load_ref_catalog_outcome
    (ref_dir : string) (files : list (string * ref_file))
    (png_exists : string → bool) :
  load_ref_catalog ref_dir None png_exists = Ok ∅
  ∧ load_ref_catalog ref_dir (Some files) png_exists
    = load_ref_catalog ref_dir
        (Some (filter (λ x, x.2 ≠ BadJson) files)) png_exists
  ∧ ((∃ stem, (stem, NotAnObject) ∈ files) ↔
     load_ref_catalog ref_dir (Some files) png_exists = Raise AttributeError)
  ∧ ((∀ stem, (stem, NotAnObject) ∉ files) ↔
     ∃ catalog, load_ref_catalog ref_dir (Some files) png_exists = Ok catalog).
Proof.
  split; [done|].
  assert (Hcases : (Forall (λ x : string * ref_file, x.2 ≠ NotAnObject) files
                    ∧ load_ref_catalog ref_dir (Some files) png_exists
                      = Ok (foldl (catalog_step ref_dir png_exists) ∅ files))
                   ∨ (Exists (λ x : string * ref_file, x.2 = NotAnObject) files
                      ∧ load_ref_catalog ref_dir (Some files) png_exists
                        = Raise AttributeError)).
  { unfold load_ref_catalog.
    destruct (decide (Forall (λ x : string * ref_file, x.2 ≠ NotAnObject) files))
      as [Hall|Hex].
    - left. split; [done|].
      by rewrite (proj1 (for_each_load_run ref_dir png_exists files ∅) Hall).
    - right. apply not_Forall_Exists in Hex; [|apply _].
      assert (Exists (λ x : string * ref_file, x.2 = NotAnObject) files) as Hex'.
      { eapply Exists_impl; [exact Hex|]. intros x Hx. by apply dec_stable. }
      split; [done|]. clear Hex.
      assert (∀ c, ∃ c', for_each files (load_ref_file ref_dir png_exists) c
                         = (Raise AttributeError, c')) as Hrun.
      { induction Hex' as [x l Hx|x l Hl IH]; intros c; cbn [for_each];
          rewrite bind_run, load_ref_file_run.
        - rewrite bool_decide_eq_true_2 by done. eauto.
        - case_bool_decide; [eauto|]. apply IH. }
      destruct (Hrun ∅) as [c' ->]. done. }
  split; [|split].
  - unfold load_ref_catalog at 1 2.
    assert (∀ c, for_each (filter (λ x, x.2 ≠ BadJson) files)
                   (load_ref_file ref_dir png_exists) c
                 = for_each files (load_ref_file ref_dir png_exists) c) as ->;
      [|done].
    clear Hcases. induction files as [|[stem f] l IH]; intros c; [done|].
    rewrite filter_cons. case_decide as Hf.
    + cbn [for_each]. rewrite !bind_run.
      destruct (load_ref_file _ _ _ _) as [[[]|e] c']; [apply IH|done].
    + simpl in Hf. subst f.
      cbn [for_each]. rewrite bind_run. simpl. apply IH.
  - split.
    + intros [stem Hin]. destruct Hcases as [[Hall _]|[_ Hr]]; [|done].
      rewrite Forall_forall in Hall. by destruct (Hall _ Hin).
    + intros Hr. destruct Hcases as [[_ Hok]|[Hex _]]; [congruence|].
      apply Exists_exists in Hex as ([stem f] & Hin & Hf). simpl in Hf. subst f.
      eauto.
  - split.
    + intros Hnone. destruct Hcases as [[_ Hok]|[Hex _]]; [eauto|].
      apply Exists_exists in Hex as ([stem f] & Hin & Hf). simpl in Hf. subst f.
      by destruct (Hnone stem).
    + intros [catalog Hok] stem Hin. destruct Hcases as [[Hall _]|[_ Hr]]; [|congruence].
      rewrite Forall_forall in Hall. by destruct (Hall _ Hin).
Qed.

End Catalog.

(** ** The directives of a scene *)

Section GateRange.
Context (qa_reply : list QualityGate.qa_request → QualityGate.qa_request
                    → QualityGate.qa_outcome)
        (images : gmap string image)
        (MAX_REFS_PER_PANEL : nat).
Import QualityGate.

Lemma as_int_run (v : jval) (g : gate) :
  as_int v g = match index_of v with
               | Some z => (Ok z, g)
               | None => (Raise TypeError, g)
               end.
Proof. by destruct v as [|[]| | |]. Qed.

Lemma analyze_panel_ok img pm sm cat sid pid g d g' :
  analyze_panel qa_reply images MAX_REFS_PER_PANEL img pm sm cat sid pid g
    = (Ok d, g') →
  ∃ prev r,
    d = directive_of images MAX_REFS_PER_PANEL pm cat sid pid r
    ∧ submitted g'
      = submitted g ++ [request_of images MAX_REFS_PER_PANEL img pm cat sid pid prev].
Proof.
  intros Hrun.
  pose proof (analyze_panel_run qa_reply images MAX_REFS_PER_PANEL img pm sm
                cat sid pid g) as Hcase.
  destruct (prev_panels_of pm sm g) as [[prev|e] g0];
    [|rewrite Hcase in Hrun; discriminate].
  cbv zeta in Hcase. rewrite Hcase in Hrun. clear Hcase. exists prev.
  destruct (qa_reply _ _); simplify_eq; eauto.
Qed.

(** What a round of the loop of [process_scene] returns. *)
Lemma process_panel_ok sc sid cat panel_images filt pm g ds g' :
  process_panel qa_reply images MAX_REFS_PER_PANEL sc sid cat panel_images
    filt pm g = (Ok ds, g') →
  ∃ pidv n, pm !! "panel_index" = Some pidv ∧ index_of pidv = Some n
    ∧ (ds = [] ∧ g' = g
       ∨ ∃ r, ds = [directive_of images MAX_REFS_PER_PANEL pm cat sid pidv r]
              ∧ passes filt n
              ∧ 1 ≤ n ≤ Z.of_nat (length panel_images)).
Proof.
  unfold process_panel, getitem.
  destruct (pm !! "panel_index") as [pidv|]; [|discriminate].
  rewrite bind_run. cbn [mret M_ret]. rewrite bind_run, as_int_run.
  destruct (index_of pidv) as [n|] eqn:Hn; [|discriminate].
  intros Hrun. exists pidv, n. split; [done|]. split; [done|].
  cbv zeta in Hrun.
  assert (Hpass : (match filt with
                   | Some (x :: l) => negb (bool_decide (n ∈ x :: l))
                   | _ => false
                   end) = false → passes filt n).
  { unfold passes. destruct filt as [[|x l]|]; try done.
    intros Hb. apply negb_false_iff, bool_decide_eq_true in Hb. done. }
  destruct (match filt with Some (x :: l) => _ | _ => false end);
    [injection Hrun as <- <-; by left|].
  destruct ((n <? 1) || (n >? Z.of_nat (length panel_images))) eqn:Hrange;
    [injection Hrun as <- <-; by left|].
  apply orb_false_iff in Hrange as [H1 H2].
  destruct (panel_images !! Z.to_nat (n - 1)) as [img|]; [|discriminate].
  apply bind_ok_inv in Hrun as (d & g1 & Hd & Hrun).
  apply bind_ok_inv in Hrun as ([] & g2 & _ & Hrun). injection Hrun as <- <-.
  apply analyze_panel_ok in Hd as (prev & r & -> & _).
  right. exists r. split; [done|]. split; [by apply Hpass|]. lia.
Qed.

Lemma for_list_Forall2 {S A B} (l : list A) (f : A → M S B) (P : A → B → Prop)
    s rs s' :
  (∀ x s1 r s2, x ∈ l → f x s1 = (Ok r, s2) → P x r) →
  for_list l f s = (Ok rs, s') → Forall2 P l rs.
Proof.
  revert s rs; induction l as [|x l IH]; intros s rs Hf; simpl.
  - intros [= <- <-]. constructor.
  - intros Hrun. apply bind_ok_inv in Hrun as (r & s1 & Hx & Hrun).
    apply bind_ok_inv in Hrun as (rs' & s2 & Hl & Hrun). injection Hrun as <- <-.
    constructor; [eapply Hf; [left|done]|].
    eapply IH; [|done]. intros y ? ? ? Hy. apply Hf. by right.
Qed.

Lemma Forall2_and_l {A B} (P : A → Prop) (Q : A → B → Prop) l k :
  Forall P l → Forall2 Q l k → Forall2 (λ x y, P x ∧ Q x y) l k.
Proof.
  intros HP HQ. revert HP. induction HQ; intros HP; [constructor|].
  apply Forall_cons in HP as [? ?]. constructor; auto.
Qed.

(** The panels of [process_scene], in the order of the loop, each with
    what the loop returned for it. *)
Lemma process_scene_ok sc cat grid_format n filt g rs g' sid img :
  scene_id sc = Some sid → images !! grid_file sid = Some img →
  process_scene qa_reply images MAX_REFS_PER_PANEL sc cat grid_format n filt g
    = (Ok rs, g') →
  ∃ (ordered : list (Z * panel)) results,
    ascending fst ordered
    ∧ rs = concat results
    ∧ Forall2 (λ kp ds,
                 ds = [] ∨
                 ∃ pidv r, kp.2 ∈ default [] (panels sc)
                   ∧ kp.2 !! "panel_index" = Some pidv
                   ∧ index_of pidv = Some kp.1
                   ∧ ds = [directive_of images MAX_REFS_PER_PANEL kp.2 cat sid pidv r]
                   ∧ passes filt kp.1
                   ∧ 1 ≤ kp.1 ≤ Z.of_nat (length (slice_grid img n
                                           (Py.contains "dual" grid_format))))
              ordered results.
Proof.
  intros Hsid Himg. unfold process_scene. rewrite Hsid, Himg. cbv zeta.
  intros Hrun. apply bind_ok_inv in Hrun as (keys & g1 & Hkeys & Hrun).
  apply bind_ok_inv in Hrun as (results & g2 & Hloop & Hrun).
  injection Hrun as <- <-.
  exists (sorted fst (zip keys (default [] (panels sc)))), results.
  split; [apply sorted_ascending|]. split; [done|].
  assert (Hk : Forall2 (λ (p : panel) (k : Z),
                 ∃ v, p !! "panel_index" = Some v ∧ index_of v = Some k)
                (default [] (panels sc)) keys).
  { eapply for_list_Forall2; [|exact Hkeys].
    intros p s1 k s2 _. unfold getitem.
    destruct (p !! "panel_index") as [v|]; [|discriminate].
    rewrite bind_run. cbn [mret M_ret]. rewrite as_int_run.
    destruct (index_of v) eqn:Hv; [|discriminate]. intros [= <- <-]. eauto. }
  assert (Hsorted : Forall (λ kp : Z * panel,
              (∃ v, kp.2 !! "panel_index" = Some v ∧ index_of v = Some kp.1)
              ∧ kp.2 ∈ default [] (panels sc))
            (sorted fst (zip keys (default [] (panels sc))))).
  { rewrite sorted_perm. apply Forall_forall. intros [k p] Hin.
    apply list_elem_of_lookup in Hin as [i Hi].
    apply lookup_zip_with_Some in Hi as (k' & p' & [= <- <-] & Hki & Hpi).
    destruct (Forall2_lookup_lr _ _ _ _ _ _ Hk Hpi Hki) as (v & Hv & Hkv).
    split; [by exists v|]. by eapply list_elem_of_lookup_2. }
  assert (Hloop' : Forall2 (λ (p : panel) ds,
              ds = [] ∨
              ∃ pidv m r, p !! "panel_index" = Some pidv ∧ index_of pidv = Some m
                ∧ ds = [directive_of images MAX_REFS_PER_PANEL p cat sid pidv r]
                ∧ passes filt m
                ∧ 1 ≤ m ≤ Z.of_nat (length (slice_grid img n
                                      (Py.contains "dual" grid_format))))
            (sorted fst (zip keys (default [] (panels sc)))).*2 results).
  { eapply for_list_Forall2; [|exact Hloop].
    intros p s1 ds s2 _ Hp.
    apply process_panel_ok in Hp as (pidv & m & Hpid & Hm & [[-> _]|(r & -> & Hf & Hr)]);
      [by left|right]. by exists pidv, m, r. }
  apply Forall2_fmap_l in Hloop'.
  eapply Forall2_impl; [apply (Forall2_and_l _ _ _ _ Hsorted Hloop')|].
  intros [k p] ds [[(v & Hv & Hkv) Hin] [->|(pidv & m & r & Hpid & Hm & -> & Hf & Hr)]];
    [by left|right]. simpl in *.
  assert (pidv = v) as -> by congruence. assert (m = k) as -> by congruence.
  by exists v, r.
Qed.

(** X9. Every directive of a scene is for a panel of the scene whose
    index passes the filter and has an image in the slice of the grid:
    its number is at least 1 and at most the number of images, which for
    a single grid is the panel count; it carries the scene id and the
    index of its panel as the gate has them; and the directives come in
    the order of their panel numbers. *)
Theorem directives_are_in_range_and_in_order
    (sc : scene) (cat : gmap string ref_entry) (grid_format : string)
    (n : Z) (filt : option (list Z)) (g g' : gate)
    (rs : list (gmap string jval)) (sid : Z) (img : image) :
  scene_id sc = Some sid → images !! grid_file sid = Some img →
  process_scene qa_reply images MAX_REFS_PER_PANEL sc cat grid_format n filt g
    = (Ok rs, g') →
  Forall (λ d,
            d !! "scene_id" = Some (JInt sid)
            ∧ ∃ pm pidv, pm ∈ default [] (panels sc)
                ∧ pm !! "panel_index" = Some pidv
                ∧ d !! "panel_id" = Some pidv
                ∧ index_of pidv = Some (panel_number d)
                ∧ passes filt (panel_number d)
                ∧ 1 ≤ panel_number d
                  ≤ Z.of_nat (length (slice_grid img n
                                        (Py.contains "dual" grid_format)))) rs
  ∧ ascending panel_number rs
  ∧ (length rs ≤ length (default [] (panels sc)))%nat.
Proof.
  intros Hsid Himg Hrun.
  assert (Hlen : (length rs ≤ length (default [] (panels sc)))%nat).
  { revert Hrun. unfold process_scene. rewrite Hsid, Himg. cbv zeta.
    intros Hrun. apply bind_ok_inv in Hrun as (keys & g1 & Hkeys & Hrun).
    apply bind_ok_inv in Hrun as (results & g2 & Hloop & Hrun).
    injection Hrun as <- <-.
    assert (Forall2 (λ (p : panel) (ds : list (gmap string jval)),
                       (length ds ≤ 1)%nat)
              (sorted fst (zip keys (default [] (panels sc)))).*2 results) as Hone.
    { eapply for_list_Forall2; [|exact Hloop]. intros p s1 ds s2 _ Hp.
      apply process_panel_ok in Hp as (? & ? & _ & _ & [[-> _]|(r & -> & _)]);
        simpl; lia. }
    assert (length (sorted fst (zip keys (default [] (panels sc)))).*2
            ≤ length (default [] (panels sc)))%nat as Hle.
    { rewrite length_fmap, sorted_perm, length_zip. lia. }
    etrans; [|exact Hle]. clear Hle Hloop.
    induction Hone as [|p ds l k Hds _ IH]; simpl in *; [lia|].
    rewrite length_app. lia. }
  apply (process_scene_ok _ _ _ _ _ _ _ _ _ _ Hsid Himg) in Hrun
    as (ordered & results & Hasc & -> & Hall).
  assert (Hnum : ∀ pm pidv r k, index_of pidv = Some k →
            panel_number (directive_of images MAX_REFS_PER_PANEL pm cat sid pidv r) = k).
  { intros pm pidv r k Hk. unfold panel_number, directive_of.
    rewrite lookup_insert_ne, lookup_insert_ne, lookup_insert_eq by done.
    simpl. by rewrite Hk. }
  split; [|split; [|exact Hlen]].
  - apply Forall_concat. eapply Forall2_Forall_r; [exact Hall|].
    apply Forall_forall. intros [k pm] _ ds
      [->|(pidv & r & Hin & Hpid & Hk & -> & Hf & Hr)]; [constructor|].
    simpl in *. constructor; [|constructor].
    rewrite (Hnum _ _ _ _ Hk). split; [unfold directive_of; by simplify_map_eq|].
    exists pm, pidv. repeat split; try done; try lia.
    unfold directive_of. by simplify_map_eq.
  - clear Hlen. unfold ascending in *.
    induction Hall as [|[k pm] ds l rest Hd Hall IH]; [constructor|].
    apply StronglySorted_inv in Hasc as [Hasc Hk]. simpl.
    specialize (IH Hasc).
    destruct Hd as [->|(pidv & r & _ & _ & Hidx & -> & _)]; [done|].
    simpl. constructor; [done|].
    rewrite (Hnum _ _ _ _ Hidx).
    apply Forall_concat. eapply Forall2_Forall_r; [exact Hall|].
    eapply Forall_impl; [exact Hk|]. intros [k' pm'] Hle ds'
      [->|(pidv' & r' & _ & _ & Hidx' & -> & _)]; [constructor|].
    constructor; [|constructor]. by rewrite (Hnum _ _ _ _ Hidx').
Qed.

Lemma load_refs_names ref_names cat :
  (load_refs images MAX_REFS_PER_PANEL ref_names cat).*1.*1
  = filter (λ rname, ref_loads images cat rname = true)
           (take MAX_REFS_PER_PANEL ref_names).
Proof.
  unfold load_refs. induction (take MAX_REFS_PER_PANEL ref_names) as [|x l IH];
    [done|].
  rewrite filter_cons. cbn [omap list_omap].
  destruct (decide (ref_loads images cat x = true)) as [Hl|Hl]; unfold ref_loads in Hl.
  - destruct (find_ref x cat) as [ref|]; [|done]. csimpl.
    destruct (img_path ref) as [path|]; [|done]. csimpl.
    apply bool_decide_eq_true in Hl as [rimg ->]. csimpl. by rewrite IH.
  - destruct (find_ref x cat) as [ref|]; [|done]. csimpl.
    destruct (img_path ref) as [path|]; [|done]. csimpl.
    destruct (images !! path) as [rimg|]; [|done].
    exfalso. apply Hl. apply bool_decide_eq_true. eauto.
Qed.



End GateRange.

(** ** Rendering a grid that is not on disk *)

Lemma identified_same sc w :
  files (identified sc w) = files w
  ∧ CHARACTER_IMAGES (identified sc w) = CHARACTER_IMAGES w
  ∧ image_calls (trace (identified sc w)) = image_calls (trace w).
Proof.
  unfold identified. case_bool_decide; [|done]. destruct w; simpl.
  repeat split. unfold image_calls. rewrite omap_app. simpl. by rewrite app_nil_r.
Qed.

(** [generate_combined_grid] for a scene whose grid is not on disk. *)
Lemma generate_combined_grid_fresh svc cfg sc sid w :
  files w !! grid_file sid = None →
  let w1 := identified sc w in
  let loaded := loaded_references svc sc w in
  generate_combined_grid svc cfg (sc, sid) w =
  match read_prompt_keys sc w1 with
  | (Raise e, _) => (Raise e, w1)
  | (Ok _, _) =>
      match render svc sc sid loaded w1 with
      | (Ok _, w2) =>
          if slicing_enabled cfg then
            (img ← Image_open (grid_file sid);
             for_each (slice_combined img sid cfg)
               (λ s, write (OUTPUT_DIR +:+ "panels/" +:+ s.1) (Png s.2))) w2
          else (Ok tt, w2)
      | (Raise e, w2) =>
          (Ok tt, set_trace (λ t, t ++ [Logged ("FAIL Generation: " +:+ str e)]) w2)
      end
  end.
Proof.
  intros Hfile w1 loaded. unfold generate_combined_grid.
  fold (listed_references sc). rewrite bind_run.
  assert (Hneeded :
            (if bool_decide (listed_references sc = [])
             then identify_scene_characters svc sc
             else mret (listed_references sc)) w
            = (Ok (if bool_decide (listed_references sc = [])
                   then default [] (identify_reply svc (trace w) sc)
                   else listed_references sc), w1)).
  { subst w1. unfold identified. case_bool_decide; reflexivity. }
  rewrite Hneeded.
  destruct (identified_same sc w) as (Hfiles & Hreg & _). fold w1 in Hfiles, Hreg.
  rewrite bind_run. simpl. rewrite bind_run. simpl. rewrite bind_run.
  destruct (stateless_read_prompt_keys sc) as [rk Hk]. rewrite !Hk.
  destruct rk as [[]|e]; [|done].
  rewrite Hfiles, Hreg. change (real_chars _ _ _) with loaded.
  rewrite bool_decide_eq_false_2 by (rewrite Hfile; apply is_Some_None).
  rewrite bind_run. unfold try_except. fold (render svc sc sid loaded).
  destruct (render svc sc sid loaded w1) as [[b|e] w2] eqn:Hrender.
  - assert (b = true) as ->.
    { unfold render in Hrender. apply bind_ok_inv in Hrender as (resp & w3 & _ & Hm).
      destruct resp as [[| |img]|]; try discriminate.
      rewrite bind_run in Hm. simpl in Hm. by injection Hm as <- _. }
    simpl. destruct (slicing_enabled cfg); done.
  - rewrite bind_run. simpl. done.
Qed.

Global Instance same_disk_refl : Reflexive same_disk.
Proof. by intros w. Qed.
Global Instance same_disk_trans : Transitive same_disk.
Proof. intros w1 w2 w3 [H1 H2] [H3 H4]. split; congruence. Qed.

Lemma keeps_retry_on_errors {A} (R : world → world → Prop)
    `{!Reflexive R, !Transitive R} max_retries backoff_factor (func : M world A) :
  keeps R func → (∀ e, (∀ r, e ≠ Called r) → keeps R (log_event e)) →
  keeps R (retry_on_errors max_retries backoff_factor func).
Proof.
  intros Hfunc Hlog. unfold retry_on_errors. generalize 0.
  induction (Z.to_nat max_retries) as [|fuel IH]; intros retries;
    [k_apply keeps_ret|].
  cbn [retry_loop]. apply keeps_if; [|k_apply keeps_ret].
  k_apply keeps_try_except.
  - k_apply keeps_bind; [done|intros; k_apply keeps_ret].
  - intros e. apply keeps_if; [|k_apply keeps_raise].
    apply keeps_if.
    + k_apply keeps_bind; [by apply Hlog|intros; k_apply keeps_raise].
    + k_apply keeps_bind; [by apply Hlog|intros; apply IH].
Qed.

Lemma keeps_disk_log_event e : keeps same_disk (log_event e).
Proof. k_apply keeps_modify. by intros []. Qed.

Lemma keeps_disk_generate_image r reply : keeps same_disk (generate_image r reply).
Proof.
  unfold generate_image.
  k_apply keeps_bind; [k_apply keeps_gets|intros t].
  k_apply keeps_bind; [apply keeps_disk_log_event|intros _].
  destruct (reply t); (k_apply keeps_raise || k_apply keeps_ret).
Qed.

(** What the retry wrapper returns is what the call returned. *)
Lemma retry_on_errors_returned {A} (P : A → Prop) max_retries backoff_factor
    (func : M world A) w a w' :
  (∀ w0 a0 w1, func w0 = (Ok a0, w1) → P a0) →
  retry_on_errors max_retries backoff_factor func w = (Ok (Some a), w') → P a.
Proof.
  intros Hfunc. unfold retry_on_errors. generalize 0. revert w.
  induction (Z.to_nat max_retries) as [|fuel IH]; intros w retries; [done|].
  cbn [retry_loop]. destruct (retries <? max_retries); [|done].
  unfold try_except. rewrite bind_run.
  destruct (func w) as [[a0|e] w1] eqn:Hw.
  - intros [= <- <-]. by eapply Hfunc.
  - destruct (is_transient (str e)); [|done].
    destruct (_ >=? _); rewrite bind_run; simpl; [done|]. apply IH.
Qed.

Lemma read_prompt_keys_ok sc ps (w : world) :
  is_Some (location sc) → panels sc = Some ps →
  Forall (λ p : panel, is_Some (p !! "panel_index")) ps →
  read_prompt_keys sc w = (Ok tt, w).
Proof.
  intros [l Hl] Hps Hall. unfold read_prompt_keys. rewrite Hl, Hps.
  apply for_each_noop. intros p Hp. rewrite Forall_forall in Hall.
  destruct (Hall p Hp) as [v Hv]. unfold getitem. by rewrite Hv.
Qed.




(** ** The main script *)

Global Instance without_analysis_refl : Reflexive without_analysis.
Proof. intros w. exists []. by rewrite app_nil_r. Qed.
Global Instance without_analysis_trans : Transitive without_analysis.
Proof.
  intros w1 w2 w3 (t1 & H1 & F1) (t2 & H2 & F2). exists (t1 ++ t2).
  split; [by rewrite H2, H1, app_assoc|by apply Forall_app].
Qed.

Lemma keeps_weaken {S A} (R R' : S → S → Prop) (m : M S A) :
  (∀ s s', R s s' → R' s s') → keeps R m → keeps R' m.
Proof. intros HR Hm s r s' Hrun. by eapply HR, Hm. Qed.

Lemma prefix_empty s : String.prefix EmptyString s = true.
Proof. by destruct s. Qed.

Lemma entry_paths_under_ref_dir n p : entry_paths n p → under_ref_dir p.
Proof.
  intros [-> | ->]; unfold under_ref_dir, REF_DIR; simpl;
    rewrite ?Ascii.eqb_refl; apply prefix_empty.
Qed.

Section MainScript.
Context (svc : service) (sched : scheduler) (cfg : config).

Lemma keeps_files_auto_cast text :
  keeps (files_agree_outside under_ref_dir) (auto_cast_characters svc sched cfg text).
Proof.
  unfold auto_cast_characters, generate_json_with_schema.
  k_apply keeps_bind; [k_apply keeps_gets|intros fs].
  k_apply keeps_bind; [k_apply keeps_modify; by intros w p _|intros _].
  k_apply keeps_if; [k_apply keeps_ret|].
  k_apply keeps_bind; [k_apply keeps_gets|intros registry].
  k_apply keeps_bind; [|intros new_chars].
  { k_apply keeps_bind; [k_apply keeps_gets|intros t].
    k_apply keeps_bind; [apply keeps_files_log_event|intros _].
    k_apply keeps_ret. }
  k_apply keeps_if; [k_apply keeps_ret|].
  k_apply keeps_executor_map. intros char.
  eapply keeps_weaken; [|apply generate_single_reference_files].
  intros w w' Hw p Hp. apply Hw. intros Hin. apply Hp.
  by eapply entry_paths_under_ref_dir.
Qed.

Lemma auto_cast_characters_run text w :
  ∃ w', auto_cast_characters svc sched cfg text w = (Ok tt, w')
        ∧ files_agree_outside under_ref_dir w w'.
Proof.
  pose proof (auto_cast_characters_returns svc sched cfg text w) as Hret.
  pose proof (keeps_files_auto_cast text w) as Hkeep.
  destruct (auto_cast_characters svc sched cfg text w) as [r w'].
  simpl in Hret. subst r. exists w'. split; [done|]. by eapply Hkeep.
Qed.

(** X15. When the screenplay call fails, or its answer has no
    [episodes], the script stops with a [TypeError] after casting: the
    screenplay without episodes is on disk, and the metadata file is left
    as it was. *)
Theorem failed_screenplay_stops_the_script (text : string) (w : world) :
  (∀ t, episodes (default (Screenplay None) (screenplay_reply svc t text)) = None) →
  ∃ w', main svc sched cfg text None w = (Raise TypeError, w')
    ∧ files w' !! (OUTPUT_DIR +:+ "animation_episodes.json")
      = Some (ScreenplayJson (Screenplay None))
    ∧ files w' !! metadata_file = files w !! metadata_file.
Proof.
  intros Hfail. unfold main.
  destruct (auto_cast_characters_run (Story text) w) as (w1 & Hcast1 & Hf1).
  rewrite bind_run, Hcast1.
  rewrite bool_decide_eq_true_2 by (by left).
  unfold analyze_scenes_master, analyze_episodes_master, generate_json_with_schema.
  mstep. specialize (Hfail (trace w1)).
  destruct (default (Screenplay None) (screenplay_reply svc (trace w1) text))
    as [eps] eqn:Hsp. simpl in Hfail. subst eps.
  set (w2 := set_trace _ w1).
  destruct (auto_cast_characters_run (Dumped (Screenplay None)) w2)
    as (w3 & Hcast2 & Hf3).
  rewrite Hcast2. mstep.
  eexists. split; [reflexivity|]. simpl. split.
  - by rewrite lookup_insert_eq.
  - rewrite lookup_insert_ne by (by vm_compute).
    rewrite (Hf3 metadata_file) by (by vm_compute).
    subst w2. simpl. apply Hf1. by vm_compute.
Qed.

Lemma keeps_calls_log_event e :
  (∀ r, e = Called r → is_analysis r = false) →
  keeps without_analysis (log_event e).
Proof.
  intros He. k_apply keeps_modify. intros w. exists [e].
  split; [by destruct w|by constructor].
Qed.

Lemma keeps_calls_quiet (f : world → world) :
  (∀ w, trace (f w) = trace w) → keeps without_analysis (modify f).
Proof.
  intros Hf. k_apply keeps_modify. intros w. exists [].
  by rewrite app_nil_r, Hf.
Qed.

Lemma keeps_calls_write path c : keeps without_analysis (write path c).
Proof. apply keeps_calls_quiet. by intros []. Qed.

Lemma keeps_calls_generate_image r reply :
  is_analysis r = false → keeps without_analysis (generate_image r reply).
Proof.
  intros Hr. unfold generate_image.
  k_apply keeps_bind; [k_apply keeps_gets|intros t].
  k_apply keeps_bind; [apply keeps_calls_log_event; by intros ? [= <-]|intros _].
  destruct (reply t); (k_apply keeps_raise || k_apply keeps_ret).
Qed.

Lemma keeps_calls_generate_json {A} r (reply : list event → option A) empty :
  is_analysis r = false →
  keeps without_analysis (generate_json_with_schema r reply empty).
Proof.
  intros Hr. unfold generate_json_with_schema.
  k_apply keeps_bind; [k_apply keeps_gets|intros t].
  k_apply keeps_bind; [apply keeps_calls_log_event; by intros ? [= <-]|intros _].
  k_apply keeps_ret.
Qed.

Lemma keeps_calls_Image_open path : keeps without_analysis (Image_open path).
Proof.
  unfold Image_open. k_apply keeps_bind; [k_apply keeps_gets|intros fs].
  destruct (fs !! path) as [[]|]; (k_apply keeps_raise || k_apply keeps_ret).
Qed.

Lemma keeps_calls_generate_single_reference char :
  keeps without_analysis (generate_single_reference svc char).
Proof.
  unfold generate_single_reference.
  k_apply keeps_bind; [k_apply keeps_gets|intros registry].
  k_apply keeps_if; [k_apply keeps_ret|].
  k_apply keeps_bind; [|intros style].
  { k_apply keeps_if; [|k_apply keeps_ret].
    k_apply keeps_bind; [k_apply keeps_gets|intros fs].
    k_apply keeps_if; [|k_apply keeps_ret].
    k_apply keeps_bind; [apply keeps_calls_Image_open|intros img].
    k_apply keeps_ret. }
  k_apply keeps_bind; [apply keeps_calls_write|intros _].
  k_apply keeps_try_except;
    [|intros e; apply keeps_calls_log_event; by intros ? [=]].
  k_apply keeps_bind; [by apply keeps_calls_generate_image|intros resp].
  destruct resp; try k_apply keeps_ret.
  k_apply keeps_bind; [apply keeps_calls_write|intros _].
  apply keeps_calls_quiet. by intros [].
Qed.

Lemma keeps_calls_auto_cast text :
  keeps without_analysis (auto_cast_characters svc sched cfg text).
Proof.
  unfold auto_cast_characters.
  k_apply keeps_bind; [k_apply keeps_gets|intros fs].
  k_apply keeps_bind; [apply keeps_calls_quiet; by intros []|intros _].
  k_apply keeps_if; [k_apply keeps_ret|].
  k_apply keeps_bind; [k_apply keeps_gets|intros registry].
  k_apply keeps_bind; [by apply keeps_calls_generate_json|intros new_chars].
  k_apply keeps_if; [k_apply keeps_ret|].
  k_apply keeps_executor_map. apply keeps_calls_generate_single_reference.
Qed.

Lemma keeps_calls_generate_combined_grid x :
  keeps without_analysis (generate_combined_grid svc cfg x).
Proof.
  destruct x as [sc sid]. unfold generate_combined_grid, identify_scene_characters.
  k_apply keeps_bind; [|intros needed].
  { k_apply keeps_if; [by apply keeps_calls_generate_json|k_apply keeps_ret]. }
  k_apply keeps_bind; [k_apply keeps_gets|intros fs].
  k_apply keeps_bind; [k_apply keeps_gets|intros registry].
  k_apply keeps_bind; [|intros _].
  { apply stateless_keeps; [apply _|apply stateless_read_prompt_keys]. }
  k_apply keeps_bind; [|intros generated].
  { k_apply keeps_if; [k_apply keeps_ret|].
    k_apply keeps_try_except.
    - k_apply keeps_bind; [|intros resp].
      + k_apply keeps_retry_on_errors.
        * k_apply keeps_bind; [k_apply keeps_ret|intros _].
          by apply keeps_calls_generate_image.
        * intros e He. apply keeps_calls_log_event. intros r ->. by destruct (He r).
      + destruct resp as [[| |img]|]; try k_apply keeps_raise.
        k_apply keeps_bind; [apply keeps_calls_write|intros; k_apply keeps_ret].
    - intros e. k_apply keeps_bind; [|intros; k_apply keeps_ret].
      apply keeps_calls_log_event. by intros ? [=]. }
  k_apply keeps_if; [|k_apply keeps_ret].
  k_apply keeps_bind; [apply keeps_calls_Image_open|intros img].
  k_apply keeps_for_each. intros s _. apply keeps_calls_write.
Qed.

Global Instance keeps_metadata_refl : Reflexive keeps_metadata.
Proof. by intros w. Qed.
Global Instance keeps_metadata_trans : Transitive keeps_metadata.
Proof. intros w1 w2 w3 H1 H2. unfold keeps_metadata in *. congruence. Qed.

Lemma keeps_metadata_write path c :
  path ≠ metadata_file → keeps keeps_metadata (write path c).
Proof.
  intros Hne. k_apply keeps_modify. intros w. unfold keeps_metadata. simpl.
  by rewrite lookup_insert_ne.
Qed.

Lemma keeps_metadata_quiet (f : world → world) :
  (∀ w, files (f w) = files w) → keeps keeps_metadata (modify f).
Proof.
  intros Hf. k_apply keeps_modify. intros w. unfold keeps_metadata. by rewrite Hf.
Qed.

Lemma keeps_metadata_generate_combined_grid x :
  keeps keeps_metadata (generate_combined_grid svc cfg x).
Proof.
  destruct x as [sc sid].
  unfold generate_combined_grid, identify_scene_characters,
    generate_json_with_schema, generate_image, log_event.
  k_apply keeps_bind; [|intros needed].
  { k_apply keeps_if; [|k_apply keeps_ret].
    k_apply keeps_bind; [k_apply keeps_gets|intros t].
    k_apply keeps_bind; [apply keeps_metadata_quiet; by intros []|intros _].
    k_apply keeps_ret. }
  k_apply keeps_bind; [k_apply keeps_gets|intros fs].
  k_apply keeps_bind; [k_apply keeps_gets|intros registry].
  k_apply keeps_bind; [|intros _].
  { apply stateless_keeps; [apply _|apply stateless_read_prompt_keys]. }
  k_apply keeps_bind; [|intros generated].
  { k_apply keeps_if; [k_apply keeps_ret|].
    k_apply keeps_try_except.
    - k_apply keeps_bind; [|intros resp].
      + k_apply keeps_retry_on_errors.
        * k_apply keeps_bind; [k_apply keeps_ret|intros _].
          k_apply keeps_bind; [k_apply keeps_gets|intros t].
          k_apply keeps_bind; [apply keeps_metadata_quiet; by intros []|intros _].
          destruct (grid_reply _ _ _ _ _); (k_apply keeps_raise || k_apply keeps_ret).
        * intros e _. apply keeps_metadata_quiet. by intros [].
      + destruct resp as [[| |img]|]; try k_apply keeps_raise.
        k_apply keeps_bind; [|intros; k_apply keeps_ret].
        apply keeps_metadata_write. unfold grid_file, metadata_file, OUTPUT_DIR.
        simpl. discriminate.
    - intros e. k_apply keeps_bind; [|intros; k_apply keeps_ret].
      apply keeps_metadata_quiet. by intros []. }
  k_apply keeps_if; [|k_apply keeps_ret].
  k_apply keeps_bind; [|intros img].
  { unfold Image_open. k_apply keeps_bind; [k_apply keeps_gets|intros fs'].
    destruct (fs' !! _) as [[]|]; (k_apply keeps_raise || k_apply keeps_ret). }
  k_apply keeps_for_each. intros s _. apply keeps_metadata_write.
  unfold metadata_file, OUTPUT_DIR. simpl. discriminate.
Qed.

(** The part of [main] that renders the selected scenes. *)
Lemma keeps_render_selected (R : world → world → Prop)
    `{!Reflexive R, !Transitive R} scene_arg (scenes : list scene) :
  (∀ x, keeps R (generate_combined_grid svc cfg x)) →
  keeps R (keyed ← for_list scenes
                      (λ sc, match scene_id sc with
                             | Some sid => mret (sc, sid)
                             | None => raise (KeyError "scene_id")
                             end);
           let scenes_to_process :=
             filter (λ x, selected scene_arg x.2 = true) keyed in
           if bool_decide (scenes_to_process = []) then mret tt
           else executor_map sched (generate_combined_grid svc cfg)
                  scenes_to_process).
Proof.
  intros Hgrid. k_apply keeps_bind; [|intros keyed].
  - k_apply keeps_for_list. intros sc _.
    destruct (scene_id sc); (k_apply keeps_raise || k_apply keeps_ret).
  - cbv zeta. k_apply keeps_if; [k_apply keeps_ret|].
    by k_apply keeps_executor_map.
Qed.

(** X16. With a scene to render again, the script reads the scenes from
    the metadata file instead of analysing the story: no screenplay,
    scene, refinement or reversal prompt is sent, the metadata file keeps
    its content, and when there is no metadata file the script stops with
    a [FileNotFoundError]. *)
Theorem rerendering_skips_the_analysis
    (text a : string) (w w' : world) (r : result unit) :
  a ≠ "" →
  main svc sched cfg text (Some a) w = (r, w') →
  (∃ t, trace w' = trace w ++ t
        ∧ Forall (λ e, ∀ q, e = Called q → is_analysis q = false) t)
  ∧ files w' !! metadata_file = files w !! metadata_file
  ∧ (files w !! metadata_file = None →
     r = Raise (FileNotFoundError metadata_file)).
Proof.
  intros Ha. unfold main.
  destruct (auto_cast_characters_run (Story text) w) as (w1 & Hcast & Hf1).
  pose proof (keeps_calls_auto_cast (Story text) w _ _ Hcast) as Hc1.
  assert (Hm1 : files w1 !! metadata_file = files w !! metadata_file)
    by (apply Hf1; by vm_compute).
  rewrite bind_run, Hcast.
  rewrite bool_decide_eq_false_2 by (intros [?|[= ?]]; done).
  rewrite bind_run. mstep. rewrite Hm1.
  fold (without_analysis w w').
  assert (Hlog : ∀ m, without_analysis w (set_trace (λ t, t ++ [Logged m]) w1)).
  { intros m. etrans; [exact Hc1|]. exists [Logged m].
    split; [by destruct w1|]. constructor; [|done]. by intros ? [=]. }
  destruct (files w !! metadata_file) as [c|] eqn:Hmeta;
    [|intros [= <- <-]; by rewrite Hm1].
  assert (Hnone : (log_event (Logged "Failed to analyze scenes.") w1 = (r, w')) →
            without_analysis w w' ∧ files w' !! metadata_file = Some c
            ∧ (Some c = None → r = Raise (FileNotFoundError metadata_file))).
  { intros [= <- <-]. split; [apply Hlog|]. split; [|done]. by destruct w1. }
  destruct c as [img|ch|sp|[scenes|]]; try exact Hnone.
  mstep. set (w2 := set_files _ w1).
  intros Hrun.
  pose proof (keeps_render_selected without_analysis (Some a) scenes
                keeps_calls_generate_combined_grid w2 _ _ Hrun) as Hc2.
  pose proof (keeps_render_selected keeps_metadata (Some a) scenes
                keeps_metadata_generate_combined_grid w2 _ _ Hrun) as Hm2.
  split; [|split; [|done]].
  - etrans; [exact Hc1|]. etrans; [|exact Hc2]. exists [].
    rewrite app_nil_r. subst w2. by destruct w1.
  - rewrite Hm2. subst w2. simpl. by rewrite lookup_insert_eq.
Qed.
End MainScript.

(** ** Casting one identity *)

Lemma app_inv_head_string (s a b : string) : s +:+ a = s +:+ b → a = b.
Proof. induction s as [|c s IH]; simpl; [done|]. intros [= H]. by apply IH. Qed.

Lemma descriptor_is_not_portrait char : portrait_path char ≠ descriptor_path char.
Proof.
  unfold descriptor_path, portrait_path. intros H.
  apply app_inv_head_string, app_inv_head_string in H. discriminate.
Qed.

(** X17. Casting an identity that is not registered writes its
    descriptor first and then asks for its image once: the descriptor is
    on disk whatever becomes of the image, while the image file and the
    entry of the registry are there only when the service returned image
    data; the call never raises when the style reference, if it is on
    disk, is an image. *)
Theorem casting_writes_the_descriptor_first
    (svc : service) (char : character) (w : world) :
  CHARACTER_IMAGES w !! name char = None →
  (∀ c, files w !! style_path char = Some c → ∃ i, c = Png i) →
  ∃ w', generate_single_reference svc char w = (Ok tt, w')
    ∧ files w' !! descriptor_path char = Some (CharacterJson char)
    ∧ calls (trace w')
      = calls (trace w) ++ [ReferenceImage char (style_image w char)]
    ∧ match reference_reply svc (trace w) char (style_image w char) with
      | InlineData img =>
          files w' !! portrait_path char = Some (Png img)
          ∧ CHARACTER_IMAGES w'
            = <[name char := portrait_path char]> (CHARACTER_IMAGES w)
      | _ =>
          files w' !! portrait_path char = files w !! portrait_path char
          ∧ CHARACTER_IMAGES w' = CHARACTER_IMAGES w
      end.
Proof.
  intros Hnew Hstyle. unfold generate_single_reference.
  rewrite bind_run. cbn [gets fst snd]. rewrite Hnew.
  rewrite bool_decide_eq_false_2 by apply is_Some_None.
  rewrite bind_run.
  assert (Hs : (if negb (String.eqb (style_reference char) "")
                   && negb (String.eqb (style_reference char) (name char))
                then
                  fs ← gets files;
                  if bool_decide (is_Some (fs !! style_path char))
                  then img ← Image_open (style_path char); mret (Some img)
                  else mret None
                else mret None) w = (Ok (style_image w char), w)).
  { unfold style_image. destruct (_ && _); [|done].
    rewrite bind_run. cbn [gets]. unfold Image_open.
    destruct (files w !! style_path char) as [c|] eqn:Hc.
    - rewrite bool_decide_eq_true_2 by eauto.
      destruct (Hstyle c eq_refl) as [i ->].
      rewrite bind_run, bind_run. cbn [gets]. by rewrite Hc.
    - by rewrite bool_decide_eq_false_2 by apply is_Some_None. }
  fold (style_path char). rewrite Hs. clear Hs.
  fold (descriptor_path char) (portrait_path char).
  rewrite bind_run. cbn [write modify]. unfold try_except, generate_image.
  mstep. cbn [trace set_files set_trace].
  assert (Hcalls : ∀ extra,
            calls ((trace w ++ [Called (ReferenceImage char (style_image w char))])
                   ++ extra)
            = calls (trace w) ++ [ReferenceImage char (style_image w char)]
              ++ calls extra).
  { intros extra. unfold calls. by rewrite !omap_app, <- app_assoc. }
  pose proof (descriptor_is_not_portrait char) as Hne.
  destruct (reference_reply svc (trace w) char (style_image w char)) as [e| |img];
    mstep; (eexists; split; [reflexivity|]); cbn [files CHARACTER_IMAGES trace
      set_files set_trace set_CHARACTER_IMAGES].
  - rewrite lookup_insert_eq, (Hcalls [Logged _]), app_nil_r.
    by rewrite lookup_insert_ne.
  - rewrite lookup_insert_eq, <- (app_nil_r (_ ++ [_])), (Hcalls []), app_nil_r.
    by rewrite lookup_insert_ne.
  - rewrite lookup_insert_ne, !lookup_insert_eq by done.
    by rewrite <- (app_nil_r (_ ++ [_])), (Hcalls []), app_nil_r.
Qed.

(** ** Refining one scene *)

Lemma keeps_scenes_apply_reversal_pass svc sc :
  keeps same_scenes (apply_reversal_pass svc sc).
Proof.
  unfold apply_reversal_pass.
  apply keeps_if; [k_apply keeps_ret|].
  k_apply keeps_bind.
  - unfold retry_on_errors. generalize 0.
    induction (Z.to_nat 3) as [|fuel IHf]; intros r0; [k_apply keeps_ret|].
    cbn [retry_loop]. apply keeps_if; [|k_apply keeps_ret].
    k_apply keeps_try_except.
    + k_apply keeps_bind; [|intros; k_apply keeps_ret].
      unfold acquire, generate_json_with_schema.
      k_apply keeps_bind; [k_apply keeps_ret|intros _].
      k_apply keeps_bind; [k_apply keeps_gets|intros t].
      k_apply keeps_bind; [k_apply keeps_modify; by intros []|intros _].
      k_apply keeps_ret.
    + intros e. apply keeps_if; [|k_apply keeps_raise].
      apply keeps_if.
      * k_apply keeps_bind; [k_apply keeps_modify; by intros []|intros _].
        k_apply keeps_raise.
      * k_apply keeps_bind; [k_apply keeps_modify; by intros []|intros _].
        apply IHf.
  - intros [[|item items]|].
    + k_apply keeps_bind; [k_apply keeps_modify; by intros []|intros _].
      k_apply keeps_ret.
    + destruct (panels sc); [|k_apply keeps_ret].
      k_apply keeps_bind; [|intros; k_apply keeps_ret].
      k_apply keeps_for_list. intros p _.
      apply stateless_keeps; [apply _|].
      unfold reverse_panel. destruct (is_reversed p); [|apply stateless_ret].
      apply stateless_bind; [apply stateless_getitem|intros v].
      apply stateless_bind.
      { destruct v; (apply stateless_ret || apply stateless_raise). }
      intros [txt|]; [|apply stateless_ret].
      repeat (apply stateless_bind; [apply stateless_getitem|intros ?]).
      apply stateless_ret.
    + k_apply keeps_bind; [k_apply keeps_modify; by intros []|intros _].
      k_apply keeps_ret.
Qed.

Lemma setdefault_lookup k dflt (p : panel) key :
  setdefault k dflt p !! key
  = if decide (key = k) then Some (default dflt (p !! k)) else p !! key.
Proof.
  unfold setdefault. destruct (p !! k) as [v|] eqn:Hk.
  - case_decide as Heq; [by subst|done].
  - case_decide as Heq; [subst; by rewrite lookup_insert_eq|].
    by rewrite lookup_insert_ne.
Qed.

(** The loop of [refine_single_scene] over the panels. *)
Lemma renumber_lookup idx ps k q :
  renumber idx ps !! k = Some q →
  ∃ p, ps !! k = Some p
    ∧ q !! "panel_index" = Some (JInt (idx + Z.of_nat k + 1))
    ∧ q !! "is_reversed" = Some (default (JBool false) (p !! "is_reversed"))
    ∧ q !! "motion_prompt_reversed"
      = Some (default (JStr "") (p !! "motion_prompt_reversed"))
    ∧ ∀ key, key ≠ "panel_index" → key ≠ "is_reversed" →
             key ≠ "motion_prompt_reversed" → q !! key = p !! key.
Proof.
  revert idx k; induction ps as [|p ps IH]; intros idx k; [done|].
  cbn [renumber]. destruct k as [|k]; simpl.
  - intros [= <-]. exists p. split; [done|].
    rewrite !setdefault_lookup. simpl.
    rewrite lookup_insert_eq, !lookup_insert_ne by done.
    split; [f_equal; f_equal; lia|]. split; [done|]. split; [done|].
    intros key H1 H2 H3. rewrite !setdefault_lookup.
    rewrite !decide_False by done. by rewrite lookup_insert_ne.
  - intros Hq. apply IH in Hq as (p' & Hp' & Hi & Hrest). exists p'.
    split; [done|]. split; [|done]. rewrite Hi. do 2 f_equal. lia.
Qed.

Lemma length_renumber idx ps : length (renumber idx ps) = length ps.
Proof. revert idx; induction ps as [|p ps IH]; intros idx; simpl; [done|]. by rewrite IH. Qed.

(** The reversal pass leaves every key alone but the four it swaps. *)
Lemma swapped_lookup m (p : panel) key :
  key ≠ "visual_start" → key ≠ "visual_end" → key ≠ "motion_prompt" →
  key ≠ "motion_prompt_original" → swapped m p !! key = p !! key.
Proof.
  intros H1 H2 H3 H4. unfold swapped. repeat case_match; try done.
  by rewrite !lookup_insert_ne.
Qed.

(** X18. A refinement that comes back with a scene is filed under the
    number of the scene it was asked for, whatever [scene_id] the answer
    carries, with its panels numbered from 1 in their order, whatever
    their [panel_index], and with the two keys of the reversal in every
    panel; the scene is appended to the scenes of the run and written,
    alone, to the refined file of its episode. *)
Theorem refined_scene_is_renumbered
    (svc : service) (episode_counter scene_counter : Z) (draft : scene)
    (w : world) (refined : scene) (rest : list scene) (ps : list panel) :
  refine_reply svc (trace w) episode_counter scene_counter draft
    = Some (Some (refined :: rest)) →
  panels refined = Some ps → Forall schema_panel ps →
  ∃ s ps' w',
    refine_single_scene svc (episode_counter, scene_counter, draft) w = (Ok tt, w')
    ∧ all_scenes w' = all_scenes w ++ [s]
    ∧ files w' !! refined_file episode_counter = Some (ScenesJson (Some [s]))
    ∧ scene_id s = Some scene_counter
    ∧ location s = location refined
    ∧ panels s = Some ps' ∧ length ps' = length ps
    ∧ ∀ k p', ps' !! k = Some p' →
        p' !! "panel_index" = Some (JInt (Z.of_nat k + 1))
        ∧ is_Some (p' !! "is_reversed")
        ∧ is_Some (p' !! "motion_prompt_reversed").
Proof.
  intros Hreply Hps Hschema.
  unfold refine_single_scene, refine_scenes_for_episode.
  rewrite bind_run.
  erewrite retry_on_errors_ok;
    [|lia|unfold acquire, generate_json_with_schema; mstep; reflexivity].
  rewrite Hreply.
  change (default [] (default None (Some (Some (refined :: rest)))))
    with (refined :: rest).
  cbv iota. rewrite Hps.
  set (w1 := set_trace _ w).
  set (sc := Scene (Some scene_counter) (location refined)
                   (pre_action_description refined) (Some (renumber 0 ps))).
  destruct (apply_reversal_pass_run svc sc (renumber 0 ps) w1 eq_refl)
    as [w2 Hrun].
  { eapply Forall_impl; [by apply renumber_reversible|]. by intros p Hp _. }
  pose proof (keeps_scenes_apply_reversal_pass svc sc w1 _ _ Hrun) as Hw2.
  rewrite bind_run, Hrun. mstep.
  set (m := reversed_map_of (reversal_answer svc w1 sc)).
  exists (set_panels (swapped m <$> renumber 0 ps) sc), (swapped m <$> renumber 0 ps).
  eexists. split; [reflexivity|]. simpl.
  split; [by rewrite Hw2; destruct w|]. split; [by rewrite lookup_insert_eq|].
  split; [done|]. split; [done|]. split; [done|].
  split; [by rewrite length_fmap, length_renumber|].
  intros k p' Hk. rewrite list_lookup_fmap in Hk.
  destruct (renumber 0 ps !! k) as [q|] eqn:Hq; [|done]. injection Hk as <-.
  apply renumber_lookup in Hq as (p & _ & Hi & Hr & Hm & _).
  rewrite !swapped_lookup by done. rewrite Hi, Hr, Hm.
  split; [do 2 f_equal; lia|]. split; eauto.
Qed.

Section Stems.
Import QualityGate.

(** ** A name and the stem of its files *)

Lemma smap_sall_ext P f g s :
  sall P s = true → (∀ c, P c = true → f c = g c) → smap f s = smap g s.
Proof.
  intros Hs Hfg. induction s as [|c s IH]; simpl in *; [done|].
  apply andb_true_iff in Hs as [Hc Hs]. by rewrite Hfg, IH.
Qed.

Lemma smap_id s : smap (λ c, c) s = s.
Proof. induction s as [|c s IH]; simpl; [done|]. by rewrite IH. Qed.

(** A replacement whose pattern, one character, is not in the string. *)
Lemma replace_char_absent a new s :
  sall (λ c, negb (Ascii.eqb a c)) s = true →
  Py.replace (String a EmptyString) new s = s.
Proof.
  unfold Py.replace. induction s as [|c s IH]; [done|]. simpl.
  intros [Hc Hs]%andb_true_iff. apply negb_true_iff in Hc.
  destruct (ascii_dec a c) as [->|Hne]; [by rewrite Ascii.eqb_refl in Hc|].
  by rewrite IH.
Qed.

Lemma sall_impl (P Q : ascii → bool) s :
  (∀ c, P c = true → Q c = true) → sall P s = true → sall Q s = true.
Proof.
  intros HPQ. induction s as [|c s IH]; simpl; [done|].
  intros [Hc Hs]%andb_true_iff. by rewrite HPQ, IH.
Qed.

(** The stem of a plain name: its spaces become underscores, its
    letters lower case. *)
Lemma safe_name_plain n :
  sall plain_char n = true →
  safe_name n = smap (λ c, Py.lower_char (if Ascii.eqb " " c then "_"%char else c)) n.
Proof.
  intros Hn. unfold safe_name, Py.dquote.
  rewrite (replace_char_absent "/" "-" n), (replace_char_absent "'" " " n),
    (replace_char_absent "034" "" n).
  - by rewrite replace_char_smap, lower_smap, smap_smap.
  - eapply sall_impl; [|exact Hn].
    intros [[] [] [] [] [] [] [] []]; vm_compute; congruence.
  - eapply sall_impl; [|exact Hn].
    intros [[] [] [] [] [] [] [] []]; vm_compute; congruence.
  - eapply sall_impl; [|exact Hn].
    intros [[] [] [] [] [] [] [] []]; vm_compute; congruence.
Qed.

Lemma title_go_lower b s : Py.title_go b (Py.lower s) = Py.title_go b s.
Proof.
  revert b; induction s as [|c s IH]; intros b; [done|].
  cbn [Py.lower Py.title_go]. rewrite IH. f_equal.
  - destruct b; revert c; intros [[] [] [] [] [] [] [] []]; vm_compute; reflexivity.
  - f_equal. revert c; intros [[] [] [] [] [] [] [] []]; vm_compute; reflexivity.
Qed.

(** The name that the next run reads off the stem of a plain name is
    the name in Title Case. *)
Lemma stem_round_trip n :
  sall plain_char n = true →
  Py.title (Py.replace "_" " " (safe_name n)) = Py.title n.
Proof.
  intros Hn. rewrite (safe_name_plain n Hn), replace_char_smap, smap_smap.
  rewrite (smap_sall_ext plain_char _ Py.lower_char n Hn).
  - rewrite <- lower_smap. apply title_go_lower.
  - intros [[] [] [] [] [] [] [] []]; vm_compute; congruence.
Qed.

Lemma length_app_string a b :
  String.length (a +:+ b) = (String.length a + String.length b)%nat.
Proof. induction a as [|c a IH]; simpl; [done|]. by rewrite IH. Qed.

Lemma substring_all s : String.substring 0 (String.length s) s = s.
Proof. induction s as [|c s IH]; simpl; [done|]. by rewrite IH. Qed.

Lemma substring_app_r a b :
  String.substring (String.length a) (String.length b) (a +:+ b) = b.
Proof. induction a as [|c a IH]; simpl; [apply substring_all|done]. Qed.

Lemma substring_app_l a b :
  String.substring 0 (String.length a) (a +:+ b) = a.
Proof.
  induction a as [|c a IH]; simpl; [by destruct b|]. by rewrite IH.
Qed.

Lemma prefix_app a b : String.prefix a (a +:+ b) = true.
Proof.
  induction a as [|c a IH]; simpl; [by destruct b|].
  destruct (ascii_dec c c); [done|congruence].
Qed.

Lemma contains_char_app a s t :
  Py.contains (String a EmptyString) (s +:+ t)
  = Py.contains (String a EmptyString) s || Py.contains (String a EmptyString) t.
Proof.
  assert (Hpre : ∀ u, String.prefix EmptyString u = true) by (by intros []).
  induction s as [|c s IH]; [done|].
  cbn [Py.contains String.prefix]. change (String c s +:+ t) with (String c (s +:+ t)).
  cbn [Py.contains String.prefix]. rewrite IH, !Hpre.
  destruct (ascii_dec a c); simpl; [done|done].
Qed.

Lemma contains_char_absent a s :
  sall (λ c, negb (Ascii.eqb a c)) s = true →
  Py.contains (String a EmptyString) s = false.
Proof.
  induction s as [|c s IH]; simpl; [done|].
  intros [Hc Hs]%andb_true_iff. apply negb_true_iff in Hc.
  destruct (ascii_dec a c) as [->|Hne]; [by rewrite Ascii.eqb_refl in Hc|].
  by rewrite IH.
Qed.

Lemma sall_smap P f s : sall P (smap f s) = sall (λ c, P (f c)) s.
Proof. induction s as [|c s IH]; simpl; [done|]. by rewrite IH. Qed.

Lemma safe_name_plain_stem n :
  sall plain_char n = true → n ≠ "" →
  safe_name n ≠ "" ∧ Py.contains "/" (safe_name n) = false.
Proof.
  intros Hn Hne. rewrite (safe_name_plain n Hn). split.
  - by destruct n.
  - apply contains_char_absent. rewrite sall_smap.
    eapply sall_impl; [|exact Hn].
    intros [[] [] [] [] [] [] [] []]; vm_compute; congruence.
Qed.

(** [REF_DIR.glob("*.png")] finds the image of a stem. *)
Lemma glob_png_member (fs : gmap string content) stem c :
  fs !! (REF_DIR +:+ stem +:+ ".png") = Some c →
  stem ≠ "" → Py.contains "/" stem = false →
  (stem, REF_DIR +:+ stem +:+ ".png") ∈ glob_png fs.
Proof.
  intros Hfile Hne Hslash. unfold glob_png. apply list_elem_of_omap.
  exists (REF_DIR +:+ stem +:+ ".png", c).
  split; [by apply elem_of_map_to_list|]. cbv zeta. cbn [fst].
  unfold Py.startswith. rewrite prefix_app.
  assert (Hfname : String.substring (String.length REF_DIR)
                     (String.length (REF_DIR +:+ stem +:+ ".png")
                      - String.length REF_DIR) (REF_DIR +:+ stem +:+ ".png")
                   = stem +:+ ".png").
  { rewrite (length_app_string REF_DIR).
    replace (String.length REF_DIR + String.length (stem +:+ ".png")
             - String.length REF_DIR)%nat
      with (String.length (stem +:+ ".png")) by lia.
    apply substring_app_r. }
  rewrite Hfname.
  assert (Hends : Py.endswith (stem +:+ ".png") ".png" = true).
  { unfold Py.endswith. rewrite length_app_string.
    replace (String.length stem + String.length ".png" - String.length ".png")%nat
      with (String.length stem) by lia.
    rewrite substring_app_r. simpl String.length.
    apply andb_true_iff. split; [apply Nat.leb_le; lia|done]. }
  rewrite Hends, contains_char_app, Hslash. simpl orb. cbn [negb andb].
  rewrite length_app_string. simpl String.length.
  assert (String.length stem ≠ 0%nat) by (by destruct stem).
  destruct (Nat.ltb_spec 4 (String.length stem + 4)); [|lia].
  unfold Py.take.
  replace (String.length stem + 4 - 4)%nat with (String.length stem) by lia.
  by rewrite substring_app_l.
Qed.

Lemma load_existing_member (fs : gmap string content) registry stem path :
  (stem, path) ∈ glob_png fs →
  is_Some (load_existing fs registry !! Py.title (Py.replace "_" " " stem)).
Proof.
  unfold load_existing. generalize (glob_png fs). intros l. revert registry.
  induction l as [|x l IH]; intros registry Hin; [by apply elem_of_nil in Hin|].
  cbn [foldl]. apply elem_of_cons in Hin as [<-|Hin]; [|by apply IH].
  assert (Hkeep : ∀ l' (reg : gmap string string) k,
            is_Some (reg !! k) →
            is_Some (foldl (λ reg f, <[Py.title (Py.replace "_" " " f.1) := f.2]> reg)
                       reg l' !! k)).
  { clear. induction l' as [|y l' IH]; intros reg k Hk; [done|].
    cbn [foldl]. apply IH. rewrite lookup_insert_is_Some'. by right. }
  apply Hkeep. simpl. rewrite lookup_insert_eq. eauto.
Qed.


Lemma lower_title_go b s : Py.lower (Py.title_go b s) = Py.lower s.
Proof.
  revert b; induction s as [|c s IH]; intros b; [done|].
  cbn [Py.lower Py.title_go]. rewrite IH. f_equal.
  destruct b; revert c; intros [[] [] [] [] [] [] [] []]; vm_compute; reflexivity.
Qed.

(** The name that the next run reads off the stem of a plain name
    normalises, for [find_ref], to the normalised name. *)
Lemma reread_name_norm n :
  sall plain_char n = true →
  query_norm (Py.title (Py.replace "_" " " (safe_name n))) = catalog_norm n.
Proof.
  intros Hn. unfold query_norm, catalog_norm, Py.dquote, Py.title.
  rewrite lower_title_go.
  rewrite (safe_name_plain n Hn), !lower_smap, !replace_char_smap, !smap_smap.
  assert (Hclean : ∀ a, (a = "'" ∨ a = "034")%char → ∀ f,
            (∀ c, plain_char c = true → negb (Ascii.eqb a (f c)) = true) →
            ∀ new, Py.replace (String a EmptyString) new (smap f n) = smap f n).
  { intros a _ f Hf new. apply replace_char_absent. rewrite sall_smap.
    eapply sall_impl; [|exact Hn]. exact Hf. }
  rewrite (Hclean "'"%char); [rewrite (Hclean "034"%char)|..]; try tauto.
  - apply (smap_sall_ext plain_char); [done|].
    intros [[] [] [] [] [] [] [] []]; vm_compute; congruence.
  - intros [[] [] [] [] [] [] [] []]; vm_compute; congruence.
  - intros [[] [] [] [] [] [] [] []]; vm_compute; congruence.
Qed.


End Stems.

(** ** The registry and the disk *)

Global Instance grows_on_disk_refl : Reflexive grows_on_disk.
Proof. by intros w. Qed.
Global Instance grows_on_disk_trans : Transitive grows_on_disk.
Proof. intros w1 w2 w3 [F1 I1] [F2 I2]. split; auto. Qed.

Lemma keeps_grows_quiet (f : world → world) :
  (∀ w, files (f w) = files w ∧ CHARACTER_IMAGES (f w) = CHARACTER_IMAGES w) →
  keeps grows_on_disk (modify f).
Proof.
  intros Hf. k_apply keeps_modify. intros w. destruct (Hf w) as [H1 H2].
  split; [by rewrite H1|]. unfold registry_on_disk. by rewrite H1, H2.
Qed.

Lemma keeps_grows_log_event e : keeps grows_on_disk (log_event e).
Proof. apply keeps_grows_quiet. by intros []. Qed.

Lemma keeps_grows_write path c : keeps grows_on_disk (write path c).
Proof.
  k_apply keeps_modify. intros w.
  assert (∀ p, is_Some (files w !! p) → is_Some (files (set_files (insert path c) w) !! p)).
  { intros p Hp. simpl. rewrite lookup_insert_is_Some'. by right. }
  split; [done|]. intros Hreg n p Hn. destruct w; simpl in *. eauto.
Qed.

Lemma glob_png_on_disk (fs : gmap string content) stem path :
  (stem, path) ∈ glob_png fs → is_Some (fs !! path).
Proof.
  unfold glob_png. intros Hin. apply list_elem_of_omap in Hin as ([p c] & Hpc & Hx).
  apply elem_of_map_to_list in Hpc. simpl in Hx.
  repeat case_match; simplify_eq; eauto.
Qed.

Lemma load_existing_on_disk (fs : gmap string content) registry n p :
  load_existing fs registry !! n = Some p →
  registry !! n = Some p ∨ is_Some (fs !! p).
Proof.
  unfold load_existing.
  assert (Hgen : ∀ (l : list (string * string)) (reg : gmap string string),
            (∀ x, x ∈ l → is_Some (fs !! x.2)) →
            foldl (λ reg f, <[Py.title (Py.replace "_" " " f.1) := f.2]> reg) reg l
              !! n = Some p →
            reg !! n = Some p ∨ is_Some (fs !! p)).
  { induction l as [|x l IH]; intros reg Hl; [by left|]. cbn [foldl].
    intros Hn. apply IH in Hn as [Hn|?]; [|by right|].
    - apply lookup_insert_Some in Hn as [[_ <-]|[_ Hn]]; [right|by left].
      apply Hl. left.
    - intros y Hy. apply Hl. by right. }
  apply Hgen. intros [stem path] Hin. by eapply glob_png_on_disk.
Qed.

Lemma keeps_grows_generate_image r reply :
  keeps grows_on_disk (generate_image r reply).
Proof.
  unfold generate_image.
  k_apply keeps_bind; [k_apply keeps_gets|intros t].
  k_apply keeps_bind; [apply keeps_grows_log_event|intros _].
  destruct (reply t); (k_apply keeps_raise || k_apply keeps_ret).
Qed.

Lemma keeps_grows_generate_json {A} r (reply : list event → option A) empty :
  keeps grows_on_disk (generate_json_with_schema r reply empty).
Proof.
  unfold generate_json_with_schema.
  k_apply keeps_bind; [k_apply keeps_gets|intros t].
  k_apply keeps_bind; [apply keeps_grows_log_event|intros _].
  k_apply keeps_ret.
Qed.

Lemma keeps_grows_Image_open path : keeps grows_on_disk (Image_open path).
Proof.
  unfold Image_open. k_apply keeps_bind; [k_apply keeps_gets|intros fs].
  destruct (fs !! path) as [[]|]; (k_apply keeps_raise || k_apply keeps_ret).
Qed.

(** Saving the image and entering it in the registry. *)
Lemma keeps_grows_register path img n :
  keeps grows_on_disk
    (write path (Png img);; modify (set_CHARACTER_IMAGES (insert n path))).
Proof.
  intros w r w'. mstep. intros [= <- <-]. split.
  - intros p Hp. simpl. rewrite lookup_insert_is_Some'. by right.
  - intros Hreg n' p. simpl. intros Hn.
    apply lookup_insert_Some in Hn as [[_ <-]|[_ Hn]].
    + rewrite lookup_insert_eq. eauto.
    + rewrite lookup_insert_is_Some'. right. by eapply Hreg.
Qed.

Section Disk.
Context (svc : service) (sched : scheduler) (cfg : config).

Lemma keeps_grows_generate_single_reference char :
  keeps grows_on_disk (generate_single_reference svc char).
Proof.
  unfold generate_single_reference.
  k_apply keeps_bind; [k_apply keeps_gets|intros registry].
  k_apply keeps_if; [k_apply keeps_ret|].
  k_apply keeps_bind; [|intros style].
  { k_apply keeps_if; [|k_apply keeps_ret].
    k_apply keeps_bind; [k_apply keeps_gets|intros fs].
    k_apply keeps_if; [|k_apply keeps_ret].
    k_apply keeps_bind; [apply keeps_grows_Image_open|intros img].
    k_apply keeps_ret. }
  k_apply keeps_bind; [apply keeps_grows_write|intros _].
  k_apply keeps_try_except; [|intros e; apply keeps_grows_log_event].
  k_apply keeps_bind; [apply keeps_grows_generate_image|intros resp].
  destruct resp; try k_apply keeps_ret.
  apply keeps_grows_register.
Qed.

Lemma keeps_grows_auto_cast text :
  keeps grows_on_disk (auto_cast_characters svc sched cfg text).
Proof.
  unfold auto_cast_characters.
  assert (Hload : keeps grows_on_disk
            (fs ← gets files; modify (set_CHARACTER_IMAGES (load_existing fs)))).
  { intros w r w'. mstep. intros [= <- <-]. split; [by destruct w|].
    intros Hreg n p. simpl. intros Hn.
    apply load_existing_on_disk in Hn as [Hn|Hn]; [by eapply Hreg|done]. }
  intros w r w' Hrun.
  rewrite bind_run in Hrun. cbn [gets] in Hrun.
  rewrite bind_run in Hrun.
  specialize (Hload w). rewrite bind_run in Hload. cbn [gets] in Hload.
  destruct (modify (set_CHARACTER_IMAGES (load_existing (files w))) w)
    as [[[]|e] w1] eqn:Hm; [|discriminate].
  specialize (Hload _ _ eq_refl).
  etrans; [exact Hload|]. revert Hrun. generalize w1 r w'. clear.
  change (keeps grows_on_disk
    (if negb (reference_characters_enabled cfg) then mret tt
     else registry ← gets CHARACTER_IMAGES;
          let existing := (map_to_list registry).*1 in
          new_chars ← generate_json_with_schema (CastingPrompt existing text)
                        (λ t, casting_reply svc t existing text) [];
          if bool_decide (new_chars = []) then mret tt
          else executor_map sched (generate_single_reference svc) new_chars)).
  k_apply keeps_if; [k_apply keeps_ret|].
  k_apply keeps_bind; [k_apply keeps_gets|intros registry].
  k_apply keeps_bind; [apply keeps_grows_generate_json|intros new_chars].
  k_apply keeps_if; [k_apply keeps_ret|].
  k_apply keeps_executor_map. apply keeps_grows_generate_single_reference.
Qed.

Lemma keeps_grows_generate_combined_grid x :
  keeps grows_on_disk (generate_combined_grid svc cfg x).
Proof.
  destruct x as [sc sid]. unfold generate_combined_grid, identify_scene_characters.
  k_apply keeps_bind; [|intros needed].
  { k_apply keeps_if; [apply keeps_grows_generate_json|k_apply keeps_ret]. }
  k_apply keeps_bind; [k_apply keeps_gets|intros fs].
  k_apply keeps_bind; [k_apply keeps_gets|intros registry].
  k_apply keeps_bind; [|intros _].
  { apply stateless_keeps; [apply _|apply stateless_read_prompt_keys]. }
  k_apply keeps_bind; [|intros generated].
  { k_apply keeps_if; [k_apply keeps_ret|].
    k_apply keeps_try_except.
    - k_apply keeps_bind; [|intros resp].
      + k_apply keeps_retry_on_errors.
        * k_apply keeps_bind; [k_apply keeps_ret|intros _].
          apply keeps_grows_generate_image.
        * intros e _. apply keeps_grows_log_event.
      + destruct resp as [[| |img]|]; try k_apply keeps_raise.
        k_apply keeps_bind; [apply keeps_grows_write|intros; k_apply keeps_ret].
    - intros e. k_apply keeps_bind; [|intros; k_apply keeps_ret].
      apply keeps_grows_log_event. }
  k_apply keeps_if; [|k_apply keeps_ret].
  k_apply keeps_bind; [apply keeps_grows_Image_open|intros img].
  k_apply keeps_for_each. intros s _. apply keeps_grows_write.
Qed.

Lemma keeps_grows_apply_reversal_pass sc :
  keeps grows_on_disk (apply_reversal_pass svc sc).
Proof.
  unfold apply_reversal_pass.
  apply keeps_if; [k_apply keeps_ret|].
  k_apply keeps_bind.
  - k_apply keeps_retry_on_errors; [|intros e _; apply keeps_grows_log_event].
    k_apply keeps_bind; [k_apply keeps_ret|intros _].
    apply keeps_grows_generate_json.
  - intros [[|item items]|].
    + k_apply keeps_bind; [apply keeps_grows_log_event|intros _].
      k_apply keeps_ret.
    + destruct (panels sc); [|k_apply keeps_ret].
      k_apply keeps_bind; [|intros; k_apply keeps_ret].
      k_apply keeps_for_list. intros p _.
      apply stateless_keeps; [apply _|].
      unfold reverse_panel. destruct (is_reversed p); [|apply stateless_ret].
      apply stateless_bind; [apply stateless_getitem|intros v].
      apply stateless_bind.
      { destruct v; (apply stateless_ret || apply stateless_raise). }
      intros [txt|]; [|apply stateless_ret].
      repeat (apply stateless_bind; [apply stateless_getitem|intros ?]).
      apply stateless_ret.
    + k_apply keeps_bind; [apply keeps_grows_log_event|intros _].
      k_apply keeps_ret.
Qed.

Lemma keeps_grows_refine_single_scene x :
  keeps grows_on_disk (refine_single_scene svc x).
Proof.
  destruct x as [[ec scn] draft]. unfold refine_single_scene, refine_scenes_for_episode.
  k_apply keeps_bind; [|intros refined].
  { k_apply keeps_retry_on_errors; [|intros e _; apply keeps_grows_log_event].
    k_apply keeps_bind; [k_apply keeps_ret|intros _].
    apply keeps_grows_generate_json. }
  destruct refined as [doc|]; [|k_apply keeps_raise].
  destruct (default [] doc) as [|refined_scene more]; [k_apply keeps_raise|].
  destruct (panels refined_scene) as [ps|]; [|k_apply keeps_raise].
  k_apply keeps_bind; [apply keeps_grows_apply_reversal_pass|intros s].
  k_apply keeps_bind; [apply keeps_grows_quiet; by intros []|intros _].
  apply keeps_grows_write.
Qed.

Lemma keeps_grows_batch_refinement k l :
  keeps grows_on_disk (batch_refinement_from k l).
Proof.
  revert k; induction l as [|[ec data] l IH]; intros k; [k_apply keeps_ret|].
  cbn [batch_refinement_from].
  k_apply keeps_bind; [apply keeps_grows_write|intros _].
  destruct (batch_scenes ec k (default [] data)) as [n batch].
  k_apply keeps_bind; [apply IH|intros; k_apply keeps_ret].
Qed.

Lemma keeps_grows_analyze_scenes_master text :
  keeps grows_on_disk (analyze_scenes_master svc sched cfg text).
Proof.
  unfold analyze_scenes_master, analyze_episodes_master.
  k_apply keeps_bind; [apply keeps_grows_generate_json|intros sp].
  k_apply keeps_bind; [apply keeps_grows_auto_cast|intros _].
  k_apply keeps_bind; [apply keeps_grows_write|intros _].
  k_apply keeps_bind; [apply keeps_grows_quiet; by intros []|intros _].
  k_apply keeps_bind; [apply keeps_grows_quiet; by intros []|intros _].
  destruct (episodes sp) as [eps|]; [|k_apply keeps_raise].
  k_apply keeps_bind; [|intros _].
  { k_apply keeps_executor_map. intros [ec ep]. unfold analyze_scenes_for_episode.
    k_apply keeps_bind; [apply keeps_grows_generate_json|intros data].
    apply keeps_grows_quiet. by intros []. }
  k_apply keeps_bind; [k_apply keeps_gets|intros collected].
  k_apply keeps_bind; [apply keeps_grows_batch_refinement|intros batch].
  k_apply keeps_bind; [|intros _].
  { k_apply keeps_executor_map. apply keeps_grows_refine_single_scene. }
  k_apply keeps_bind; [k_apply keeps_gets|intros refined].
  k_apply keeps_bind; [|intros; k_apply keeps_ret].
  k_apply keeps_for_each. intros s _.
  destruct (scene_id s); (k_apply keeps_raise || k_apply keeps_ret).
Qed.

(** X21. The script removes no file, and keeps the registry on disk:
    when every identity of the registry has its file before a run of
    [main], and a fresh process has an empty registry, then so it is
    after the run, however the run ends. *)
Theorem the_registry_stays_on_disk
    (text : string) (scene_arg : option string) (w w' : world)
    (r : result unit) :
  main svc sched cfg text scene_arg w = (r, w') →
  (∀ p, is_Some (files w !! p) → is_Some (files w' !! p))
  ∧ (registry_on_disk w → registry_on_disk w')
  ∧ (CHARACTER_IMAGES w = ∅ → registry_on_disk w').
Proof.
  intros Hrun.
  assert (Hmain : keeps grows_on_disk (main svc sched cfg text scene_arg)).
  { unfold main.
    k_apply keeps_bind; [apply keeps_grows_auto_cast|intros _].
    k_apply keeps_bind; [|intros data].
    { k_apply keeps_if; [apply keeps_grows_analyze_scenes_master|].
      k_apply keeps_bind; [k_apply keeps_gets|intros fs].
      destruct (fs !! metadata_file) as [[]|];
        (k_apply keeps_raise || k_apply keeps_ret). }
    destruct data as [scenes|]; [|apply keeps_grows_log_event].
    k_apply keeps_bind; [apply keeps_grows_write|intros _].
    k_apply keeps_render_selected. apply keeps_grows_generate_combined_grid. }
  destruct (Hmain _ _ _ Hrun) as [Hfiles Hreg].
  split; [done|]. split; [done|].
  intros Hempty. apply Hreg. intros n p. by rewrite Hempty, lookup_empty.
Qed.
End Disk.

(** ** The scenarios *)

Import Example.





(** C5, the claim as it is written, fails: a score of eleven and a prompt
    for a panel that needs no refinement go into the directive as the
    service returned them. *)
Lemma directive_not_capped :
  ∃ d g',
    QualityGate.analyze_panel (scoring wild_answer) gate_images 6
      (Raster 2 1200 1200) (gate_panel 1) gate_scene ∅ 1 (JInt 1) idle
      = (Ok d, g')
    ∧ d !! "fidelity" = Some (JInt 11)
    ∧ d !! "needs_refinement" = Some (JBool false)
    ∧ d !! "refinement_prompt" = Some (JStr "sharpen the face")
    ∧ ¬ valid_directive d.
Proof.
  pose proof (analyze_panel_run (scoring wild_answer) gate_images 6
                (Raster 2 1200 1200) (gate_panel 1) gate_scene ∅ 1 (JInt 1)
                idle) as Hrun.
  destruct (prev_panels_of (gate_panel 1) gate_scene idle)
    as [[prev|e] g0] eqn:Hprev.
  - cbv zeta in Hrun. unfold scoring in Hrun.
    eexists _, _. split; [exact Hrun|].
    assert (Hfid : directive_of gate_images 6 (gate_panel 1) ∅ 1 (JInt 1)
                     wild_answer !! "fidelity" = Some (JInt 11)).
    { unfold directive_of, wild_answer. by simplify_map_eq. }
    split; [exact Hfid|].
    split; [unfold directive_of, wild_answer, good_answer; by simplify_map_eq|].
    split; [unfold directive_of, wild_answer; by simplify_map_eq|].
    intros ((z & Hz & Hrange) & _).
    rewrite Hfid in Hz. injection Hz as <-. lia.
  - apply (f_equal fst) in Hprev. vm_compute in Hprev. discriminate.
Qed.

(** An answer in range gives a valid directive. *)
Lemma directive_as_returned_witness :
  ∃ d g',
    QualityGate.analyze_panel (scoring good_answer) gate_images 6
      (Raster 2 1200 1200) (gate_panel 1) gate_scene ∅ 1 (JInt 1) idle
      = (Ok d, g')
    ∧ (∀ k, k ∈ scored_keys → d !! k = good_answer !! k)
    ∧ valid_directive d.
Proof.
  destruct (QualityGate.analyze_panel (scoring good_answer) gate_images 6
              (Raster 2 1200 1200) (gate_panel 1) gate_scene ∅ 1 (JInt 1) idle)
    as [r g'] eqn:Hrun.
  assert (Hok : match r with Ok _ => True | Raise _ => False end).
  { apply (f_equal fst) in Hrun. simpl in Hrun. rewrite <- Hrun.
    vm_compute. exact I. }
  destruct r as [d|e]; [|destruct Hok].
  destruct (directive_as_returned (scoring good_answer) gate_images 6
              (Raster 2 1200 1200) (gate_panel 1) gate_scene ∅ 1 (JInt 1)
              idle g' d Hrun) as (prev & Hcase).
  unfold scoring in Hcase. destruct Hcase as [Hkeys Hvalid].
  exists d, g'. split; [reflexivity|]. split; [exact Hkeys|].
  apply Hvalid. unfold valid_directive, score_in_range.
  repeat split; try (eexists; split; [reflexivity|lia]).
Defined.

(** Three attempts of a call that is always refused as unavailable: two
    sleeps, of 2 and of 4 seconds, and the error of the third attempt. *)
Lemma retry_on_errors_attempts_witness :
  ∃ w',
    retry_on_errors 3 2
      (generate_image (GridImage 1 bare_scene [])
         (λ _, ImageRaises unavailable)) fresh
    = (Raise unavailable, w')
    ∧ trace w'
      = [Called (GridImage 1 bare_scene []); Slept 2;
         Called (GridImage 1 bare_scene []); Slept 4;
         Called (GridImage 1 bare_scene []);
         Logged ("Max retries reached: " +:+ str unavailable)].
Proof.
  set (func := generate_image (GridImage 1 bare_scene [])
                 (λ _, ImageRaises unavailable)).
  assert (Hfail : ∀ k, (k < 2)%nat →
            ∃ e, (func (world_before 2 func fresh k)).1 = Raise e
                 ∧ is_transient (str e) = true).
  { intros k Hk. exists unavailable.
    destruct k as [|[|k]]; [split; vm_compute; reflexivity..|lia]. }
  destruct (retry_on_errors_attempts 3 2 func fresh 2 ltac:(lia) Hfail)
    as (_ & _ & _ & Hlast).
  eexists. split.
  - apply (Hlast unavailable); [vm_compute; reflexivity|reflexivity|lia].
  - vm_compute. reflexivity.
Defined.

(** C6, the claim as it is written, fails: when the retries are used up
    the wrapper raises the error of the last attempt, which is of the
    transient class, and no other error. *)
Lemma exhausted_retries_raise_the_transient_error :
  ∃ w',
    retry_on_errors 3 2
      (generate_image (GridImage 1 bare_scene [])
         (λ _, ImageRaises unavailable)) fresh
    = (Raise unavailable, w')
    ∧ is_transient (str unavailable) = true
    ∧ (generate_image (GridImage 1 bare_scene [])
         (λ _, ImageRaises unavailable) fresh).1 = Raise unavailable.
Proof.
  eexists. split; [vm_compute; reflexivity|]. split; reflexivity.
Qed.

(** A second run on a disk that holds the grid of scene 1 and the image of
    Eckels: the grid is not generated again, Eckels is not cast again, and
    casting asks for new identities once. *)
Lemma rerun_is_cheap_witness :
  (∃ r w',
     generate_combined_grid (studio 0 None) dual_grid (cast_scene, 1) registered
       = (r, w')
     ∧ calls (trace w') = []
     ∧ files w' !! grid_file 1 = Some (Png (Raster 2 1200 1200)))
  ∧ generate_single_reference (studio 0 None) eckels registered
    = (Ok tt, registered)
  ∧ ∃ w',
      auto_cast_characters (studio 0 None) fifo dual_grid (Story "story")
        registered = (Ok tt, w')
      ∧ files w' = files registered
      ∧ calls (trace w') = [CastingPrompt ["Eckels"] (Story "story")].
Proof.
  destruct (rerun_is_cheap (studio 0 None) fifo dual_grid cast_scene 1 eckels
              (Story "story") registered (Png (Raster 2 1200 1200)))
    as (Hgrid & Hreference & Hcasting).
  split; [|split].
  - destruct (generate_combined_grid (studio 0 None) dual_grid
                (cast_scene, 1) registered) as [r w'] eqn:Hrun.
    destruct (Hgrid ltac:(vm_compute; reflexivity) r w' eq_refl)
      as (_ & Hfile & Hcalls & _).
    exists r, w'. split; [reflexivity|]. split; [|exact Hfile].
    rewrite Hcalls; [reflexivity|]. vm_compute. discriminate.
  - apply Hreference. vm_compute. eauto.
  - destruct Hcasting as (w' & Hrun & Hfiles & Hcalls).
    + intros T l. reflexivity.
    + reflexivity.
    + intros c Hc. vm_compute in Hc. apply list_elem_of_singleton in Hc as ->.
      vm_compute. eauto.
    + exists w'. split; [exact Hrun|]. split; [exact Hfiles|].
      rewrite Hcalls. vm_compute. reflexivity.
Defined.

(** C7, the claim as it is written, fails: on a disk that holds every
    output, casting again calls the casting prompt, and rendering again a
    scene whose panels list no reference asks which references it needs. *)
Lemma rerun_calls_services :
  is_Some (files rendered !! grid_file 1)
  ∧ is_Some (files rendered !! (REF_DIR +:+ safe_name "Eckels" +:+ ".png"))
  ∧ calls (trace rendered) = []
  ∧ (auto_cast_characters (studio 0 None) fifo dual_grid (Story "story")
       rendered).1 = Ok tt
  ∧ calls (trace (auto_cast_characters (studio 0 None) fifo dual_grid
                    (Story "story") rendered).2)
    = [CastingPrompt ["Eckels"] (Story "story")]
  ∧ (generate_combined_grid (studio 0 None) dual_grid (bare_scene, 1)
       rendered).1 = Ok tt
  ∧ calls (trace (generate_combined_grid (studio 0 None) dual_grid
                    (bare_scene, 1) rendered).2)
    = [IdentifyPrompt bare_scene].
Proof.
  split; [vm_compute; eauto|]. split; [vm_compute; eauto|].
  repeat split; vm_compute; reflexivity.
Qed.

(** Eckels and ECKELS share the entry [eckels]. *)
Lemma case_variants_share_entry_witness :
  safe_name "Eckels" = safe_name "ECKELS"
  ∧ ∀ r w' p,
      generate_single_reference (studio 0 None)
        (Character "ECKELS" "Character" "a hunter" "a hunter" "ECKELS")
        fresh = (r, w') →
      files w' !! p ≠ files fresh !! p → entry_paths "Eckels" p.
Proof.
  destruct (case_variants_share_entry eckels
              (Character "ECKELS" "Character" "a hunter" "a hunter" "ECKELS")
              ltac:(vm_compute; reflexivity)) as [Hsafe Hfiles].
  split; [exact Hsafe|].
  intros r w' p Hrun Hp.
  exact (Hfiles (studio 0 None) _ fresh r w' (or_intror eq_refl) Hrun p Hp).
Defined.

(** C8, the claim as it is written, fails: a trailing space becomes a
    trailing underscore, so that Eckels and eckels with a space after it
    get two entries. *)
Lemma spacing_variants_get_two_entries :
  safe_name "Eckels" = "eckels"
  ∧ safe_name "eckels " = "eckels_"
  ∧ safe_name "Eckels" ≠ safe_name "eckels "
  ∧ (twice_cast (studio 0 None)).1 = Ok tt
  ∧ (map_to_list (files (twice_cast (studio 0 None)).2)).*1
    ≡ₚ [REF_DIR +:+ "eckels.json"; REF_DIR +:+ "eckels.png";
        REF_DIR +:+ "eckels_.json"; REF_DIR +:+ "eckels_.png"].
Proof.
  split; [reflexivity|]. split; [reflexivity|].
  split; [vm_compute; discriminate|].
  split; [vm_compute; reflexivity|].
  apply (bool_decide_unpack _). vm_compute. reflexivity.
Qed.


(** C9: the code breaks the claim. When the screenplay has no episode,
    [main] casts on the empty screenplay, writes the metadata of an empty
    list of scenes and returns, without a word in the log. *)
Theorem zero_episodes_run_to_the_end :
  (main (studio 0 (Some [])) fifo dual_grid "story" None fresh).1 = Ok tt
  ∧ files (main (studio 0 (Some [])) fifo dual_grid "story" None fresh).2
      !! metadata_file = Some (ScenesJson (Some []))
  ∧ calls (trace (main (studio 0 (Some [])) fifo dual_grid "story" None
                    fresh).2)
    = [CastingPrompt [] (Story "story");
       ReferenceImage eckels None;
       ScreenplayPrompt "story";
       CastingPrompt ["Eckels"] (Dumped (Screenplay (Some [])))]
  ∧ logged (trace (main (studio 0 (Some [])) fifo dual_grid "story" None
                     fresh).2) = [].
Proof. repeat split; vm_compute; reflexivity. Qed.

(** ** The scenarios of the further properties *)

Import Further.




(** The gate on a single grid for five panels: five crops of 400 by 600. *)
Lemma gate_crops_lie_in_the_image_witness :
  length (QualityGate.slice_grid (Raster 2 1200 1200) 5 false) = 5%nat
  ∧ ∀ crop, crop ∈ QualityGate.slice_grid (Raster 2 1200 1200) 5 false →
      ∃ b, crop = Crop b (Raster 2 1200 1200) ∧ box_size b = (400, 600).
Proof.
  destruct (gate_crops_lie_in_the_image (Raster 2 1200 1200) 1200 1200 5 3 2
              false eq_refl ltac:(lia) ltac:(lia) ltac:(lia) eq_refl)
    as (Hsingle & _ & Hcrops).
  split; [exact (Hsingle eq_refl)|].
  intros crop Hin. destruct (Hcrops crop Hin) as (b & Hb & Hsize & _).
  exists b. split; [exact Hb|exact Hsize].
Defined.

(** The shelf loads: its broken file is skipped. *)
Lemma shelf_loads :
  ∃ catalog,
    QualityGate.load_ref_catalog "ref_thriller/" (Some shelf) on_shelf
      = Ok catalog.
Proof.
  assert (H : match QualityGate.load_ref_catalog "ref_thriller/" (Some shelf)
                      on_shelf with
              | Ok _ => True
              | Raise _ => False
              end) by (vm_compute; exact I).
  destruct (QualityGate.load_ref_catalog "ref_thriller/" (Some shelf) on_shelf)
    as [catalog|e]; [by exists catalog|destruct H].
Qed.

(** The time machine is found when it is asked for with a hyphen. *)
Lemma reference_is_found_under_its_spellings_witness :
  ∃ catalog,
    QualityGate.load_ref_catalog "ref_thriller/" (Some shelf) on_shelf
      = Ok catalog
    ∧ is_Some (QualityGate.find_ref "time-machine" catalog).
Proof.
  destruct shelf_loads as [catalog Hload].
  exists catalog. split; [exact Hload|].
  apply (reference_is_found_under_its_spellings "ref_thriller/" shelf on_shelf
           catalog "time_machine" time_machine_json "time-machine"
           "time_machine" Hload).
  - apply list_elem_of_here.
  - right. vm_compute. reflexivity.
  - right. left. vm_compute. reflexivity.
Defined.


(** What is found for the query with a hyphen is the entry of the file
    time_machine.json. *)
Lemma find_ref_returns_a_reference_witness :
  ∃ catalog entry,
    QualityGate.load_ref_catalog "ref_thriller/" (Some shelf) on_shelf
      = Ok catalog
    ∧ QualityGate.find_ref "time-machine" catalog = Some entry
    ∧ ∃ stem data,
        (stem, QualityGate.JsonObject data) ∈ shelf
        ∧ entry = QualityGate.catalog_entry "ref_thriller/" on_shelf stem data.
Proof.
  destruct shelf_loads as [catalog Hload].
  destruct (QualityGate.find_ref "time-machine" catalog) as [entry|] eqn:Hfind.
  - exists catalog, entry. split; [exact Hload|]. split; [exact Hfind|].
    destruct (find_ref_returns_a_reference "ref_thriller/" shelf on_shelf
                catalog "time-machine" entry Hload Hfind)
      as (stem & data & Hin & Hentry & _).
    by exists stem, data.
  - exfalso.
    assert (H : match QualityGate.load_ref_catalog "ref_thriller/"
                        (Some shelf) on_shelf with
                | Ok c => bool_decide
                            (is_Some (QualityGate.find_ref "time-machine" c))
                | Raise _ => false
                end = true) by (vm_compute; reflexivity).
    rewrite Hload, Hfind in H. by apply bool_decide_eq_true, is_Some_None in H.
Defined.


(** The five panels of the gate's scene on a grid for nine: the
    directives number panels from 1 to 9, in ascending order. *)
Lemma directives_are_in_range_and_in_order_witness :
  ∃ rs g',
    QualityGate.process_scene (scoring good_answer) gate_images 6
      gate_scene ∅ "single_grid_animation" 9 None idle = (Ok rs, g')
    ∧ Forall (λ d, 1 ≤ panel_number d ≤ 9) rs
    ∧ ascending panel_number rs.
Proof.
  destruct (QualityGate.process_scene (scoring good_answer) gate_images 6
              gate_scene ∅ "single_grid_animation" 9 None idle)
    as [r g'] eqn:Hrun.
  assert (Hok : match r with Ok _ => True | Raise _ => False end).
  { apply (f_equal fst) in Hrun. simpl in Hrun. rewrite <- Hrun.
    vm_compute. exact I. }
  destruct r as [rs|e]; [|destruct Hok].
  destruct (directives_are_in_range_and_in_order (scoring good_answer)
              gate_images 6 gate_scene ∅ "single_grid_animation" 9 None
              idle g' rs 1 (Raster 2 1200 1200)
              eq_refl ltac:(vm_compute; reflexivity) Hrun)
    as (Hall & Hsorted & _).
  exists rs, g'. split; [reflexivity|]. split; [|exact Hsorted].
  eapply Forall_impl; [exact Hall|].
  intros d (_ & pm & pidv & _ & _ & _ & _ & _ & Hrange). exact Hrange.
Defined.






(** A screenplay without episodes stops the script on an empty disk with
    a TypeError, and no metadata is written. *)
Lemma failed_screenplay_stops_the_script_witness :
  ∃ w',
    main (studio 0 None) fifo dual_grid "story" None fresh
      = (Raise TypeError, w')
    ∧ files w' !! metadata_file = None.
Proof.
  destruct (failed_screenplay_stops_the_script (studio 0 None) fifo dual_grid
              "story" fresh (λ _, eq_refl))
    as (w' & Hrun & _ & Hmeta).
  exists w'. split; [exact Hrun|]. rewrite Hmeta. apply lookup_empty.
Defined.

(** Asked to render scene 1 again on an empty disk, the script stops for
    want of the metadata, and has analysed nothing. *)
Lemma rerendering_skips_the_analysis_witness :
  ∃ w',
    main (studio 0 None) fifo dual_grid "story" (Some "1") fresh
      = (Raise (FileNotFoundError metadata_file), w')
    ∧ Forall (λ e, ∀ q, e = Called q → is_analysis q = false) (trace w').
Proof.
  destruct (main (studio 0 None) fifo dual_grid "story" (Some "1") fresh)
    as [r w'] eqn:Hrun.
  destruct (rerendering_skips_the_analysis (studio 0 None) fifo dual_grid
              "story" "1" fresh w' r ltac:(discriminate) Hrun)
    as ((t & Htrace & Hnone) & _ & Habsent).
  exists w'. rewrite (Habsent (lookup_empty _)). split; [reflexivity|].
  rewrite Htrace. exact Hnone.
Defined.

(** Casting Eckels on an empty disk writes the descriptor and the
    portrait, and registers him. *)
Lemma casting_writes_the_descriptor_first_witness :
  ∃ w',
    generate_single_reference (studio 0 None) eckels fresh = (Ok tt, w')
    ∧ files w' !! descriptor_path eckels = Some (CharacterJson eckels)
    ∧ files w' !! portrait_path eckels = Some (Png (Raster 1 768 1024))
    ∧ CHARACTER_IMAGES w' = {[ "Eckels" := portrait_path eckels ]}.
Proof.
  destruct (casting_writes_the_descriptor_first (studio 0 None) eckels fresh)
    as (w' & Hrun & Hjson & _ & Hportrait & Hregistry).
  - apply lookup_empty.
  - intros c Hc.
    assert (Hnone : files fresh !! style_path eckels = None)
      by apply lookup_empty.
    rewrite Hnone in Hc. discriminate.
  - exists w'. split; [exact Hrun|]. split; [exact Hjson|].
    split; [exact Hportrait|exact Hregistry].
Defined.

(** The refinement of scene 5 comes back numbered 1 and is filed under 5,
    with its two panels numbered 1 and 2. *)
Lemma refined_scene_is_renumbered_witness :
  ∃ s ps' w',
    refine_single_scene (studio 0 None) (2, 5, bare_scene) fresh = (Ok tt, w')
    ∧ all_scenes w' = [s]
    ∧ scene_id s = Some 5
    ∧ panels s = Some ps'
    ∧ length ps' = 2%nat.
Proof.
  destruct (refined_scene_is_renumbered (studio 0 None) 2 5 bare_scene fresh
              fog_scene [] [plain_panel; fog_panel] eq_refl eq_refl)
    as (s & ps' & w' & Hrun & Hall & _ & Hid & _ & Hps & Hlen & _).
  - repeat constructor; by eexists.
  - exists s, ps', w'. split; [exact Hrun|]. split; [exact Hall|].
    split; [exact Hid|]. split; [exact Hps|exact Hlen].
Defined.


(** A whole run on an empty disk ends with its registry on disk. *)
Lemma the_registry_stays_on_disk_witness :
  registry_on_disk
    (main (studio 0 (Some [])) fifo dual_grid "story" None fresh).2.
Proof.
  destruct (main (studio 0 (Some [])) fifo dual_grid "story" None fresh)
    as [r w'] eqn:Hrun.
  destruct (the_registry_stays_on_disk (studio 0 (Some [])) fifo dual_grid
              "story" None fresh w' r Hrun) as (_ & _ & Hfresh).
  exact (Hfresh eq_refl).
Defined.

